(** * MCTS player of the NoGo framework (agent.h)

    A shallow embedding of [MCTS_player] and its nested class [Node]:
    the search tree, UCT selection, expansion, random playout,
    backpropagation, the iteration budget and the final move choice.

    Conventions.
    - [size_t] values (visit and win counters, the colour index [bw_],
      positions) are integers in [Z]; arithmetic the source performs on
      them is written with its wrap-around modulo 2^64 ([size_t_wrap]).
    - [int] values ([cycles], [itr]) are integers in [Z]; the one place
      the source increments an [int] checks for overflow explicitly.
    - A [Node*] is the list of child indices leading from the pointed
      node up to the root ([ptr]); [&root] is the empty list, and
      [get_parent] drops the head.  The tree itself is the store.
      [children_] is a [std::vector<Node>], whose growth relocates its
      elements: [expansion_among_leaves] shows that a vector grows only
      while its elements have no children, so an address keeps denoting
      the same node throughout a search.
    - The loops the source leaves unbounded (the selection [while], the
      playout [while (true)], the [do ... while]) take fuel; the theorems
      say how much is enough.  The wall clock is a function telling, for
      each completed body, whether [dt < threshold_time] held.
    - board.h and action.h are not part of the sources; the board, the
      random engine and the floating point operations are interfaces. *)

From Stdlib Require Import ZArith List Bool Lia Arith FinFun Permutation.
From Stdlib Require String Ascii.
Import String.StringSyntax.
Import ListNotations.
Open Scope Z_scope.

Set Implicit Arguments.

(** ** Machine integers *)

Definition SIZE_T_MOD : Z := 2 ^ 64.
Definition size_t_wrap (z : Z) : Z := z mod SIZE_T_MOD.
Definition INT_MAX : Z := 2 ^ 31 - 1.

(** ** External collaborators *)

(** [board::piece_type]. *)
Inductive piece_type : Type := black | white | empty.

(** [action]: the default-constructed [action()] and [action::place]. *)
Inductive action : Type :=
| action_none : action
| action_place : Z -> piece_type -> action.

(** The board of board.h as the player uses it: the constants
    [board::size_x], [board::size_y], and
    [action::place(pos, who).apply(b)], which reports whether the result
    is [board::legal] and leaves the board it was applied to in [b]. *)
Class BoardOracle : Type := {
  board : Type;
  size_x : nat;
  size_y : nat;
  place_apply : Z -> piece_type -> board -> bool * board
}.

(** [std::default_random_engine]: the default-constructed engine,
    [engine.seed(s)], and
    [std::uniform_int_distribution<size_t> choose(a, b); choose(g)], which
    gives the value drawn and the advanced engine. *)
Class RandomEngine : Type := {
  default_random_engine : Type;
  engine_default : default_random_engine;
  engine_seed : Z -> default_random_engine;
  uniform_int : Z -> Z -> default_random_engine -> Z * default_random_engine
}.

(** [double] and the operations [get_UCT_child] uses on it: the
    conversion from [size_t], [/], [+], [*], [std::sqrt], [std::log] and
    [<]; [d_quarter] is the literal [0.25]. *)
Class DoubleOps : Type := {
  double : Type;
  double_of_size_t : Z -> double;
  fdiv : double -> double -> double;
  fadd : double -> double -> double;
  fmul : double -> double -> double;
  fsqrt : double -> double;
  flog : double -> double;
  flt : double -> double -> bool;
  d_quarter : double
}.

(** [std::stoi] and [std::stod] ([None] when they throw), and the
    conversion [int(double)]. *)
Class NumericParsing {DO : DoubleOps} : Type := {
  stoi : String.string -> option Z;
  stod : String.string -> option double;
  int_of_double : double -> Z
}.

(** The way a call ends: it returns, or it fails with an exception or a
    failed assertion. *)
Inductive outcome (A : Type) : Type :=
| returned : A -> outcome A
| failed : outcome A.
Arguments failed {A}.

(** ** Generic list helpers for [std::vector] *)

Section Vectors.
Variable A : Type.

(** [v[i] = x] for an index in range; nothing out of range. *)
Fixpoint replace_nth (i : nat) (x : A) (l : list A) : list A :=
  match l with
  | [] => []
  | y :: l' =>
      match i with
      | O => x :: l'
      | S i' => y :: replace_nth i' x l'
      end
  end.

(** [v.erase(v.begin() + i)]. *)
Fixpoint erase_nth (i : nat) (l : list A) : list A :=
  match l with
  | [] => []
  | y :: l' =>
      match i with
      | O => l'
      | S i' => y :: erase_nth i' l'
      end
  end.

(** [std::max_element(first, last, comp)]: the running largest element
    is replaced only when [comp largest current] holds. *)
Fixpoint max_element_from (comp : A -> A -> bool)
         (largest_i : nat) (largest : A) (i : nat) (l : list A) : nat :=
  match l with
  | [] => largest_i
  | x :: l' =>
      if comp largest x
      then max_element_from comp i x (S i) l'
      else max_element_from comp largest_i largest (S i) l'
  end.

(** [None] is the past-the-end iterator of an empty range. *)
Definition max_element (comp : A -> A -> bool) (l : list A) : option nat :=
  match l with
  | [] => None
  | x :: l' => Some (max_element_from comp 0%nat x 1%nat l')
  end.
End Vectors.

Section Search.
Context {BO : BoardOracle} {RE : RandomEngine} {DO : DoubleOps}.

(** [(bw==1) ? board::black : board::white]. *)
Definition color (bw : Z) : piece_type := if bw =? 1 then black else white.

(** [board::size_x * board::size_y]. *)
Definition space : nat := (size_x * size_y)%nat.

(** The scan
    [for i in 0 .. size_x*size_y: tmp = b; if (place(i, color bw).apply(tmp) == legal) push_back(i)]
    shared by the [Node] constructor and the playout. *)
Definition legal_moves (b : board) (bw : Z) : list Z :=
  filter (fun i => fst (place_apply i (color bw) b))
         (map Z.of_nat (seq 0 space)).

(** *** class Node *)

(** [parent_] is not a field: it is the tail of the node's address.
    [uct_score_] has no initialiser in the source: [None]. *)
Local Unset Elimination Schemes.
Inductive Node : Type := mkNode {
  engine_ : default_random_engine;
  children_ : list Node;
  moves_ : list Z;
  bw_ : Z;
  pos_ : Z;
  node_exploration_constant : double;
  visits_ : Z;
  wins_ : Z;
  rave_wins_ : Z;
  rave_visits_ : Z;
  uct_score_ : option double
}.
Local Set Elimination Schemes.

Definition set_children (cs : list Node) (n : Node) : Node :=
  mkNode (engine_ n) cs (moves_ n) (bw_ n) (pos_ n)
         (node_exploration_constant n) (visits_ n) (wins_ n)
         (rave_wins_ n) (rave_visits_ n) (uct_score_ n).

Definition set_uct_score (s : double) (n : Node) : Node :=
  mkNode (engine_ n) (children_ n) (moves_ n) (bw_ n) (pos_ n)
         (node_exploration_constant n) (visits_ n) (wins_ n)
         (rave_wins_ n) (rave_visits_ n) (Some s).

(** [Node::Node(engine, b, who, pos, parent)]: the engine is taken by
    value and stored; the untried moves are the legal moves of [1-who];
    the exploration constant is the member initialiser [0.25]. *)
Definition Node_new (engine : default_random_engine) (b : board)
           (who pos : Z) : Node :=
  mkNode engine [] (legal_moves b (size_t_wrap (1 - who))) who pos
         d_quarter 0 0 0 0 None.

Definition get_player (n : Node) : Z := bw_ n.
Definition get_wins_visits (n : Node) : Z * Z := (wins_ n, visits_ n).
Definition get_move (n : Node) : Z * Z := (bw_ n, pos_ n).

Definition has_untried_moves (n : Node) : bool :=
  match moves_ n with [] => false | _ => true end.
Definition has_children (n : Node) : bool :=
  match children_ n with [] => false | _ => true end.

(** The score assigned to [child.uct_score_] in [get_UCT_child]. *)
Definition uct_score (parent child : Node) : double :=
  fadd (fdiv (double_of_size_t (wins_ child)) (double_of_size_t (visits_ child)))
       (fmul (fsqrt (fdiv (flog (double_of_size_t (visits_ parent)))
                          (double_of_size_t (visits_ child))))
             (node_exploration_constant parent)).

(** The comparator [lhs.uct_score_ < rhs.uct_score_]. *)
Definition uct_less (lhs rhs : Node) : bool :=
  match uct_score_ lhs, uct_score_ rhs with
  | Some x, Some y => flt x y
  | _, _ => false
  end.

(** [Node::get_UCT_child]: writes every child's [uct_score_], then
    returns the address of the maximal child as its index; [None] is
    [&*children_.end()] on an empty vector. *)
Definition get_UCT_child (n : Node) : Node * option nat :=
  let cs := map (fun child => set_uct_score (uct_score n child) child)
                (children_ n) in
  (set_children cs n, max_element uct_less cs).

(** The node after [moves_.erase(moves_.begin() + k)], its engine
    advanced to [g] by the draw. *)
Definition popped (k : nat) (g : default_random_engine) (n : Node) : Node :=
  mkNode g (children_ n) (erase_nth k (moves_ n)) (bw_ n) (pos_ n)
         (node_exploration_constant n) (visits_ n) (wins_ n)
         (rave_wins_ n) (rave_visits_ n) (uct_score_ n).

(** [Node::pop_untried_move]: draws from the node's own [engine_].
    [None] when the drawn index is outside [moves_]. *)
Definition pop_untried_move (n : Node) : option (Z * Z * Node) :=
  let hi := size_t_wrap (Z.of_nat (length (moves_ n)) - 1) in
  let (k, g) := uniform_int 0 hi (engine_ n) in
  match nth_error (moves_ n) (Z.to_nat k) with
  | None => None
  | Some pos => Some (size_t_wrap (1 - bw_ n), pos, popped (Z.to_nat k) g n)
  end.

(** [Node::add_child]: the new node is appended; the result is the
    node and the index of [&children_.back()]. *)
Definition add_child (engine : default_random_engine) (b : board)
           (who pos : Z) (n : Node) : Node * nat :=
  (set_children (children_ n ++ [Node_new engine b who pos]) n,
   length (children_ n)).

(** [Node::update]. *)
Definition update (win : bool) (n : Node) : Node :=
  mkNode (engine_ n) (children_ n) (moves_ n) (bw_ n) (pos_ n)
         (node_exploration_constant n)
         (size_t_wrap (visits_ n + 1))
         (size_t_wrap (wins_ n + (if win then 1 else 0)))
         (rave_wins_ n) (rave_visits_ n) (uct_score_ n).

(** *** The tree as a store addressed by [Node*] *)

Definition ptr : Type := list nat.

Definition get_parent (node : ptr) : option ptr :=
  match node with
  | [] => None
  | _ :: parent => Some parent
  end.

(** Reading and rewriting along a root-first path. *)
Fixpoint get_down (n : Node) (p : list nat) : option Node :=
  match p with
  | [] => Some n
  | i :: q =>
      match nth_error (children_ n) i with
      | Some c => get_down c q
      | None => None
      end
  end.

Fixpoint modify_down (f : Node -> Node) (p : list nat) (n : Node) : Node :=
  match p with
  | [] => f n
  | i :: q =>
      match nth_error (children_ n) i with
      | Some c => set_children (replace_nth i (modify_down f q c) (children_ n)) n
      | None => n
      end
  end.

(** Dereferencing [node], and rewriting the node it points to with [f]. *)
Definition deref (root : Node) (node : ptr) : option Node :=
  get_down root (rev node).
Definition store (root : Node) (node : ptr) (f : Node -> Node) : Node :=
  modify_down f (rev node) root.

(** *** MCTS_player::take_action *)

(** One pass of the selection loop body: [node = node->get_UCT_child()]
    (which also writes the scores into the children), then the chosen
    child's move is applied to the scratch board.  [None] when the
    returned pointer is the past-the-end address. *)
Definition selection_body (root : Node) (node : ptr) (b : board)
  : option (Node * ptr * board) :=
  match deref root node with
  | None => None
  | Some n =>
      let (n', r) := get_UCT_child n in
      match r with
      | None => None
      | Some i =>
          let root' := store root node (fun _ => n') in
          let node' := i :: node in
          match deref root' node' with
          | None => None
          | Some c =>
              let (bw, pos) := get_move c in
              Some (root', node', snd (place_apply pos (color bw) b))
          end
      end
  end.

(** [!node->has_untried_moves() && node->has_children()]. *)
Definition selection_cond (root : Node) (node : ptr) : bool :=
  match deref root node with
  | None => false
  | Some n => negb (has_untried_moves n) && has_children n
  end.

Fixpoint selection (fuel : nat) (root : Node) (node : ptr) (b : board)
  : option (Node * ptr * board) :=
  if selection_cond root node then
    match fuel with
    | O => None
    | S fuel' =>
        match selection_body root node b with
        | None => None
        | Some (root', node', b') => selection fuel' root' node' b'
        end
    end
  else Some (root, node, b).

(** The nodes on which the selection loop calls [get_UCT_child], as
    they are at the time of the call. *)
Fixpoint selection_calls (fuel : nat) (root : Node) (node : ptr) (b : board)
  : list Node :=
  if selection_cond root node then
    match fuel with
    | O => []
    | S fuel' =>
        match deref root node, selection_body root node b with
        | Some n, Some (root', node', b') =>
            n :: selection_calls fuel' root' node' b'
        | Some n, None => [n]
        | None, _ => []
        end
    end
  else [].

(** Expansion: pop an untried move with the node's own engine, apply it,
    and add the child, which receives a copy of the driver's engine. *)
Definition expansion (root : Node) (node : ptr) (b : board)
           (engine : default_random_engine)
  : option (Node * ptr * board) :=
  match deref root node with
  | None => None
  | Some n =>
      if has_untried_moves n then
        match pop_untried_move n with
        | None => None
        | Some (bw, pos, n1) =>
            let b' := snd (place_apply pos (color bw) b) in
            let (n2, i) := add_child engine b' bw pos n1 in
            Some (store root node (fun _ => n2), i :: node, b')
        end
      else Some (root, node, b)
  end.

(** The playout loop.  The result is the colour index [bw] and the board
    at the [break], the advanced driver engine and the number of moves
    played. *)
Fixpoint rollout (fuel : nat) (b : board) (bw : Z)
         (engine : default_random_engine) (plies : nat)
  : option (Z * board * default_random_engine * nat) :=
  match fuel with
  | O => None
  | S fuel' =>
      let moves := legal_moves b bw in
      match moves with
      | [] => Some (bw, b, engine, plies)
      | _ =>
          let hi := size_t_wrap (Z.of_nat (length moves) - 1) in
          let (k, engine') := uniform_int 0 hi engine in
          match nth_error moves (Z.to_nat k) with
          | None => None
          | Some pos =>
              rollout fuel' (snd (place_apply pos (color bw) b))
                      (size_t_wrap (1 - bw)) engine' (S plies)
          end
      end
  end.

(** [while (node != nullptr) { node->update(winner == node->get_player());
    node = node->get_parent(); }] *)
Fixpoint backpropagation (winner : Z) (root : Node) (node : ptr) : Node :=
  let root' := store root node (fun n => update (winner =? get_player n) n) in
  match node with
  | [] => root'
  | _ :: parent => backpropagation winner root' parent
  end.

(** The body of the [do ... while] loop on the input [state]. *)
Definition iteration (fuel : nat) (state : board) (root : Node)
           (engine : default_random_engine)
  : option (Node * default_random_engine) :=
  match selection fuel root [] state with
  | None => None
  | Some (root1, node1, b1) =>
      match expansion root1 node1 b1 engine with
      | None => None
      | Some (root2, node2, b2) =>
          match deref root2 node2 with
          | None => None
          | Some n =>
              match rollout fuel b2 (size_t_wrap (1 - get_player n)) engine 0 with
              | None => None
              | Some (bw, _, engine', _) =>
                  let winner := size_t_wrap (1 - bw) in
                  Some (backpropagation winner root2 node2, engine')
              end
          end
      end
  end.

(** The fields of [MCTS_player] that [take_action] reads. *)
Record MCTS_player : Type := mkPlayer {
  who : Z;
  cycles : Z;
  exploration_constant : double;
  engine : default_random_engine
}.

(** [name().find_first_of(chars) != std::string::npos]. *)
Fixpoint mem_ascii (c : Ascii.ascii) (s : String.string) : bool :=
  match s with
  | String.EmptyString => false
  | String.String c' s' => Ascii.eqb c c' || mem_ascii c s'
  end.

Fixpoint find_first_of (chars s : String.string) : bool :=
  match s with
  | String.EmptyString => false
  | String.String c s' => mem_ascii c chars || find_first_of chars s'
  end.

(** [agent::meta] after [agent]'s constructor read the [key=value] pairs
    in order: a later pair overwrites an earlier one with the same key. *)
Definition agent_meta (pairs : list (String.string * String.string))
           (key : String.string) : option String.string :=
  fold_left (fun found kv => if String.eqb (fst kv) key then Some (snd kv) else found)
            pairs None.

(** [MCTS_player::MCTS_player(args)], with [args] already split into
    its [key=value] pairs.  [random_agent] seeds the engine when [seed]
    is given; a name with a reserved character and a role other than
    [black] and [white] throw; [T] and [exp] are read under [try], so the
    member initialisers [1000] and [0.25] stay when they are absent or
    do not parse. *)
Local Open Scope string_scope.
Definition MCTS_player_new {NP : NumericParsing}
           (args : list (String.string * String.string)) : outcome MCTS_player :=
  let meta := agent_meta
                (([("name", "unknown"); ("role", "unknown");
                   ("name", "mcts"); ("role", "unknown")] ++ args)%list) in
  let seeded :=
    match meta "seed" with
    | None => Some engine_default
    | Some v => option_map (fun d => engine_seed (int_of_double d)) (stod v)
    end in
  match seeded, meta "name", meta "role" with
  | Some engine, Some name, Some role =>
      if find_first_of "[]():; " name then failed
      else
        let cycles :=
          match meta "T" with
          | Some v => match stoi v with Some c => c | None => 1000 end
          | None => 1000
          end in
        let exploration_constant :=
          match meta "exp" with
          | Some v => match stod v with Some d => d | None => d_quarter end
          | None => d_quarter
          end in
        if String.eqb role "black" then
          returned (mkPlayer 1 cycles exploration_constant engine)
        else if String.eqb role "white" then
          returned (mkPlayer 0 cycles exploration_constant engine)
        else failed
  | _, _, _ => failed
  end.
Local Close Scope string_scope.

(** [do { body; dt = ...; itr++; } while (dt < threshold_time && itr <= cycles)].
    [clock k] tells whether [dt < threshold_time] held when measured
    after the body ran for the [k+1]-th time.  [done] counts the bodies
    executed.  [itr++] on [INT_MAX] has no defined result. *)
Fixpoint search_loop (loop_fuel fuel : nat) (cycles : Z) (clock : nat -> bool)
         (state : board) (done : nat) (itr : Z) (root : Node)
         (engine : default_random_engine)
  : option (nat * Node * default_random_engine) :=
  match loop_fuel with
  | O => None
  | S loop_fuel' =>
      match iteration fuel state root engine with
      | None => None
      | Some (root', engine') =>
          let dt_in_budget := clock done in
          if INT_MAX <=? itr then None
          else
            let itr' := itr + 1 in
            if dt_in_budget && (itr' <=? cycles)
            then search_loop loop_fuel' fuel cycles clock state (S done) itr' root' engine'
            else Some (S done, root', engine')
      end
  end.

(** [(float) visits] for a [size_t]: round to nearest, ties to even,
    with a 24 bit significand.  The result is the value of the float,
    which is an integer. *)
Definition float_of_size_t (n : Z) : Z :=
  if n <? 2 ^ 24 then n
  else
    let e := Z.log2 n - 23 in
    let q := n / 2 ^ e in
    let r := n mod 2 ^ e in
    let half := 2 ^ (e - 1) in
    if (half <? r) || ((r =? half) && Z.odd q)
    then (q + 1) * 2 ^ e
    else q * 2 ^ e.

(** [std::map<size_t, float>::emplace]: keys ascending, an existing key
    is left as it is. *)
Fixpoint map_emplace (k v : Z) (m : list (Z * Z)) : list (Z * Z) :=
  match m with
  | [] => [(k, v)]
  | (k', v') :: m' =>
      if k <? k' then (k, v) :: m
      else if k =? k' then m
      else (k', v') :: map_emplace k v m'
  end.

Definition ratio_less (p1 p2 : Z * Z) : bool := snd p1 <? snd p2.

(** The body of the loop over the root's children:
    [move_ratio.emplace(pos, (float) visits)]. *)
Definition emplace_child (move_ratio : list (Z * Z)) (child : Node) : list (Z * Z) :=
  let '(wins, visits) := get_wins_visits child in
  let '(bw, pos) := get_move child in
  let ratio := float_of_size_t visits in
  map_emplace pos ratio move_ratio.

(** The tail of [take_action]: the move of the root child with the
    largest [(float) visits], or [action()] without children. *)
Definition best_action (who : Z) (root : Node) : option action :=
  match children_ root with
  | [] => Some action_none
  | children =>
      let move_ratio := fold_left emplace_child children [] in
      match max_element ratio_less move_ratio with
      | None => None
      | Some i =>
          match nth_error move_ratio i with
          | None => None
          | Some (best_move, _) =>
              Some (action_place best_move (if who =? 1 then black else white))
          end
      end
  end.

(** The search part of [take_action]: the root and the loop. *)
Definition search (loop_fuel fuel : nat) (p : MCTS_player)
           (clock : nat -> bool) (state : board)
  : option (nat * Node * default_random_engine) :=
  let root := Node_new (engine p) state (size_t_wrap (1 - who p))
                       (Z.of_nat space) in
  search_loop loop_fuel fuel (cycles p) clock state 0 0 root (engine p).

Definition take_action (loop_fuel fuel : nat) (p : MCTS_player)
           (clock : nat -> bool) (state : board) : option action :=
  match search loop_fuel fuel p clock state with
  | None => None
  | Some (_, root, _) => best_action (who p) root
  end.

End Search.

(** ** Specification vocabulary *)

(** A comparison is a strict weak ordering on the values in [l]: the
    requirement of [std::max_element] on its comparator.  For [double]
    it holds of any values none of which is a NaN. *)
Definition strict_weak_order_on (A : Type) (lt : A -> A -> bool) (l : list A) : Prop :=
  (forall a, In a l -> lt a a = false) /\
  (forall a b c, In a l -> In b l -> In c l ->
                 lt a b = true -> lt b c = true -> lt a c = true) /\
  (forall a b c, In a l -> In b l -> In c l ->
                 lt a b = true -> lt a c = true \/ lt c b = true).

(** The most iterations the [int] counter [itr] can count. *)
Definition MAX_ITERATIONS : Z := 2 ^ 31.

Definition path_eq_dec : forall p q : list nat, {p = q} + {p <> q} :=
  list_eq_dec Nat.eq_dec.
Arguments path_eq_dec : simpl never.

Section SearchSpec.
Context {BO : BoardOracle} {RE : RandomEngine} {DO : DoubleOps}.

(** A call of [get_UCT_child] as a caller observes it: the body holds
    no [assert] and no [throw]. *)
Definition call_get_UCT_child (n : Node) : outcome (Node * option nat) :=
  returned (get_UCT_child n).

(** A NaN: [<] with it is false on either side, whatever the other
    double.  Of the doubles only the NaNs are such: every number is
    above or below some other double. *)
Definition is_nan (x : double) : Prop :=
  forall y, flt x y = false /\ flt y x = false.

(** The fields of a node other than its children. *)
Definition core (n : Node) : Node := set_children [] n.

(** Everything a node holds itself, but for the scratch field
    [uct_score_]: the node with its children and its score blanked. *)
Definition statistics (n : Node) : Node :=
  mkNode (engine_ n) [] (moves_ n) (bw_ n) (pos_ n)
         (node_exploration_constant n) (visits_ n) (wins_ n)
         (rave_wins_ n) (rave_visits_ n) None.

(** What the tree holds at a root-first path. *)
Definition view (root : Node) (q : list nat) : option Node :=
  option_map statistics (get_down root q).

(** [p] is a prefix of [q]: the node at [q] is the node at [p] or lies
    below it. *)
Fixpoint is_prefix (p q : list nat) : bool :=
  match p, q with
  | [], _ => true
  | i :: p', j :: q' => Nat.eqb i j && is_prefix p' q'
  | _ :: _, [] => false
  end.

(** [std::uniform_int_distribution]: the value drawn lies in [[a, b]]. *)
Definition uniform_int_in_range : Prop :=
  forall a b g, a <= b -> a <= fst (uniform_int a b g) <= b.

(** The number of cells is a [size_t]. *)
Definition board_fits_size_t : Prop := Z.of_nat space < SIZE_T_MOD.

(** Modelled from the spec: board.h, which decides what a legal placement
    does to the board, is not part of the sources.  The spec has each ply
    permanently take one destination away: a legal placement lands on an
    empty cell, and an occupied cell stays occupied. *)
Record permanent_occupation (occupied : board -> Z -> bool) : Prop := {
  legal_on_empty : forall pos who b,
    fst (place_apply pos who b) = true -> occupied b pos = false;
  legal_occupies : forall pos who b,
    fst (place_apply pos who b) = true ->
    occupied (snd (place_apply pos who b)) pos = true;
  occupied_stays : forall pos who b q,
    fst (place_apply pos who b) = true -> occupied b q = true ->
    occupied (snd (place_apply pos who b)) q = true
}.

(** The empty cells of a board. *)
Definition free_cells (occupied : board -> Z -> bool) (b : board) : nat :=
  length (filter (fun i => negb (occupied b i)) (map Z.of_nat (seq 0 space))).

(** What holds of the tree when [done] iterations have run: the counters
    of every node are ordered and bounded by [done]; every node but the
    root has been visited; the tree is no deeper than [done]; a node has
    no more untried moves than the board has cells; every node carries
    the constant [0.25]; and the root's untried moves and the positions
    of its children are pairwise distinct; and the children of a node
    that still has untried moves have no children of their own. *)
Record tree_inv (done : nat) (root : Node) : Prop := {
  inv_stats : forall q s, view root q = Some s ->
    0 <= wins_ s <= visits_ s /\ visits_ s <= Z.of_nat done;
  inv_visited : forall q s, q <> [] -> view root q = Some s -> 1 <= visits_ s;
  inv_depth : forall q, view root q <> None -> (length q <= done)%nat;
  inv_moves : forall q s, view root q = Some s -> (length (moves_ s) <= space)%nat;
  inv_constant : forall q s, view root q = Some s ->
    node_exploration_constant s = d_quarter;
  inv_root_moves : forall s, view root [] = Some s -> NoDup (moves_ s);
  inv_root_fresh : forall j s c, view root [] = Some s -> view root [j] = Some c ->
    ~ In (pos_ c) (moves_ s);
  inv_root_distinct : forall j k c d, view root [j] = Some c -> view root [k] = Some d ->
    pos_ c = pos_ d -> j = k;
  inv_leaves : forall q s j k, view root q = Some s -> moves_ s <> [] ->
    view root (q ++ [j; k]) = None
}.

(** Control stands at the top of the loop body with [done] bodies run,
    the counter at [itr], the tree [root] and the driver's engine [g].
    The body is entered again only when [itr++] did not overflow and the
    loop test held. *)
Inductive loop_head (fuel : nat) (p : MCTS_player) (clock : nat -> bool)
          (state : board) : nat -> Z -> Node -> default_random_engine -> Prop :=
| head_first :
    loop_head fuel p clock state 0 0
              (Node_new (engine p) state (size_t_wrap (1 - who p)) (Z.of_nat space))
              (engine p)
| head_next : forall done itr root g root' g',
    loop_head fuel p clock state done itr root g ->
    iteration fuel state root g = Some (root', g') ->
    itr < INT_MAX ->
    clock done = true ->
    itr + 1 <= cycles p ->
    loop_head fuel p clock state (S done) (itr + 1) root' g'.

(** The trees a search goes through: at the top of the body, after
    selection, after expansion, and after backpropagation (the playout
    does not touch the tree). *)
Inductive during_search (fuel : nat) (p : MCTS_player) (clock : nat -> bool)
          (state : board) : Node -> Prop :=
| at_head : forall done itr root g,
    loop_head fuel p clock state done itr root g ->
    during_search fuel p clock state root
| after_selection : forall done itr root g root1 node1 b1,
    loop_head fuel p clock state done itr root g ->
    selection fuel root [] state = Some (root1, node1, b1) ->
    during_search fuel p clock state root1
| after_expansion : forall done itr root g root1 node1 b1 root2 node2 b2,
    loop_head fuel p clock state done itr root g ->
    selection fuel root [] state = Some (root1, node1, b1) ->
    expansion root1 node1 b1 g = Some (root2, node2, b2) ->
    during_search fuel p clock state root2
| after_backpropagation : forall done itr root g root' g',
    loop_head fuel p clock state done itr root g ->
    iteration fuel state root g = Some (root', g') ->
    during_search fuel p clock state root'.

(** *** The search with one shared random stream *)

(** Modelled from the spec's words (sections 5 and 9): one random source
    owned by the driver is threaded through the driver and the node
    operations, so the draw of [popUntriedMove] comes from it and
    advances it.  Selection, the playout and backpropagation are the
    source's. *)
Definition pop_untried_move_shared (engine : default_random_engine) (n : Node)
  : option (Z * Z * Node * default_random_engine) :=
  let hi := size_t_wrap (Z.of_nat (length (moves_ n)) - 1) in
  let (k, g) := uniform_int 0 hi engine in
  match nth_error (moves_ n) (Z.to_nat k) with
  | None => None
  | Some pos =>
      Some (size_t_wrap (1 - bw_ n), pos, popped (Z.to_nat k) (engine_ n) n, g)
  end.

Definition expansion_shared (root : Node) (node : ptr) (b : board)
           (engine : default_random_engine)
  : option (Node * ptr * board * default_random_engine) :=
  match deref root node with
  | None => None
  | Some n =>
      if has_untried_moves n then
        match pop_untried_move_shared engine n with
        | None => None
        | Some (bw, pos, n1, engine') =>
            let b' := snd (place_apply pos (color bw) b) in
            let (n2, i) := add_child engine' b' bw pos n1 in
            Some (store root node (fun _ => n2), i :: node, b', engine')
        end
      else Some (root, node, b, engine)
  end.

Definition iteration_shared (fuel : nat) (state : board) (root : Node)
           (engine : default_random_engine)
  : option (Node * default_random_engine) :=
  match selection fuel root [] state with
  | None => None
  | Some (root1, node1, b1) =>
      match expansion_shared root1 node1 b1 engine with
      | None => None
      | Some (root2, node2, b2, engine1) =>
          match deref root2 node2 with
          | None => None
          | Some n =>
              match rollout fuel b2 (size_t_wrap (1 - get_player n)) engine1 0 with
              | None => None
              | Some (bw, _, engine', _) =>
                  Some (backpropagation (size_t_wrap (1 - bw)) root2 node2, engine')
              end
          end
      end
  end.

Fixpoint search_loop_shared (loop_fuel fuel : nat) (cycles : Z) (clock : nat -> bool)
         (state : board) (done : nat) (itr : Z) (root : Node)
         (engine : default_random_engine)
  : option (nat * Node * default_random_engine) :=
  match loop_fuel with
  | O => None
  | S loop_fuel' =>
      match iteration_shared fuel state root engine with
      | None => None
      | Some (root', engine') =>
          if INT_MAX <=? itr then None
          else if clock done && (itr + 1 <=? cycles)
               then search_loop_shared loop_fuel' fuel cycles clock state
                                       (S done) (itr + 1) root' engine'
               else Some (S done, root', engine')
      end
  end.

Definition search_shared (loop_fuel fuel : nat) (p : MCTS_player)
           (clock : nat -> bool) (state : board)
  : option (nat * Node * default_random_engine) :=
  let root := Node_new (engine p) state (size_t_wrap (1 - who p))
                       (Z.of_nat space) in
  search_loop_shared loop_fuel fuel (cycles p) clock state 0 0 root (engine p).

(** The update backpropagation applies to a node for a given winner. *)
Definition backprop_update (winner : Z) (n : Node) : Node :=
  update (winner =? get_player n) n.

End SearchSpec.

(** ** The shape of the tree during a search *)

Section TreeShape.
Context {BO : BoardOracle} {RE : RandomEngine} {DO : DoubleOps}.

(** The sum of the visit counts of a node's children. *)
Definition children_visits (n : Node) : Z :=
  fold_right Z.add 0 (map visits_ (children_ n)).

(** [f 0 + ... + f (k-1)]. *)
Fixpoint sum_upto (f : nat -> Z) (k : nat) : Z :=
  match k with
  | O => 0
  | S k' => sum_upto f k' + f k'
  end.

(** The visit count at an address; 0 where the tree has no node. *)
Definition visits_at (root : Node) (q : list nat) : Z :=
  match view root q with
  | Some s => visits_ s
  | None => 0
  end.

(** The visit counts of the first [k] children of the node at [q]. *)
Definition kids_sum (root : Node) (q : list nat) (k : nat) : Z :=
  sum_upto (fun j => visits_at root (q ++ [j])) k.

(** The visit a node receives in the iteration that creates it: none
    for the root, which the constructor builds. *)
Definition first_visit (q : list nat) : Z :=
  match q with
  | [] => 0
  | _ :: _ => 1
  end.

(** The tree and the driver's engine when [done] bodies of the loop have
    run: at the top of the next body, or as the last body left them. *)
Inductive bodies_run (fuel : nat) (p : MCTS_player) (clock : nat -> bool)
          (state : board) : nat -> Node -> default_random_engine -> Prop :=
| run_head : forall done itr root g,
    loop_head fuel p clock state done itr root g ->
    bodies_run fuel p clock state done root g
| run_body : forall done itr root g root' g',
    loop_head fuel p clock state done itr root g ->
    iteration fuel state root g = Some (root', g') ->
    bodies_run fuel p clock state (S done) root' g'.

(** Every node that has an untried move or a child has been visited once
    when it was created and once for every visit of a child. *)
Definition visits_conserved (root : Node) : Prop :=
  forall q s K,
    view root q = Some s ->
    (forall j, (K <= j)%nat -> view root (q ++ [j]) = None) ->
    (moves_ s <> [] \/ exists j, view root (q ++ [j]) <> None) ->
    visits_ s = kids_sum root q K + first_visit q.

(** The colour index the root's untried moves are computed for. *)
Definition root_mover (p : MCTS_player) : Z :=
  size_t_wrap (1 - size_t_wrap (1 - who p)).

(** The root's untried moves and the positions of its children are,
    together, the legal moves of [root_mover] on the input board. *)
Definition root_offers (p : MCTS_player) (state : board) (root : Node) : Prop :=
  forall pos,
    In pos (legal_moves state (root_mover p)) <->
    In pos (moves_ root) \/ exists j c, view root [j] = Some c /\ pos_ c = pos.

(** The input board with the moves of the nodes on the way from the
    root down to [node] played in that order (the root holds no move). *)
Fixpoint line_of_play (root : Node) (node : ptr) (state : board) : board :=
  match node with
  | [] => state
  | _ :: parent =>
      let b := line_of_play root parent state in
      match deref root node with
      | Some c => snd (place_apply (pos_ c) (color (bw_ c)) b)
      | None => b
      end
  end.

(** Along every edge of the tree the colour index flips. *)
Definition colours_alternate (root : Node) : Prop :=
  forall q j s c,
    view root q = Some s -> view root (q ++ [j]) = Some c ->
    bw_ c = size_t_wrap (1 - bw_ s).

End TreeShape.

(** The entries of a [std::map<size_t, float>] stand in ascending key
    order. *)
Fixpoint ascending (m : list (Z * Z)) : Prop :=
  match m with
  | [] => True
  | x :: m' => (forall y, In y m' -> fst x < fst y) /\ ascending m'
  end.


Import Ascii.AsciiSyntax.
Delimit Scope char_scope with char.

(** ** class agent: the property map read from the argument string *)

(** The characters [operator>>] skips: those [std::isspace] accepts in
    the classic locale (space, and [\t \n \v \f \r]). *)
Definition isspace (c : Ascii.ascii) : bool :=
  let n := Ascii.nat_of_ascii c in
  Nat.eqb n 32 || (Nat.leb 9 n && Nat.leb n 13).

(** [for (std::string pair; ss >> pair; )]: the maximal runs of
    characters that are not whitespace, in order.  [cur] is the run
    being read. *)
Fixpoint tokens_from (s cur : String.string) : list String.string :=
  match s with
  | String.EmptyString =>
      match cur with
      | String.EmptyString => []
      | _ => [cur]
      end
  | String.String c s' =>
      if isspace c then
        match cur with
        | String.EmptyString => tokens_from s' String.EmptyString
        | _ => cur :: tokens_from s' String.EmptyString
        end
      else tokens_from s' (String.append cur (String.String c String.EmptyString))
  end.

Definition tokens (s : String.string) : list String.string :=
  tokens_from s String.EmptyString.

(** [s.find(c)]; [None] is [std::string::npos]. *)
Fixpoint find (c : Ascii.ascii) (s : String.string) : option nat :=
  match s with
  | String.EmptyString => None
  | String.String c' s' =>
      if Ascii.eqb c' c then Some 0%nat else option_map S (find c s')
  end.

(** [pair.substr(0, pair.find('='))]: with [npos] as the count, the
    whole string. *)
Definition pair_key (pair : String.string) : String.string :=
  match find "="%char pair with
  | Some i => String.substring 0 i pair
  | None => pair
  end.

(** [pair.substr(pair.find('=') + 1)]: [npos + 1] is 0 in [size_t], so
    without ['='] this too is the whole string. *)
Definition pair_value (pair : String.string) : String.string :=
  match find "="%char pair with
  | Some i => String.substring (S i) (String.length pair - S i) pair
  | None => pair
  end.

Definition pair_of (pair : String.string) : String.string * String.string :=
  (pair_key pair, pair_value pair).

(** [std::map<key, value> meta], as its entries in key order. *)
Definition meta_map : Type := list (String.string * String.string).

(** [meta[key] = { value }]: a new entry, or a new value for the entry
    the key has. *)
Fixpoint meta_assign (key value : String.string) (meta : meta_map) : meta_map :=
  match meta with
  | [] => [(key, value)]
  | (k, v) :: meta' =>
      if String.ltb key k then (key, value) :: meta
      else if String.eqb key k then (key, value) :: meta'
           else (k, v) :: meta_assign key value meta'
  end.

(** [meta.find(key)]; [None] is [meta.end()]. *)
Fixpoint meta_find (key : String.string) (meta : meta_map) : option String.string :=
  match meta with
  | [] => None
  | (k, v) :: meta' => if String.eqb key k then Some v else meta_find key meta'
  end.

(** [agent::agent(args)]. *)
Local Open Scope string_scope.
Definition agent_new (args : String.string) : meta_map :=
  fold_left (fun meta pair => meta_assign (pair_key pair) (pair_value pair) meta)
            (tokens (String.append "name=unknown role=unknown " args)) [].

(** [agent::property]: [meta.at(key)] throws [std::out_of_range] on a
    key the map does not hold. *)
Definition property (meta : meta_map) (key : String.string) : outcome String.string :=
  match meta_find key meta with
  | Some v => returned v
  | None => failed
  end.

(** [agent::notify]. *)
Definition notify (msg : String.string) (meta : meta_map) : meta_map :=
  meta_assign (pair_key msg) (pair_value msg) meta.

Definition name (meta : meta_map) : outcome String.string := property meta "name".
Definition role (meta : meta_map) : outcome String.string := property meta "role".
Definition cycle (meta : meta_map) : outcome String.string := property meta "T".
Definition exp_cons (meta : meta_map) : outcome String.string := property meta "exp".

Section Agents.
Context {BO : BoardOracle} {RE : RandomEngine} {DO : DoubleOps} {NP : NumericParsing}.

(** [random_agent::random_agent(args)]: the property map of [agent] and
    the engine, seeded with [int(meta["seed"])] when [seed] is given;
    the conversion goes through [std::stod], which throws on a value
    that is no number. *)
Definition random_agent_new (args : String.string)
  : outcome (meta_map * default_random_engine) :=
  let meta := agent_new args in
  match meta_find "seed" meta with
  | None => returned (meta, engine_default)
  | Some v =>
      match stod v with
      | Some d => returned (meta, engine_seed (int_of_double d))
      | None => failed
      end
  end.

(** [MCTS_player::MCTS_player(args)] on the argument string. *)
Definition MCTS_player_of_args (args : String.string) : outcome MCTS_player :=
  match random_agent_new (String.append "name=mcts role=unknown " args) with
  | failed => failed
  | returned (meta, engine) =>
      match name meta, role meta with
      | returned nm, returned rl =>
          if find_first_of "[]():; " nm then failed
          else
            let cycles :=
              match cycle meta with
              | returned v => match stoi v with Some c => c | None => 1000 end
              | failed => 1000
              end in
            let exploration_constant :=
              match exp_cons meta with
              | returned v => match stod v with Some d => d | None => d_quarter end
              | failed => d_quarter
              end in
            if String.eqb rl "black" then
              returned (mkPlayer 1 cycles exploration_constant engine)
            else if String.eqb rl "white" then
              returned (mkPlayer 0 cycles exploration_constant engine)
            else failed
      | _, _ => failed
      end
  end.
End Agents.
Local Close Scope string_scope.

Local Open Scope string_scope.
(** The property map of a [tuple_agent]: its constructor hands
    ["name=slide role=slider" + args] to [weight_agent], and so to
    [agent]; there is no blank between [slider] and [args]. *)
Definition tuple_agent_meta (args : String.string) : meta_map :=
  agent_new (String.append "name=slide role=slider" args).

(** A string without whitespace: [operator>>] reads it as one token. *)
Definition no_space (s : String.string) : Prop :=
  forall c, mem_ascii c s = true -> isspace c = false.

(** A string the tokenizer ends a token at: the empty one, or one that
    begins with whitespace. *)
Definition token_break (s : String.string) : Prop :=
  match s with
  | String.EmptyString => True
  | String.String c _ => isspace c = true
  end.
Local Close Scope string_scope.

(** ** class weight_agent: the sizes of the weight tables *)

(** [std::isdigit] in the C locale. *)
Definition isdigit (c : Ascii.ascii) : bool :=
  let n := Ascii.nat_of_ascii c in ((48 <=? n) && (n <=? 57))%nat.

(** The number a digit stands for. *)
Definition digit_value (c : Ascii.ascii) : Z := Z.of_nat (Ascii.nat_of_ascii c) - 48.

(** The copy [res] of [info] after the loop of [init_weights]: every
    character that is not a digit is a blank. *)
Fixpoint blank_non_digits (info : String.string) : String.string :=
  match info with
  | String.EmptyString => String.EmptyString
  | String.String ch rest =>
      String.String (if isdigit ch then ch else " "%char) (blank_non_digits rest)
  end.

(** What [in >> size] stores for a run of digits that denotes [v]: the
    extraction fails when [v] does not fit [size_t]. *)
Definition extracted (v : Z) : option Z :=
  if v <? SIZE_T_MOD then Some v else None.

(** The loop [for (size_t size; in >> size; net.emplace_back(size))] on
    a stream of digits and blanks: [run] is the number of the digits
    read since the last blank, if any; the result lists the sizes of
    the tables the loop appends, and it ends at the first extraction
    that fails. *)
Fixpoint read_sizes (res : String.string) (run : option Z) : list Z :=
  match res with
  | String.EmptyString =>
      match run with
      | None => []
      | Some v => match extracted v with Some size => [size] | None => [] end
      end
  | String.String ch rest =>
      if isdigit ch then
        read_sizes rest
          (Some (10 * match run with Some v => v | None => 0 end + digit_value ch))
      else
        match run with
        | None => read_sizes rest None
        | Some v =>
            match extracted v with
            | Some size => size :: read_sizes rest None
            | None => []
            end
        end
  end.

(** [weight_agent::init_weights(info)]: the sizes of the tables it
    appends to [net], in order. *)
Definition init_weights (info : String.string) : list Z :=
  read_sizes (blank_non_digits info) None.

(** The decimal numeral of a list of digits, the number it denotes, and
    numerals written one after the other with [sep] between them. *)
Definition digit_char (d : nat) : Ascii.ascii := Ascii.ascii_of_nat (48 + d).

Fixpoint numeral (ds : list nat) : String.string :=
  match ds with
  | [] => String.EmptyString
  | d :: rest => String.String (digit_char d) (numeral rest)
  end.

Definition numeral_value (ds : list nat) : Z :=
  fold_left (fun acc d => 10 * acc + Z.of_nat d) ds 0.

Fixpoint separated (sep : String.string) (runs : list (list nat)) : String.string :=
  match runs with
  | [] => String.EmptyString
  | [ds] => numeral ds
  | ds :: rest => String.append (numeral ds) (String.append sep (separated sep rest))
  end.

(** A numeral of a size: at least one digit, digits below ten, and a
    number that fits [size_t]. *)
Definition size_numeral (ds : list nat) : Prop :=
  ds <> [] /\ Forall (fun d => (d < 10)%nat) ds /\ numeral_value ds < SIZE_T_MOD.

(** A separator: not empty, and without a digit. *)
Definition separator (sep : String.string) : Prop :=
  sep <> String.EmptyString /\ forall c, mem_ascii c sep = true -> isdigit c = false.

(** ** class player: the random player *)

(** [std::shuffle(first, last, g)]: the reordered range and the advanced
    engine.  The standard fixes that the result is a permutation of the
    range, not which one. *)
Class Shuffler {RE : RandomEngine} : Type := {
  shuffle : forall A : Type, list A -> default_random_engine
                             -> list A * default_random_engine
}.

Section Players.
Context {BO : BoardOracle} {RE : RandomEngine} {DO : DoubleOps}
        {NP : NumericParsing} {SH : Shuffler}.

(** *** class player *)

(** The fields of [player]: [space] holds [action::place] objects, a
    position with a piece type each. *)
Record player : Type := mkRandomPlayer {
  player_space : list (Z * piece_type);
  player_who : piece_type;
  player_engine : default_random_engine
}.

(** [space[i] = action::place(i, who)] for every cell. *)
Definition all_places (who : piece_type) : list (Z * piece_type) :=
  map (fun i => (Z.of_nat i, who)) (seq 0 space).

Local Open Scope string_scope.
(** [player::player(args)]. *)
Definition player_new (args : String.string) : outcome player :=
  match random_agent_new (String.append "name=random role=unknown " args) with
  | failed => failed
  | returned (meta, engine) =>
      match name meta, role meta with
      | returned nm, returned rl =>
          if find_first_of "[]():; " nm then failed
          else
            let who := if String.eqb rl "black" then black else empty in
            let who := if String.eqb rl "white" then white else who in
            match who with
            | empty => failed
            | _ => returned (mkRandomPlayer (all_places who) who engine)
            end
      | _, _ => failed
      end
  end.
Local Close Scope string_scope.

(** The loop of [player::take_action] over the shuffled moves: the
    first move that is legal on a copy of the board, or [action()]. *)
Fixpoint first_legal (moves : list (Z * piece_type)) (state : board) : action :=
  match moves with
  | [] => action_none
  | (pos, who) :: rest =>
      if fst (place_apply pos who state) then action_place pos who
      else first_legal rest state
  end.

(** [player::take_action]: the action, and the player with [space] as
    the shuffle left it and the engine advanced. *)
Definition player_take_action (p : player) (state : board) : action * player :=
  let (moves, g) := shuffle (player_space p) (player_engine p) in
  (first_legal moves state, mkRandomPlayer moves (player_who p) g).

(** The actions of successive calls of [take_action] on the boards of
    [states]. *)
Fixpoint player_plays (p : player) (states : list board) : list action :=
  match states with
  | [] => []
  | state :: rest =>
      let (a, p') := player_take_action p state in
      a :: player_plays p' rest
  end.

(** [std::shuffle] returns a permutation of its range. *)
Definition shuffle_permutes : Prop :=
  forall (A : Type) (l : list A) (g : default_random_engine),
    Permutation l (fst (shuffle l g)).

(** What [take_action] may return for [who] on [state]: a legal
    placement of [who] on a cell of the board, or [action()] when not
    one cell takes a piece of [who]. *)
Definition legal_or_none (who : piece_type) (state : board) (a : action) : Prop :=
  match a with
  | action_none =>
      forall i, (i < space)%nat -> fst (place_apply (Z.of_nat i) who state) = false
  | action_place pos c =>
      c = who /\ 0 <= pos < Z.of_nat space /\ fst (place_apply pos who state) = true
  end.

End Players.

(** ** The agents of the Threes framework *)

(** The board of the Threes framework as its agents use it:
    [board(before).slide(op)], the reward of the slide on a copy, [-1]
    for a slide that is not legal; [b[r][c]], the tile index in a cell,
    as the [int] handed to [index_to_index]; [b.value()], converted to
    [float]; and for the placer [b.last()], [b(pos)], the tile in the
    cell [pos], [b.bag(t)], how many tiles [t] the bag holds, and
    [b.hint()]. *)
Class ThreesBoard (float : Type) : Type := {
  threes_board : Type;
  slide_reward : threes_board -> Z -> Z;
  tile : threes_board -> Z -> Z -> Z;
  board_value : threes_board -> float;
  board_last : threes_board -> Z;
  board_cell : threes_board -> Z -> Z;
  board_bag : threes_board -> Z -> nat;
  board_hint : threes_board -> Z
}.

(** [float] and the operations [tuple_agent] uses on it. *)
Class FloatOps : Type := {
  float : Type;
  float_zero : float;
  float_of_int : Z -> float;
  float_add : float -> float -> float;
  float_sub : float -> float -> float;
  float_mul : float -> float -> float;
  float_gt : float -> float -> bool
}.

(** The actions of the Threes framework: [action()], [action::slide(op)],
    [action::place(pos, tile, hint)]. *)
Inductive threes_action : Type :=
| threes_none : threes_action
| threes_slide : Z -> threes_action
| threes_place : Z -> Z -> Z -> threes_action.

Definition INT_MIN : Z := - 2 ^ 31.

(** A value of an [int] expression: [None] when it is not an [int]
    (signed overflow has no defined result). *)
Definition as_int (z : Z) : option Z :=
  if (INT_MIN <=? z) && (z <=? INT_MAX) then Some z else None.

Definition int_mul (a b : Z) : option Z := as_int (a * b).
Definition int_add (a : option Z) (b : option Z) : option Z :=
  match a, b with
  | Some x, Some y => as_int (x + y)
  | _, _ => None
  end.

(** [tuple_agent::index_to_index]: the sum is formed in [int] and
    returned as [unsigned long]. *)
Definition index_to_index (index0 index1 index2 index3 : Z) : option Z :=
  option_map size_t_wrap
    (int_add (int_add (int_add (int_mul index0 4096) (int_mul index1 256))
                      (int_mul index2 16))
             (Some index3)).

Section Threes.
Context {RE : RandomEngine} {DO : DoubleOps} {NP : NumericParsing} {SH : Shuffler}
        {FO : FloatOps} {TB : ThreesBoard float}.

(** *** class random_slider *)

Record random_slider : Type := mkSlider {
  opcode : list Z;
  slider_engine : default_random_engine
}.

Local Open Scope string_scope.
(** [random_slider::random_slider(args)]. *)
Definition random_slider_new (args : String.string) : outcome random_slider :=
  match random_agent_new (String.append "name=slide role=slider " args) with
  | failed => failed
  | returned (_, engine) => returned (mkSlider [0; 1; 2; 3] engine)
  end.
Local Close Scope string_scope.

(** The loop over the shuffled [opcode]: the first slide whose reward is
    not [-1]. *)
Fixpoint first_slide (ops : list Z) (before : threes_board) : threes_action :=
  match ops with
  | [] => threes_none
  | op :: rest =>
      if slide_reward before op =? -1 then first_slide rest before
      else threes_slide op
  end.

(** [random_slider::take_action]. *)
Definition slider_take_action (s : random_slider) (before : threes_board)
  : threes_action * random_slider :=
  let (ops, g) := shuffle (opcode s) (slider_engine s) in
  (first_slide ops before, mkSlider ops g).

Fixpoint slider_plays (s : random_slider) (boards : list threes_board)
  : list threes_action :=
  match boards with
  | [] => []
  | before :: rest =>
      let (a, s') := slider_take_action s before in
      a :: slider_plays s' rest
  end.

(** A slide the board accepts among the four, or [action()] when it
    accepts none. *)
Definition slide_or_none (before : threes_board) (a : threes_action) : Prop :=
  match a with
  | threes_none => forall op, 0 <= op <= 3 -> slide_reward before op = -1
  | threes_slide op => 0 <= op <= 3 /\ slide_reward before op <> -1
  | threes_place _ _ _ => False
  end.

(** *** class random_placer *)

(** The fields of [random_placer]: the five vectors of [spaces] and the
    engine. *)
Record random_placer : Type := mkPlacer {
  spaces : list (list Z);
  placer_engine : default_random_engine
}.

Local Open Scope string_scope.
(** [random_placer::random_placer(args)]. *)
Definition random_placer_new (args : String.string) : outcome random_placer :=
  match random_agent_new (String.append "name=slide role=slider " args) with
  | failed => failed
  | returned (_, engine) =>
      returned (mkPlacer [[12; 13; 14; 15]; [0; 4; 8; 12]; [0; 1; 2; 3]; [3; 7; 11; 15];
                          [0; 1; 2; 3; 4; 5; 6; 7; 8; 9; 10; 11; 12; 13; 14; 15]]
                         engine)
  end.
Local Close Scope string_scope.

(** [spaces[after.last()]]; [None] outside the array. *)
Definition space_of (p : random_placer) (after : threes_board) : option (list Z) :=
  if 0 <=? board_last after then nth_error (spaces p) (Z.to_nat (board_last after))
  else None.

(** The array [bag] after the two loops that fill it, [bag[0..num)]:
    each tile [t] of 1, 2, 3 as often as [after.bag(t)]; [None] when
    more than the three elements of [bag] are written. *)
Definition fill_bag (after : threes_board) : option (list Z) :=
  let bag := repeat 1 (board_bag after 1) ++ repeat 2 (board_bag after 2)
             ++ repeat 3 (board_bag after 3) in
  if (length bag <=? 3)%nat then Some bag else None.

(** [bag[--num]]: the last element of [bag[0..num)], and the range that
    is left; [None] when [num] is zero. *)
Definition take_last (bag : list Z) : option (Z * list Z) :=
  match rev bag with
  | [] => None
  | t :: rest => Some (t, rev rest)
  end.

(** The body of the loop of [random_placer::take_action] at an empty
    cell [pos]. *)
Definition place_at (pos : Z) (after : threes_board) (g : default_random_engine)
  : option (threes_action * default_random_engine) :=
  match fill_bag after with
  | None => None
  | Some bag =>
      let (bag, g) := shuffle bag g in
      match (if board_hint after =? 0 then take_last bag
             else Some (board_hint after, bag)) with
      | None => None
      | Some (tile, bag) =>
          match take_last bag with
          | None => None
          | Some (hint, _) => Some (threes_place pos tile hint, g)
          end
      end
  end.

(** The loop over the shuffled [space]. *)
Fixpoint place_first (space : list Z) (after : threes_board) (g : default_random_engine)
  : option (threes_action * default_random_engine) :=
  match space with
  | [] => Some (threes_none, g)
  | pos :: rest =>
      if board_cell after pos =? 0 then place_at pos after g
      else place_first rest after g
  end.

(** [random_placer::take_action]; [None] where the code reads or writes
    outside an array. *)
Definition placer_take_action (p : random_placer) (after : threes_board)
  : option (threes_action * random_placer) :=
  match space_of p after with
  | None => None
  | Some space =>
      let (space, g) := shuffle space (placer_engine p) in
      match place_first space after g with
      | None => None
      | Some (a, g) => Some (a, mkPlacer (spaces p) g)
      end
  end.

(** The tiles the bag holds in all. *)
Definition bag_size (after : threes_board) : nat :=
  (board_bag after 1 + board_bag after 2 + board_bag after 3)%nat.

(** How many elements [take_action] takes off [bag]: the tile, unless
    the board gives a hint, and the new hint. *)
Definition bag_needed (after : threes_board) : nat :=
  if board_hint after =? 0 then 2%nat else 1%nat.

(** What [take_action] may return on [after] with [space] the cells of
    the last slide: [action()] when no cell of [space] is empty, or a
    placement on an empty cell of [space] of the hint tile, or of a tile
    of the bag when there is no hint, with a new hint from the bag that
    is another tile of the bag than the one placed. *)
Definition placement_or_none (space : list Z) (after : threes_board) (a : threes_action)
  : Prop :=
  match a with
  | threes_none => forall pos, In pos space -> board_cell after pos <> 0
  | threes_slide _ => False
  | threes_place pos tile hint =>
      In pos space /\ board_cell after pos = 0 /\
      1 <= hint <= 3 /\ (1 <= board_bag after hint)%nat /\
      if board_hint after =? 0
      then 1 <= tile <= 3 /\ (1 <= board_bag after tile)%nat /\
           (tile = hint -> (2 <= board_bag after tile)%nat)
      else tile = board_hint after
  end.

(** *** class tuple_agent *)

(** [net] is a [std::vector<weight>], a weight a table of [float]s;
    [prev] and [current] are [board*], [None] for [NULL]. *)
Record tuple_agent : Type := mkTuple {
  net : list (list float);
  alpha : float;
  prev : option threes_board;
  current : option threes_board
}.

(** The state the constructor of [tuple_agent] leaves the pointers in. *)
Definition fresh (a : tuple_agent) : Prop := prev a = None /\ current a = None.

(** [net[t][index]]; [None] outside the vector or the table. *)
Definition weight_at (n : list (list float)) (t : nat) (index : option Z) : option float :=
  match index, nth_error n t with
  | Some i, Some w => if 0 <=? i then nth_error w (Z.to_nat i) else None
  | _, _ => None
  end.

(** [net[t][index] = v]. *)
Definition weight_set (n : list (list float)) (t : nat) (index : option Z) (v : float)
  : option (list (list float)) :=
  match index, nth_error n t with
  | Some i, Some w =>
      if (0 <=? i) && (i <? Z.of_nat (length w))
      then Some (replace_nth t (replace_nth (Z.to_nat i) v w) n)
      else None
  | _, _ => None
  end.

(** The index of column [i]: [index_to_index(b[0][i], b[1][i], b[2][i], b[3][i])]. *)
Definition column_index (b : threes_board) (i : nat) : option Z :=
  index_to_index (tile b 0 (Z.of_nat i)) (tile b 1 (Z.of_nat i))
                 (tile b 2 (Z.of_nat i)) (tile b 3 (Z.of_nat i)).

(** The index of row [i]: [index_to_index(b[i][0], b[i][1], b[i][2], b[i][3])]. *)
Definition row_index (b : threes_board) (i : nat) : option Z :=
  index_to_index (tile b (Z.of_nat i) 0) (tile b (Z.of_nat i) 1)
                 (tile b (Z.of_nat i) 2) (tile b (Z.of_nat i) 3).

(** [for (i = 0; i < 4; i++) acc += net[table i][index b i]]. *)
Fixpoint accumulate (n : list (list float)) (table : nat -> nat)
         (index : nat -> option Z) (idxs : list nat) (acc : float) : option float :=
  match idxs with
  | [] => Some acc
  | i :: rest =>
      match weight_at n (table i) (index i) with
      | Some w => accumulate n table index rest (float_add acc w)
      | None => None
      end
  end.

(** [for (i = 0; i < 4; i++) net[table i][index i] = net[table i][index i] + d]. *)
Fixpoint adjust (n : list (list float)) (table : nat -> nat)
         (index : nat -> option Z) (idxs : list nat) (d : float)
  : option (list (list float)) :=
  match idxs with
  | [] => Some n
  | i :: rest =>
      match weight_at n (table i) (index i) with
      | Some w =>
          match weight_set n (table i) (index i) (float_add w d) with
          | Some n' => adjust n' table index rest d
          | None => None
          end
      | None => None
      end
  end.

(** [for (i = 0; i < 4; i++) { prev_value += net[i][index_p i];
    current_value += net[i][index_c i]; }]. *)
Fixpoint accumulate_both (n : list (list float))
         (index_p index_c : nat -> option Z) (idxs : list nat)
         (prev_value current_value : float) : option (float * float) :=
  match idxs with
  | [] => Some (prev_value, current_value)
  | i :: rest =>
      match weight_at n i (index_p i), weight_at n i (index_c i) with
      | Some wp, Some wc =>
          accumulate_both n index_p index_c rest
                          (float_add prev_value wp) (float_add current_value wc)
      | _, _ => None
      end
  end.

(** [tuple_agent::update]; [None] when it dereferences a null pointer
    or indexes outside a table.  (The two lines written to [std::cout]
    are left out.) *)
Definition tuple_update (a : tuple_agent) : option tuple_agent :=
  match prev a, current a with
  | Some p, Some c =>
      let prev_score := board_value p in
      let current_score := board_value c in
      let four := [0; 1; 2; 3]%nat in
      match accumulate_both (net a) (column_index p) (column_index c) four
                            float_zero float_zero with
      | None => None
      | Some (pv, cv) =>
          match accumulate_both (net a) (row_index p) (row_index c) four pv cv with
          | None => None
          | Some (prev_value, current_value) =>
              let d := float_mul (alpha a)
                         (float_sub (float_add (float_sub current_score prev_score)
                                               current_value)
                                    prev_value) in
              match adjust (net a) (fun i => i) (column_index p) four d with
              | None => None
              | Some n1 =>
                  match adjust n1 (fun i => (i + 4)%nat) (row_index p) four d with
                  | None => None
                  | Some n2 => Some (mkTuple n2 (alpha a) (prev a) (current a))
                  end
              end
          end
      end
  | _, _ => None
  end.

(** [tuple_agent::put_board]. *)
Definition put_board (b : option threes_board) (a : tuple_agent) : option tuple_agent :=
  match prev a with
  | None => Some (mkTuple (net a) (alpha a) b (current a))
  | Some _ => tuple_update (mkTuple (net a) (alpha a) (current a) b)
  end.

(** Successive calls of [put_board]. *)
Fixpoint put_boards (bs : list (option threes_board)) (a : tuple_agent)
  : option tuple_agent :=
  match bs with
  | [] => Some a
  | b :: rest =>
      match put_board b a with
      | Some a' => put_boards rest a'
      | None => None
      end
  end.

(** The value the loop of [take_action] forms for the slide [i]:
    [current_value] summed over the columns in tables [0..3] and over
    the rows in table [i]; [None] on a null [current]. *)
Definition slide_value (a : tuple_agent) (i : nat) : option float :=
  match current a with
  | None => None
  | Some c =>
      match accumulate (net a) (fun j => j) (column_index c) [0; 1; 2; 3]%nat float_zero with
      | Some v => accumulate (net a) (fun _ => i) (row_index c) [0; 1; 2; 3]%nat v
      | None => None
      end
  end.

(** The loop of [tuple_agent::take_action] over the slides [idxs], with
    the best gain and move so far. *)
Fixpoint best_slide (a : tuple_agent) (before : threes_board) (idxs : list nat)
         (max_gain : float) (max_move : Z) : option Z :=
  match idxs with
  | [] => Some max_move
  | i :: rest =>
      match slide_value a i with
      | None => None
      | Some current_value =>
          let reward := slide_reward before (Z.of_nat i) in
          if reward =? -1 then best_slide a before rest max_gain max_move
          else
            let gain := float_add current_value (float_of_int reward) in
            if float_gt gain max_gain
            then best_slide a before rest gain (Z.of_nat i)
            else best_slide a before rest max_gain max_move
      end
  end.

(** [tuple_agent::take_action]. *)
Definition tuple_take_action (a : tuple_agent) (before : threes_board)
  : option threes_action :=
  match best_slide a before [0; 1; 2; 3]%nat float_zero (-1) with
  | None => None
  | Some max_move =>
      Some (if max_move =? -1 then threes_none else threes_slide max_move)
  end.

End Threes.

(** ** A small concrete instance

    A 2x2 board on which a stone may be placed on any empty cell, a
    linear congruential engine, and fixed-point numbers (thousandths)
    for [double].  It is used to run the definitions on concrete inputs. *)

Module Toy.

Definition cells : Type := list bool.

Definition toy_apply (pos : Z) (who : piece_type) (b : cells) : bool * cells :=
  match nth_error b (Z.to_nat pos) with
  | Some false => (true, replace_nth (Z.to_nat pos) true b)
  | _ => (false, b)
  end.

#[global] Instance toy_board : BoardOracle :=
  {| board := cells; size_x := 2; size_y := 2; place_apply := toy_apply |}.

Definition toy_occupied (b : cells) (pos : Z) : bool :=
  match nth_error b (Z.to_nat pos) with
  | Some o => o
  | None => true
  end.

Definition lcg_next (g : Z) : Z := (g * 16807) mod 2147483647.

#[global] Instance toy_engine : RandomEngine :=
  {| default_random_engine := Z;
     engine_default := 1;
     engine_seed := fun s => s;
     uniform_int := fun a b g =>
       let g' := lcg_next g in (a + g' mod (b - a + 1), g') |}.

#[global] Instance toy_double : DoubleOps :=
  {| double := Z;
     double_of_size_t := fun n => n * 1000;
     fdiv := fun a b => a * 1000 / b;
     fadd := Z.add;
     fmul := fun a b => a * b / 1000;
     fsqrt := fun a => Z.sqrt (a * 1000);
     flog := fun a => Z.log2 (a / 1000) * 693;
     flt := Z.ltb;
     d_quarter := 250 |}.

(** Unsigned decimal numerals only. *)
Fixpoint parse_digits (s : String.string) (acc : Z) : option Z :=
  match s with
  | String.EmptyString => Some acc
  | String.String c s' =>
      let d := Z.of_N (Ascii.N_of_ascii c) - 48 in
      if (0 <=? d) && (d <=? 9) then parse_digits s' (10 * acc + d) else None
  end.

Definition parse_numeral (s : String.string) : option Z :=
  match s with
  | String.EmptyString => None
  | _ => parse_digits s 0
  end.

#[global] Instance toy_parsing : NumericParsing :=
  {| stoi := parse_numeral;
     stod := fun s => option_map (fun z => z * 1000) (parse_numeral s);
     int_of_double := fun d => d / 1000 |}.

Definition empty_board : cells := [false; false; false; false].
Definition full_board : cells := [true; true; true; true].

Definition one_left : cells := [true; true; true; false].

Definition toy_player (cycles : Z) (exp : Z) : MCTS_player :=
  mkPlayer 1 cycles exp 42.

(** The root [take_action] builds for [toy_player] on a board. *)
Definition toy_root (state : cells) : Node := Node_new 42 state 0 4.

(** The tree and the engine after the first iteration on [one_left]. *)
Definition after_first : Node * Z :=
  Eval vm_compute in
    match iteration 8 one_left (toy_root one_left) 42 with
    | Some r => r
    | None => (toy_root one_left, 0)
    end.

(** The search of [toy_player 0 250] on the empty board, in the source
    and with one shared random stream. *)
Definition first_search : nat * Node * Z :=
  Eval vm_compute in
    match search 1 8 (toy_player 0 250) (fun _ => true) empty_board with
    | Some r => r
    | None => (0%nat, toy_root empty_board, 0)
    end.

Definition first_search_shared : nat * Node * Z :=
  Eval vm_compute in
    match search_shared 1 8 (toy_player 0 250) (fun _ => true) empty_board with
    | Some r => r
    | None => (0%nat, toy_root empty_board, 0)
    end.

(** The player built from [role=black exp=2 T=3] and its search on the
    empty board. *)
Definition configured_player : MCTS_player := mkPlayer 1 3 2000 1.

Definition configured_search : nat * Node * Z :=
  Eval vm_compute in
    match search 8 8 configured_player (fun _ => true) empty_board with
    | Some r => r
    | None => (0%nat, toy_root empty_board, 0)
    end.

(** A node with two visited children. *)
Definition two_children : Node :=
  mkNode 42
         [mkNode 42 [] [] 1 0 250 2 1 0 0 None;
          mkNode 42 [] [] 1 1 250 3 2 0 0 None]
         [] 0 4 250 5 2 0 0 None.

End Toy.

(** ** Doubles with the special values

    The fixed-point numbers of the instance above with the infinities
    and the NaN of IEEE 754 and its rules for them: [0/0], [inf/inf],
    [inf - inf], [0 * inf] and the square root and the logarithm of a
    negative number are NaN; [x/0] is an infinity for [x] other than
    zero and [log 0] is the negative infinity; an operation on a NaN
    gives a NaN, and [<] with a NaN is false. *)

Module Ieee.

Inductive xdouble : Type :=
| Num : Z -> xdouble
| PInf : xdouble
| NInf : xdouble
| NaN : xdouble.

Definition xdiv (a b : xdouble) : xdouble :=
  match a, b with
  | NaN, _ => NaN
  | _, NaN => NaN
  | Num x, Num y =>
      if y =? 0 then (if x =? 0 then NaN else if 0 <? x then PInf else NInf)
      else Num (x * 1000 / y)
  | Num _, _ => Num 0
  | PInf, Num y => if 0 <=? y then PInf else NInf
  | NInf, Num y => if 0 <=? y then NInf else PInf
  | _, _ => NaN
  end.

Definition xadd (a b : xdouble) : xdouble :=
  match a, b with
  | NaN, _ => NaN
  | _, NaN => NaN
  | Num x, Num y => Num (x + y)
  | PInf, NInf => NaN
  | NInf, PInf => NaN
  | PInf, _ => PInf
  | _, PInf => PInf
  | NInf, _ => NInf
  | _, NInf => NInf
  end.

Definition xmul (a b : xdouble) : xdouble :=
  match a, b with
  | NaN, _ => NaN
  | _, NaN => NaN
  | Num x, Num y => Num (x * y / 1000)
  | Num x, PInf => if x =? 0 then NaN else if 0 <? x then PInf else NInf
  | PInf, Num x => if x =? 0 then NaN else if 0 <? x then PInf else NInf
  | Num x, NInf => if x =? 0 then NaN else if 0 <? x then NInf else PInf
  | NInf, Num x => if x =? 0 then NaN else if 0 <? x then NInf else PInf
  | PInf, PInf => PInf
  | NInf, NInf => PInf
  | PInf, NInf => NInf
  | NInf, PInf => NInf
  end.

Definition xsqrt (a : xdouble) : xdouble :=
  match a with
  | Num x => if x <? 0 then NaN else Num (Z.sqrt (x * 1000))
  | PInf => PInf
  | NInf => NaN
  | NaN => NaN
  end.

Definition xlog (a : xdouble) : xdouble :=
  match a with
  | Num x =>
      if x <? 0 then NaN else if x =? 0 then NInf
      else Num (Z.log2 (x / 1000) * 693)
  | PInf => PInf
  | NInf => NaN
  | NaN => NaN
  end.

Definition xlt (a b : xdouble) : bool :=
  match a, b with
  | NaN, _ => false
  | _, NaN => false
  | Num x, Num y => x <? y
  | NInf, NInf => false
  | NInf, _ => true
  | PInf, _ => false
  | Num _, PInf => true
  | Num _, NInf => false
  end.

Definition ieee_double : DoubleOps :=
  {| double := xdouble;
     double_of_size_t := fun n => Num (n * 1000);
     fdiv := xdiv;
     fadd := xadd;
     fmul := xmul;
     fsqrt := xsqrt;
     flog := xlog;
     flt := xlt;
     d_quarter := Num 250 |}.

(** A node built with the operations of [Node]: two children added to a
    new node, [update(true)] on the second child only, and
    [update(false)] on the node.  The first child has no visit. *)
Definition unvisited_first : @Node Toy.toy_engine ieee_double :=
  Eval vm_compute in
    let n := @Node_new Toy.toy_board Toy.toy_engine ieee_double
                       42 Toy.empty_board 0 4 in
    let n := fst (@add_child Toy.toy_board Toy.toy_engine ieee_double
                             42 Toy.empty_board 1 0 n) in
    let n := fst (@add_child Toy.toy_board Toy.toy_engine ieee_double
                             42 Toy.empty_board 1 1 n) in
    update false (modify_down (update true) [1%nat] n).

End Ieee.

(** ** Concrete instances for the other agents

    [std::shuffle] as a rotation by a drawn amount, integers for
    [float], and a Threes board given by its rows on which every slide
    but slide 0 is legal. *)

Module ToyAgents.

Definition rotate (A : Type) (l : list A) (g : Z) : list A * Z :=
  match l with
  | [] => (l, g)
  | _ :: _ =>
      let (k, g') := uniform_int 0 (Z.of_nat (length l) - 1) g in
      (skipn (Z.to_nat k) l ++ firstn (Z.to_nat k) l, g')
  end.

#[global] Instance toy_shuffler : Shuffler := {| shuffle := rotate |}.

#[global] Instance toy_float : FloatOps :=
  {| float := Z;
     float_zero := 0;
     float_of_int := fun z => z;
     float_add := Z.add;
     float_sub := Z.sub;
     float_mul := Z.mul;
     float_gt := Z.gtb |}.

#[global] Instance toy_threes : ThreesBoard Z :=
  {| threes_board := list (list Z);
     slide_reward := fun b op => if op =? 0 then -1 else op;
     tile := fun b r c => nth (Z.to_nat c) (nth (Z.to_nat r) b []) 0;
     board_value := fun b => 0;
     board_last := fun b => 4;
     board_cell := fun b pos => nth (Z.to_nat (pos mod 4)) (nth (Z.to_nat (pos / 4)) b []) 0;
     board_bag := fun b t => 1%nat;
     board_hint := fun b => 0 |}.

Local Open Scope string_scope.

(** The random player built from [role=black]. *)
Definition random_black : player :=
  Eval vm_compute in
    match player_new "role=black" with
    | returned p => p
    | failed => mkRandomPlayer [] empty 0
    end.

(** The slider built from no arguments. *)
Definition slider : random_slider :=
  Eval vm_compute in
    match random_slider_new "" with
    | returned s => s
    | failed => mkSlider [] 0
    end.

(** The placer built from no arguments. *)
Definition placer : random_placer :=
  Eval vm_compute in
    match random_placer_new "" with
    | returned p => p
    | failed => mkPlacer [] 0
    end.

Local Close Scope string_scope.

(** A [tuple_agent] as its constructor leaves the pointers, with one
    table of two weights. *)
Definition new_tuple_agent : tuple_agent := mkTuple [[0; 0]] 1 None None.

Definition some_board : list (list Z) :=
  [[1; 2; 3; 0]; [0; 0; 0; 0]; [0; 0; 0; 0]; [0; 0; 0; 0]].

End ToyAgents.

Unset Implicit Arguments.

(** ** Vectors *)

Section VectorFacts.
Variable A : Type.

Lemma replace_nth_length (i : nat) (x : A) (l : list A) :
  length (replace_nth i x l) = length l.
Proof.
  revert i; induction l as [|y l IH]; intros [|i]; simpl; auto.
Qed.

Lemma nth_error_replace_nth_eq (i : nat) (x : A) (l : list A) :
  (i < length l)%nat -> nth_error (replace_nth i x l) i = Some x.
Proof.
  revert i; induction l as [|y l IH]; intros [|i] H; simpl in *;
    try lia; auto.
  apply IH; lia.
Qed.

Lemma nth_error_replace_nth_neq (i j : nat) (x : A) (l : list A) :
  i <> j -> nth_error (replace_nth i x l) j = nth_error l j.
Proof.
  revert i j; induction l as [|y l IH]; intros [|i] [|j] H; simpl;
    try congruence; auto.
Qed.

Lemma replace_nth_same (i : nat) (x : A) (l : list A) :
  nth_error l i = Some x -> replace_nth i x l = l.
Proof.
  revert i; induction l as [|y l IH]; intros [|i] H; simpl in *;
    try congruence.
  f_equal; auto.
Qed.

Lemma erase_nth_In (i : nat) (x : A) (l : list A) :
  In x (erase_nth i l) -> In x l.
Proof.
  revert i; induction l as [|y l IH]; intros [|i]; simpl; auto.
  intros [H|H]; eauto.
Qed.

Lemma erase_nth_length (i : nat) (l : list A) :
  (i < length l)%nat -> S (length (erase_nth i l)) = length l.
Proof.
  revert i; induction l as [|y l IH]; intros [|i] H; simpl in *;
    try lia.
  rewrite IH; lia.
Qed.

Lemma erase_nth_NoDup (i : nat) (x : A) (l : list A) :
  NoDup l -> nth_error l i = Some x ->
  NoDup (erase_nth i l) /\ ~ In x (erase_nth i l).
Proof.
  revert i; induction l as [|y l IH]; intros [|i] Hnd H; simpl in *;
    try congruence.
  - inversion Hnd; subst. inversion H; subst. auto.
  - inversion Hnd as [|? ? Hy Hl]; subst.
    destruct (IH _ Hl H) as [H1 H2]. split.
    + constructor; auto. intro Hin. apply Hy. eapply erase_nth_In; eauto.
    + intros [Heq|Hin]; auto. subst y. apply Hy.
      eapply nth_error_In; eauto.
Qed.

(** *** [std::max_element] *)

Variable comp : A -> A -> bool.

Lemma max_element_from_spec (l pre : list A) (largest : A) (largest_i : nat) :
  strict_weak_order_on comp (pre ++ l) ->
  nth_error pre largest_i = Some largest ->
  (forall y, In y pre -> comp largest y = false) ->
  (forall j y, (j < largest_i)%nat -> nth_error pre j = Some y ->
               comp y largest = true) ->
  let r := max_element_from comp largest_i largest (length pre) l in
  exists x, nth_error (pre ++ l) r = Some x /\
            (forall y, In y (pre ++ l) -> comp x y = false) /\
            (forall j y, (j < r)%nat -> nth_error (pre ++ l) j = Some y ->
                         comp y x = true).
Proof.
  revert pre largest largest_i.
  induction l as [|x l IH]; intros pre largest largest_i Hswo Hnth Hmax Hfirst; simpl.
  - rewrite app_nil_r. exists largest. repeat split; auto.
  - assert (Hin_l : In largest (pre ++ x :: l)).
    { apply in_or_app. left. eapply nth_error_In; eauto. }
    assert (Hin_x : In x (pre ++ x :: l)).
    { apply in_or_app. right. left. reflexivity. }
    assert (Hpre : forall y, In y pre -> In y (pre ++ x :: l)).
    { intros y Hy. apply in_or_app. auto. }
    destruct Hswo as (Hirr & Htrans & Hneg).
    assert (Hlen : length (pre ++ [x]) = S (length pre)).
    { rewrite length_app. simpl. lia. }
    assert (Heq : pre ++ x :: l = (pre ++ [x]) ++ l).
    { rewrite <- app_assoc. reflexivity. }
    destruct (comp largest x) eqn:Hc.
    + specialize (IH (pre ++ [x]) x (length pre)).
      rewrite Hlen, <- Heq in IH. apply IH.
      * repeat split; auto.
      * rewrite nth_error_app2 by lia. rewrite Nat.sub_diag. reflexivity.
      * intros y Hy. apply in_app_or in Hy. destruct Hy as [Hy|[Hy|[]]].
        -- destruct (comp x y) eqn:Hxy; auto.
           assert (Hly : comp largest y = true) by (apply (Htrans largest x y); auto).
           rewrite (Hmax y Hy) in Hly. discriminate.
        -- subst y. auto.
      * intros j y Hj Hy. rewrite nth_error_app1 in Hy by lia.
        assert (Hyin : In y pre) by (eapply nth_error_In; eauto).
        destruct (Hneg largest x y) as [H1|H1]; auto.
        rewrite Hmax in H1; auto. discriminate.
    + specialize (IH (pre ++ [x]) largest largest_i).
      rewrite Hlen, <- Heq in IH. apply IH.
      * repeat split; auto.
      * rewrite nth_error_app1; auto. apply nth_error_Some. congruence.
      * intros y Hy. apply in_app_or in Hy. destruct Hy as [Hy|[Hy|[]]]; auto.
        subst y. auto.
      * intros j y Hj Hy. apply (Hfirst j); auto.
        rewrite nth_error_app1 in Hy; auto.
        assert (largest_i < length pre)%nat by (apply nth_error_Some; congruence).
        lia.
Qed.

(** [max_element] returns the first element no other exceeds. *)
Lemma max_element_spec (l : list A) :
  l <> [] -> strict_weak_order_on comp l ->
  exists i x, max_element comp l = Some i /\ nth_error l i = Some x /\
              (forall y, In y l -> comp x y = false) /\
              (forall j y, (j < i)%nat -> nth_error l j = Some y ->
                           comp y x = true).
Proof.
  destruct l as [|x l]; [congruence|]. intros _ Hswo. simpl.
  destruct (max_element_from_spec l [x] x 0%nat) as (y & H1 & H2 & H3); auto.
  - intros y [Hy|[]]. subst y. destruct Hswo as (Hirr & _). apply Hirr. left; auto.
  - intros j y Hj. lia.
  - exists (max_element_from comp 0 x 1 l), y. auto.
Qed.

Lemma max_element_from_lt (l : list A) (largest : A) (largest_i i : nat) :
  (largest_i < i)%nat ->
  (max_element_from comp largest_i largest i l < i + length l)%nat.
Proof.
  revert largest largest_i i. induction l as [|x l IH]; intros; simpl.
  - lia.
  - destruct (comp largest x).
    + specialize (IH x i (S i)). lia.
    + specialize (IH largest largest_i (S i)). lia.
Qed.

Lemma max_element_Some (l : list A) :
  l <> [] -> exists i, max_element comp l = Some i /\ (i < length l)%nat.
Proof.
  destruct l as [|x l]; [congruence|]. intros _. simpl.
  eexists. split; [reflexivity|].
  pose proof (max_element_from_lt l x 0%nat 1%nat). lia.
Qed.

End VectorFacts.

(** ** [Node::get_UCT_child] *)

Section UCT.
Context {BO : BoardOracle} {RE : RandomEngine} {DO : DoubleOps}.

Lemma get_UCT_child_idempotent (n : Node) :
  get_UCT_child (fst (get_UCT_child n)) = get_UCT_child n.
Proof.
  unfold get_UCT_child; simpl.
  rewrite map_map.
  assert (Hmap :
    map (fun x => set_uct_score
                    (uct_score (set_children
                                  (map (fun child => set_uct_score (uct_score n child) child)
                                       (children_ n)) n)
                               (set_uct_score (uct_score n x) x))
                    (set_uct_score (uct_score n x) x)) (children_ n)
    = map (fun child => set_uct_score (uct_score n child) child) (children_ n)).
  { apply map_ext. intros c. reflexivity. }
  rewrite Hmap. reflexivity.
Qed.

Lemma scored_children_order (n : Node) :
  strict_weak_order_on flt (map (uct_score n) (children_ n)) ->
  strict_weak_order_on uct_less
    (map (fun child => set_uct_score (uct_score n child) child) (children_ n)).
Proof.
  intros (Hirr & Htrans & Hneg).
  assert (Hin : forall a,
             In a (map (fun child => set_uct_score (uct_score n child) child)
                       (children_ n)) ->
             exists c, a = set_uct_score (uct_score n c) c /\
                       In (uct_score n c) (map (uct_score n) (children_ n))).
  { intros a Ha. apply in_map_iff in Ha. destruct Ha as (c & <- & Hc).
    exists c. split; auto. apply in_map. auto. }
  repeat split.
  - intros a Ha. destruct (Hin a Ha) as (c & -> & Hc).
    unfold uct_less; simpl. auto.
  - intros a b c Ha Hb Hc.
    destruct (Hin a Ha) as (ca & -> & Hca).
    destruct (Hin b Hb) as (cb & -> & Hcb).
    destruct (Hin c Hc) as (cc & -> & Hcc).
    unfold uct_less; simpl. eauto.
  - intros a b c Ha Hb Hc.
    destruct (Hin a Ha) as (ca & -> & Hca).
    destruct (Hin b Hb) as (cb & -> & Hcb).
    destruct (Hin c Hc) as (cc & -> & Hcc).
    unfold uct_less; simpl. eauto.
Qed.

(** C3. On a node with at least one child whose scores are numbers
    (none is a NaN) that [<] orders, [get_UCT_child] writes into every
    child the score
    [wins/visits + sqrt(log(parent visits)/visits) * exploration_constant]
    and returns the child whose score, a number, no other child
    exceeds, and among those the first in child order.  The call is
    not free of effects: the scores it writes are its effect, and the
    only one, the node and its children keeping everything else; a
    repeated call returns the same child and leaves the node as the
    first call left it. *)
Theorem get_UCT_child_first_maximal (n : Node) :
  children_ n <> [] ->
  strict_weak_order_on flt (map (uct_score n) (children_ n)) ->
  (forall c, In c (children_ n) -> ~ is_nan (uct_score n c)) ->
  exists i c,
    snd (get_UCT_child n) = Some i /\
    nth_error (children_ n) i = Some c /\
    ~ is_nan (uct_score n c) /\
    (forall k c',
        nth_error (children_ n) k = Some c' ->
        uct_score n c'
        = fadd (fdiv (double_of_size_t (wins_ c')) (double_of_size_t (visits_ c')))
               (fmul (fsqrt (fdiv (flog (double_of_size_t (visits_ n)))
                                  (double_of_size_t (visits_ c'))))
                     (node_exploration_constant n)) /\
        nth_error (children_ (fst (get_UCT_child n))) k
        = Some (set_uct_score (uct_score n c') c')) /\
    (forall c', In c' (children_ n) ->
                flt (uct_score n c) (uct_score n c') = false) /\
    (forall j c', (j < i)%nat -> nth_error (children_ n) j = Some c' ->
                  flt (uct_score n c') (uct_score n c) = true) /\
    statistics (fst (get_UCT_child n)) = statistics n /\
    uct_score_ (fst (get_UCT_child n)) = uct_score_ n /\
    map statistics (children_ (fst (get_UCT_child n)))
      = map statistics (children_ n) /\
    map children_ (children_ (fst (get_UCT_child n)))
      = map children_ (children_ n) /\
    get_UCT_child (fst (get_UCT_child n)) = get_UCT_child n.
Proof.
  intros Hne Hswo Hnum.
  pose proof (scored_children_order n Hswo) as Hswo'.
  set (g := fun child => set_uct_score (uct_score n child) child) in *.
  assert (Hne' : map g (children_ n) <> []).
  { destruct (children_ n); simpl; congruence. }
  destruct (max_element_spec _ _ _ Hne' Hswo') as (i & x & Hmax & Hnth & Hle & Hfirst).
  rewrite nth_error_map in Hnth.
  destruct (nth_error (children_ n) i) as [c|] eqn:Hc; simpl in Hnth; [|discriminate].
  inversion Hnth; subst x; clear Hnth.
  exists i, c. unfold get_UCT_child; simpl. fold g.
  split; [exact Hmax|]. split; [exact Hc|].
  split; [apply Hnum; apply (nth_error_In _ _ Hc)|].
  split.
  { intros k c' Hk. split; [reflexivity|].
    rewrite nth_error_map, Hk. reflexivity. }
  split.
  { intros c' Hc'. specialize (Hle (g c') (in_map g _ _ Hc')).
    unfold uct_less, g in Hle; simpl in Hle. exact Hle. }
  split.
  { intros j c' Hj Hc'. specialize (Hfirst j (g c') Hj).
    rewrite nth_error_map, Hc' in Hfirst. specialize (Hfirst eq_refl).
    unfold uct_less, g in Hfirst; simpl in Hfirst. exact Hfirst. }
  split; [reflexivity|]. split; [reflexivity|].
  split; [rewrite map_map; apply map_ext; intros a; reflexivity|].
  split; [rewrite map_map; apply map_ext; intros a; reflexivity|].
  apply get_UCT_child_idempotent.
Qed.

End UCT.

(** ** The playout *)

Section Playout.
Context {BO : BoardOracle} {RE : RandomEngine} {DO : DoubleOps}.

Lemma filter_length_le (A : Type) (f : A -> bool) (l : list A) :
  (length (filter f l) <= length l)%nat.
Proof.
  induction l as [|x l IH]; simpl; auto.
  destruct (f x); simpl; lia.
Qed.

Lemma filter_length_mono (A : Type) (f f' : A -> bool) (l : list A) :
  (forall x, In x l -> f' x = true -> f x = true) ->
  (length (filter f' l) <= length (filter f l))%nat.
Proof.
  induction l as [|x l IH]; intros H; simpl; auto.
  assert (IH' : (length (filter f' l) <= length (filter f l))%nat).
  { apply IH. intros y Hy. apply H. right; auto. }
  destruct (f' x) eqn:E'.
  - rewrite (H x (or_introl eq_refl) E'). simpl. lia.
  - destruct (f x); simpl; lia.
Qed.

Lemma filter_length_lt (A : Type) (f f' : A -> bool) (l : list A) (x0 : A) :
  (forall x, In x l -> f' x = true -> f x = true) ->
  In x0 l -> f x0 = true -> f' x0 = false ->
  (length (filter f' l) < length (filter f l))%nat.
Proof.
  induction l as [|x l IH]; intros H Hin Hf Hf'; simpl in *; [tauto|].
  assert (Hmono : (length (filter f' l) <= length (filter f l))%nat).
  { apply filter_length_mono. intros y Hy. apply H. right; auto. }
  destruct Hin as [->|Hin].
  - rewrite Hf, Hf'. simpl. lia.
  - assert (IH' : (length (filter f' l) < length (filter f l))%nat).
    { apply IH; auto. }
    destruct (f' x) eqn:E'.
    + rewrite (H x (or_introl eq_refl) E'). simpl. lia.
    + destruct (f x); simpl; lia.
Qed.

Lemma legal_moves_length (b : board) (bw : Z) :
  (length (legal_moves b bw) <= space)%nat.
Proof.
  unfold legal_moves.
  etransitivity; [apply filter_length_le|].
  rewrite length_map, length_seq. lia.
Qed.

Lemma legal_moves_In (b : board) (bw pos : Z) :
  In pos (legal_moves b bw) ->
  fst (place_apply pos (color bw) b) = true /\
  In pos (map Z.of_nat (seq 0 space)).
Proof.
  unfold legal_moves. intros H. apply filter_In in H. tauto.
Qed.

Lemma legal_moves_NoDup (b : board) (bw : Z) : NoDup (legal_moves b bw).
Proof.
  unfold legal_moves. apply NoDup_filter.
  apply Injective_map_NoDup; [|apply seq_NoDup].
  intros x y H. lia.
Qed.

(** A drawn index selects a move. *)
Lemma draw_in_range (moves : list Z) (g : default_random_engine) :
  uniform_int_in_range -> board_fits_size_t ->
  moves <> [] -> (length moves <= space)%nat ->
  exists pos,
    nth_error moves
      (Z.to_nat (fst (uniform_int 0 (size_t_wrap (Z.of_nat (length moves) - 1)) g)))
    = Some pos.
Proof.
  intros Hu Hfit Hne Hlen.
  assert (Hpos : (0 < length moves)%nat).
  { destruct moves; simpl; [congruence|lia]. }
  unfold board_fits_size_t in Hfit.
  assert (Hw : size_t_wrap (Z.of_nat (length moves) - 1) = Z.of_nat (length moves) - 1).
  { unfold size_t_wrap. apply Z.mod_small. lia. }
  rewrite Hw.
  specialize (Hu 0 (Z.of_nat (length moves) - 1) g).
  destruct (nth_error moves
              (Z.to_nat (fst (uniform_int 0 (Z.of_nat (length moves) - 1) g)))) eqn:E.
  - eauto.
  - apply nth_error_None in E. lia.
Qed.

Section Termination.
Variable occupied : board -> Z -> bool.
Hypothesis Hboard : permanent_occupation occupied.
Hypothesis Hdraw : uniform_int_in_range.
Hypothesis Hfit : board_fits_size_t.

Lemma free_cells_le (b : board) : (free_cells occupied b <= space)%nat.
Proof.
  unfold free_cells. etransitivity; [apply filter_length_le|].
  rewrite length_map, length_seq. lia.
Qed.

Lemma legal_move_takes_a_cell (b : board) (bw pos : Z) :
  In pos (legal_moves b bw) ->
  (free_cells occupied (snd (place_apply pos (color bw) b)) < free_cells occupied b)%nat.
Proof.
  intros Hin. apply legal_moves_In in Hin. destruct Hin as [Hlegal Hpos].
  unfold free_cells. apply filter_length_lt with (x0 := pos); auto.
  - intros x _ Hx. apply negb_true_iff in Hx. apply negb_true_iff.
    destruct (occupied b x) eqn:E; auto.
    rewrite (occupied_stays Hboard _ _ _ _ Hlegal E) in Hx. discriminate.
  - rewrite (legal_on_empty Hboard _ _ _ Hlegal). reflexivity.
  - rewrite (legal_occupies Hboard _ _ _ Hlegal). reflexivity.
Qed.

Lemma rollout_total (fuel : nat) :
  forall b bw g plies,
    (free_cells occupied b < fuel)%nat ->
    exists bw' b' g' plies',
      rollout fuel b bw g plies = Some (bw', b', g', plies') /\
      (plies' <= plies + free_cells occupied b)%nat /\
      legal_moves b' bw' = [].
Proof.
  induction fuel as [|fuel IH]; intros b bw g plies Hfuel; [lia|].
  simpl. destruct (legal_moves b bw) as [|m ms] eqn:Hmoves.
  - exists bw, b, g, plies. repeat split; auto. lia.
  - destruct (draw_in_range (m :: ms) g) as (pos & Hpos); auto.
    { congruence. }
    { rewrite <- Hmoves. apply legal_moves_length. }
    destruct (uniform_int 0 (size_t_wrap (Z.of_nat (length (m :: ms)) - 1)) g)
      as [k g1] eqn:Hk.
    simpl fst in Hpos. rewrite Hpos.
    assert (Hin : In pos (legal_moves b bw)).
    { rewrite Hmoves. eapply nth_error_In; eauto. }
    pose proof (legal_move_takes_a_cell _ _ _ Hin) as Hlt.
    destruct (IH (snd (place_apply pos (color bw) b)) (size_t_wrap (1 - bw)) g1 (S plies))
      as (bw' & b' & g' & plies' & Hr & Hp & Hend); [lia|].
    exists bw', b', g', plies'. repeat split; auto. lia.
Qed.

(** C7. Under the board and random source contracts, a playout started
    from any board, with any colour to move and any engine state, ends
    after at most [size_x * size_y] moves, with the player to move left
    without a legal move. *)
Theorem rollout_terminates_within_cells (b : board) (bw : Z)
        (g : default_random_engine) (fuel : nat) :
  (space < fuel)%nat ->
  exists bw' b' g' plies,
    rollout fuel b bw g 0 = Some (bw', b', g', plies) /\
    (plies <= space)%nat /\
    legal_moves b' bw' = [].
Proof.
  intros Hfuel.
  pose proof (free_cells_le b) as Hle.
  destruct (rollout_total fuel b bw g 0%nat) as (bw' & b' & g' & plies & H1 & H2 & H3);
    [lia|].
  exists bw', b', g', plies. repeat split; auto. lia.
Qed.

End Termination.
End Playout.

(** ** The tree as a store *)

Section Store.
Context {BO : BoardOracle} {RE : RandomEngine} {DO : DoubleOps}.

Lemma is_prefix_spec (p q : list nat) :
  is_prefix p q = true <-> exists q', q = p ++ q'.
Proof.
  revert q; induction p as [|i p IH]; intros q; simpl.
  - split; eauto.
  - destruct q as [|j q].
    + split; [discriminate|]. intros (q' & H). discriminate.
    + rewrite andb_true_iff, Nat.eqb_eq, IH. split.
      * intros (-> & q' & ->). eauto.
      * intros (q' & H). inversion H; subst. eauto.
Qed.

Lemma is_prefix_refl (p : list nat) : is_prefix p p = true.
Proof. apply is_prefix_spec. exists []. rewrite app_nil_r. reflexivity. Qed.

Lemma is_prefix_app (p q : list nat) : is_prefix p (p ++ q) = true.
Proof. apply is_prefix_spec. eauto. Qed.

Lemma statistics_core (x y : Node) : core x = core y -> statistics x = statistics y.
Proof.
  intros H. change (statistics (core x) = statistics (core y)). rewrite H. reflexivity.
Qed.

Lemma get_down_app (n : Node) (p q : list nat) :
  get_down n (p ++ q) =
  match get_down n p with
  | Some m => get_down m q
  | None => None
  end.
Proof.
  revert n; induction p as [|i p IH]; intros n; simpl; auto.
  destruct (nth_error (children_ n) i); auto.
Qed.

Lemma get_down_prefix (n : Node) (p q : list nat) :
  get_down n (p ++ q) <> None -> get_down n p <> None.
Proof.
  rewrite get_down_app. destruct (get_down n p); congruence.
Qed.

(** Below the rewritten node the tree is what [f] made of it. *)
Lemma get_down_modify_below (f : Node -> Node) (p q : list nat) (n m : Node) :
  get_down n p = Some m ->
  get_down (modify_down f p n) (p ++ q) = get_down (f m) q.
Proof.
  revert n; induction p as [|i p IH]; intros n H; simpl in *.
  - inversion H; subst. reflexivity.
  - destruct (nth_error (children_ n) i) as [c|] eqn:Hc; [|discriminate].
    simpl. rewrite nth_error_replace_nth_eq.
    + apply IH. exact H.
    + apply nth_error_Some. congruence.
Qed.

(** Elsewhere every node keeps its own fields. *)
Lemma get_down_modify_other (f : Node -> Node) (p q : list nat) (n m : Node) :
  get_down n p = Some m ->
  is_prefix p q = false ->
  option_map core (get_down (modify_down f p n) q) = option_map core (get_down n q).
Proof.
  revert n q; induction p as [|i p IH]; intros n q H Hpre; simpl in *.
  - discriminate.
  - destruct (nth_error (children_ n) i) as [c|] eqn:Hc; [|discriminate].
    destruct q as [|j q]; simpl.
    + reflexivity.
    + destruct (Nat.eqb i j) eqn:Hij; simpl in Hpre.
      * apply Nat.eqb_eq in Hij. subst j.
        rewrite nth_error_replace_nth_eq by (apply nth_error_Some; congruence).
        rewrite Hc. apply IH; auto.
      * apply Nat.eqb_neq in Hij.
        rewrite nth_error_replace_nth_neq by auto. reflexivity.
Qed.

Lemma view_modify_other (f : Node -> Node) (p q : list nat) (n m : Node) :
  get_down n p = Some m ->
  is_prefix p q = false ->
  view (modify_down f p n) q = view n q.
Proof.
  intros H Hpre. pose proof (get_down_modify_other f p q n m H Hpre) as E.
  unfold view.
  destruct (get_down (modify_down f p n) q) as [x|];
    destruct (get_down n q) as [y|]; simpl in *; try congruence.
  f_equal. apply statistics_core. congruence.
Qed.

Lemma view_modify_below (f : Node -> Node) (p q : list nat) (n m : Node) :
  get_down n p = Some m ->
  view (modify_down f p n) (p ++ q) = view (f m) q.
Proof.
  intros H. unfold view. rewrite (get_down_modify_below f p q n m H). reflexivity.
Qed.

Lemma view_app (n m : Node) (p q : list nat) :
  get_down n p = Some m -> view n (p ++ q) = view m q.
Proof.
  intros H. unfold view. rewrite get_down_app, H. reflexivity.
Qed.

Lemma modify_down_ext_at (f g : Node -> Node) (p : list nat) (n m : Node) :
  get_down n p = Some m -> f m = g m ->
  modify_down f p n = modify_down g p n.
Proof.
  revert n; induction p as [|i p IH]; intros n H E; simpl in *.
  - inversion H; subst. auto.
  - destruct (nth_error (children_ n) i) as [c|] eqn:Hc; [|discriminate].
    rewrite (IH c H E). reflexivity.
Qed.

(** A rewrite that keeps a node's own fields and the views below it
    keeps every view of the tree. *)
Lemma view_modify_same (f : Node -> Node) (p : list nat) (n m : Node) :
  get_down n p = Some m ->
  (forall q, view (f m) q = view m q) ->
  forall q, view (modify_down f p n) q = view n q.
Proof.
  intros H Hf q. destruct (is_prefix p q) eqn:Hpre.
  - apply is_prefix_spec in Hpre. destruct Hpre as (q' & ->).
    rewrite (view_modify_below f p q' n m H), (view_app n m p q' H). apply Hf.
  - eapply view_modify_other; eauto.
Qed.

End Store.

(** ** The four phases of an iteration, by their effect on the views *)

Section Phases.
Context {BO : BoardOracle} {RE : RandomEngine} {DO : DoubleOps}.

Lemma view_node (root : Node) (q : list nat) (x : Node) :
  get_down root q = Some x -> view root q = Some (statistics x).
Proof. intros H. unfold view. rewrite H. reflexivity. Qed.

Lemma view_prefix (root : Node) (p r : list nat) :
  view root (p ++ r) <> None -> view root p <> None.
Proof.
  unfold view. rewrite get_down_app.
  destruct (get_down root p); simpl; congruence.
Qed.

Lemma deref_root (root : Node) : deref root [] = Some root.
Proof. reflexivity. Qed.

Lemma deref_cons (root : Node) (i : nat) (node : ptr) :
  deref root (i :: node) =
  match deref root node with
  | Some n => nth_error (children_ n) i
  | None => None
  end.
Proof.
  unfold deref. simpl. rewrite get_down_app.
  destruct (get_down root (rev node)) as [n|]; auto.
  simpl. destruct (nth_error (children_ n) i); auto.
Qed.

Lemma modify_down_invalid (f : Node -> Node) (p : list nat) (n : Node) :
  get_down n p = None -> modify_down f p n = n.
Proof.
  revert n; induction p as [|i p IH]; intros n H; simpl in *; [discriminate|].
  destruct (nth_error (children_ n) i) as [c|] eqn:Hc; auto.
  rewrite (IH c H), (replace_nth_same _ _ _ _ Hc). destruct n; reflexivity.
Qed.

(** *** Selection *)

Lemma view_get_UCT_child (n : Node) (q : list nat) :
  view (fst (get_UCT_child n)) q = view n q.
Proof.
  unfold view, get_UCT_child. simpl fst.
  destruct q as [|j q]; simpl; [reflexivity|].
  rewrite nth_error_map.
  destruct (nth_error (children_ n) j) as [c|]; simpl; [|reflexivity].
  destruct q as [|k q]; reflexivity.
Qed.

Lemma get_UCT_child_index (n : Node) :
  has_children n = true ->
  exists i c, snd (get_UCT_child n) = Some i /\
              nth_error (children_ (fst (get_UCT_child n))) i = Some c.
Proof.
  intros H. unfold get_UCT_child. simpl.
  assert (Hne : map (fun child => set_uct_score (uct_score n child) child)
                    (children_ n) <> []).
  { unfold has_children in H. destruct (children_ n); simpl; congruence. }
  destruct (max_element_Some _ uct_less _ Hne) as (i & Hi & Hlt).
  exists i.
  destruct (nth_error (map (fun child => set_uct_score (uct_score n child) child)
                           (children_ n)) i) as [c|] eqn:E.
  - exists c. auto.
  - apply nth_error_None in E. lia.
Qed.

Lemma selection_body_spec (root : Node) (node : ptr) (b : board) (n : Node) :
  deref root node = Some n ->
  has_children n = true ->
  exists root' i b',
    selection_body root node b = Some (root', i :: node, b') /\
    (forall q, view root' q = view root q) /\
    deref root' (i :: node) <> None.
Proof.
  intros Hn Hc. unfold selection_body. rewrite Hn.
  destruct (get_UCT_child_index n Hc) as (i & c & Hi & Hci).
  destruct (get_UCT_child n) as [n' r] eqn:Hg. simpl in Hi, Hci. subst r.
  assert (Hd : deref (store root node (fun _ => n')) (i :: node) = Some c).
  { unfold deref, store in *. simpl rev.
    rewrite (get_down_modify_below (fun _ => n') (rev node) [i] root n Hn).
    simpl. rewrite Hci. reflexivity. }
  rewrite Hd. destruct (get_move c) as [bw pos].
  eexists _, i, _. split; [reflexivity|]. split.
  - intros q. unfold store. apply (view_modify_same (fun _ => n') (rev node) root n Hn).
    intros q'. replace n' with (fst (get_UCT_child n)) by (rewrite Hg; reflexivity).
    apply view_get_UCT_child.
  - congruence.
Qed.

(** With fuel for the remaining depth the selection loop ends, at a node
    of the tree where its condition fails, and leaves every view as it
    was. *)
Lemma selection_total (h fuel : nat) :
  forall root node b,
    (forall q, view root q <> None -> (length q <= h)%nat) ->
    deref root node <> None ->
    (h < fuel + length node)%nat ->
    exists root' node' b',
      selection fuel root node b = Some (root', node', b') /\
      (forall q, view root' q = view root q) /\
      deref root' node' <> None /\
      selection_cond root' node' = false.
Proof.
  induction fuel as [|fuel IH]; intros root node b Hdepth Hvalid Hfuel.
  - assert (Hlen : (length (rev node) <= h)%nat).
    { apply Hdepth. unfold view. unfold deref in Hvalid.
      destruct (get_down root (rev node)); simpl; congruence. }
    rewrite length_rev in Hlen. lia.
  - simpl. destruct (selection_cond root node) eqn:Hcond.
    + unfold selection_cond in Hcond.
      destruct (deref root node) as [n|] eqn:Hn; [|discriminate].
      apply andb_true_iff in Hcond. destruct Hcond as [_ Hc].
      destruct (selection_body_spec root node b n Hn Hc) as (root1 & i & b1 & Hb & Hview & Hv).
      rewrite Hb.
      destruct (IH root1 (i :: node) b1) as (root' & node' & b' & Hs & Hview' & Hv' & Hc').
      * intros q Hq. apply Hdepth. rewrite <- Hview. auto.
      * auto.
      * simpl. lia.
      * exists root', node', b'. repeat split; auto.
        intros q. rewrite Hview'. apply Hview.
    + exists root, node, b. repeat split; auto.
Qed.

(** Every node the selection loop hands to [get_UCT_child] has children,
    and carries the statistics the tree had at that address when the
    loop began. *)
Lemma selection_calls_spec (fuel : nat) :
  forall root node b n,
    In n (selection_calls fuel root node b) ->
    children_ n <> [] /\
    exists a, forall q, view n q = view root (a ++ q).
Proof.
  induction fuel as [|fuel IH]; intros root node b n Hin; simpl in Hin.
  - destruct (selection_cond root node); destruct Hin.
  - destruct (selection_cond root node) eqn:Hcond; [|destruct Hin].
    unfold selection_cond in Hcond.
    destruct (deref root node) as [m|] eqn:Hm; [|discriminate].
    apply andb_true_iff in Hcond. destruct Hcond as [_ Hc].
    destruct (selection_body_spec root node b m Hm Hc) as (root1 & i & b1 & Hb & Hview & Hv).
    rewrite Hb in Hin. destruct Hin as [<-|Hin].
    + split.
      * unfold has_children in Hc. destruct (children_ m); congruence.
      * exists (rev node). intros q. symmetry.
        apply view_app. exact Hm.
    + destruct (IH _ _ _ _ Hin) as (Hne & a & Hq).
      split; auto. exists a.
      intros q. rewrite Hq. apply Hview.
Qed.

(** C9, as the code has it.  On a node without children
    [get_UCT_child] performs no check: it returns normally, the address
    it returns is the past-the-end one, and the node is unchanged.  The
    precondition is the caller's: every node the selection loop hands to
    [get_UCT_child] has children. *)
Theorem get_UCT_child_no_children (n : Node) :
  children_ n = [] ->
  call_get_UCT_child n = returned (set_children [] n, None) /\
  call_get_UCT_child n <> failed /\
  statistics (fst (get_UCT_child n)) = statistics n /\
  children_ (fst (get_UCT_child n)) = children_ n /\
  (forall fuel root node b m,
      In m (selection_calls fuel root node b) -> children_ m <> []).
Proof.
  intros H. unfold call_get_UCT_child, get_UCT_child. rewrite H. simpl.
  split; [reflexivity|]. split; [discriminate|]. split; [reflexivity|].
  split; [reflexivity|].
  intros fuel root node b m Hm.
  destruct (selection_calls_spec fuel root node b m Hm) as (Hne & _). exact Hne.
Qed.

(** *** Expansion *)

Lemma expansion_stays (root : Node) (node : ptr) (b : board)
      (g : default_random_engine) (n : Node) :
  deref root node = Some n ->
  has_untried_moves n = false ->
  expansion root node b g = Some (root, node, b).
Proof.
  intros Hn Hm. unfold expansion. rewrite Hn, Hm. reflexivity.
Qed.

Lemma view_expanded (n : Node) (k : nat) (g1 : default_random_engine)
      (new : Node) (q : list nat) :
  children_ new = [] ->
  view (set_children (children_ n ++ [new]) (popped k g1 n)) q =
  if path_eq_dec q [] then Some (statistics (popped k g1 n))
  else if path_eq_dec q [length (children_ n)] then Some (statistics new)
       else view n q.
Proof.
  intros Hleaf. unfold view.
  destruct q as [|j q]; simpl.
  - destruct (path_eq_dec [] []); [reflexivity|congruence].
  - destruct (path_eq_dec (j :: q) []) as [E|_]; [discriminate|].
    destruct (lt_eq_lt_dec j (length (children_ n))) as [[Hlt|Heq]|Hgt].
    + rewrite nth_error_app1 by auto.
      destruct (path_eq_dec (j :: q) [length (children_ n)]) as [E|_].
      * inversion E. lia.
      * reflexivity.
    + subst j. rewrite nth_error_app2 by lia. rewrite Nat.sub_diag. simpl.
      assert (Hnone : nth_error (children_ n) (length (children_ n)) = None).
      { apply nth_error_None. lia. }
      rewrite Hnone.
      destruct q as [|i q]; simpl.
      * destruct (path_eq_dec [length (children_ n)] [length (children_ n)]);
          [reflexivity|congruence].
      * rewrite Hleaf. destruct i; simpl;
        destruct (path_eq_dec (length (children_ n) :: _ :: q) [length (children_ n)]);
          try discriminate; reflexivity.
    + assert (Hnone : nth_error (children_ n ++ [new]) j = None).
      { apply nth_error_None. rewrite length_app. simpl. lia. }
      assert (Hnone' : nth_error (children_ n) j = None).
      { apply nth_error_None. lia. }
      rewrite Hnone, Hnone'.
      destruct (path_eq_dec (j :: q) [length (children_ n)]) as [E|_].
      * inversion E. lia.
      * reflexivity.
Qed.

(** A successful expansion of a node with untried moves: one move leaves
    [moves_], and a fresh leaf for it is appended. *)
Lemma expansion_expands (root : Node) (node : ptr) (b : board)
      (g : default_random_engine) (n : Node)
      (root2 : Node) (node2 : ptr) (b2 : board) :
  deref root node = Some n ->
  has_untried_moves n = true ->
  expansion root node b g = Some (root2, node2, b2) ->
  exists k g1 pos,
    nth_error (moves_ n) k = Some pos /\
    let bw := size_t_wrap (1 - bw_ n) in
    let new := Node_new g b2 bw pos in
    let i := length (children_ n) in
    b2 = snd (place_apply pos (color bw) b) /\
    node2 = i :: node /\
    root2 = store root node (fun _ => set_children (children_ n ++ [new]) (popped k g1 n)) /\
    g1 = snd (uniform_int 0 (size_t_wrap (Z.of_nat (length (moves_ n)) - 1)) (engine_ n)) /\
    forall q,
      view root2 q =
      if path_eq_dec q (rev node) then Some (statistics (popped k g1 n))
      else if path_eq_dec q (rev node ++ [i]) then Some (statistics new)
           else view root q.
Proof.
  intros Hn Hm Hexp. unfold expansion in Hexp. rewrite Hn, Hm in Hexp.
  unfold pop_untried_move in Hexp.
  destruct (uniform_int 0 (size_t_wrap (Z.of_nat (length (moves_ n)) - 1)) (engine_ n))
    as [k g1] eqn:Hk.
  destruct (nth_error (moves_ n) (Z.to_nat k)) as [pos|] eqn:Hpos; [|discriminate].
  unfold add_child in Hexp. cbv beta iota zeta in Hexp.
  change (children_ (popped (Z.to_nat k) g1 n)) with (children_ n) in Hexp.
  assert (Hb2 : b2 = snd (place_apply pos (color (size_t_wrap (1 - bw_ n))) b))
    by congruence.
  rewrite <- Hb2 in Hexp.
  exists (Z.to_nat k), g1, pos. split; [exact Hpos|].
  cbv zeta. split; [exact Hb2|]. split; [congruence|]. split; [congruence|].
  split; [reflexivity|].
  assert (Hroot2 : root2 = store root node
             (fun _ => set_children (children_ n ++ [Node_new g b2 (size_t_wrap (1 - bw_ n)) pos])
                         (popped (Z.to_nat k) g1 n))) by congruence.
  clear Hexp. rewrite Hroot2. clear Hroot2.
  intros q. unfold store.
  set (new := Node_new g b2 (size_t_wrap (1 - bw_ n)) pos).
  set (n2 := set_children (children_ n ++ [new]) (popped (Z.to_nat k) g1 n)).
  destruct (is_prefix (rev node) q) eqn:Hpre.
  - apply is_prefix_spec in Hpre. destruct Hpre as (q' & ->).
    rewrite (view_modify_below (fun _ => n2) (rev node) q' root n Hn).
    unfold n2. rewrite (view_expanded n (Z.to_nat k) g1 new q' eq_refl).
    rewrite (view_app root n (rev node) q' Hn).
    destruct (path_eq_dec q' []) as [->|Hq'].
    + rewrite app_nil_r. destruct (path_eq_dec (rev node) (rev node)); congruence.
    + destruct (path_eq_dec (rev node ++ q') (rev node)) as [E|_].
      * exfalso. apply Hq'. apply (app_inv_head (rev node)). rewrite app_nil_r. exact E.
      * destruct (path_eq_dec q' [length (children_ n)]) as [->|Hq''].
        -- destruct (path_eq_dec (rev node ++ [length (children_ n)])
                                 (rev node ++ [length (children_ n)])); congruence.
        -- destruct (path_eq_dec (rev node ++ q') (rev node ++ [length (children_ n)]))
             as [E|_]; [|reflexivity].
           exfalso. apply Hq''. apply (app_inv_head (rev node)). exact E.
  - rewrite (view_modify_other (fun _ => n2) (rev node) q root n Hn Hpre).
    destruct (path_eq_dec q (rev node)) as [->|_].
    + rewrite is_prefix_refl in Hpre. discriminate.
    + destruct (path_eq_dec q (rev node ++ [length (children_ n)])) as [->|_];
        [|reflexivity].
      rewrite is_prefix_app in Hpre. discriminate.
Qed.

Lemma expansion_total (root : Node) (node : ptr) (b : board)
      (g : default_random_engine) (n : Node) :
  uniform_int_in_range -> board_fits_size_t ->
  deref root node = Some n ->
  (length (moves_ n) <= space)%nat ->
  exists r, expansion root node b g = Some r /\ deref (fst (fst r)) (snd (fst r)) <> None.
Proof.
  intros Hu Hfit Hn Hlen. unfold expansion. rewrite Hn.
  destruct (has_untried_moves n) eqn:Hm.
  - assert (Hne : moves_ n <> []).
    { unfold has_untried_moves in Hm. destruct (moves_ n); congruence. }
    destruct (draw_in_range (moves_ n) (engine_ n) Hu Hfit Hne Hlen) as (pos & Hpos).
    unfold pop_untried_move.
    destruct (uniform_int 0 (size_t_wrap (Z.of_nat (length (moves_ n)) - 1)) (engine_ n))
      as [k g1] eqn:Hk.
    simpl fst in Hpos. rewrite Hpos. unfold add_child. simpl.
    eexists. split; [reflexivity|]. simpl.
    unfold deref, store. simpl rev.
    rewrite (get_down_modify_below _ (rev node) [length (children_ n)] root n Hn).
    simpl. rewrite nth_error_app2 by lia. rewrite Nat.sub_diag. simpl. congruence.
  - eexists. split; [reflexivity|]. simpl. congruence.
Qed.

(** *** Backpropagation *)

Lemma is_prefix_nil_r (q : list nat) : is_prefix q [] = true <-> q = [].
Proof. destruct q; simpl; split; congruence. Qed.

Lemma is_prefix_snoc (q p : list nat) (i : nat) :
  is_prefix q (p ++ [i]) = true <-> is_prefix q p = true \/ q = p ++ [i].
Proof.
  revert p; induction q as [|j q IH]; intros p; simpl.
  - tauto.
  - destruct p as [|k p]; simpl.
    + rewrite andb_true_iff, Nat.eqb_eq, is_prefix_nil_r. split.
      * intros (-> & ->). auto.
      * intros [H|H]; [discriminate|]. inversion H; auto.
    + rewrite !andb_true_iff, !Nat.eqb_eq, IH. split.
      * intros (-> & [H | ->]); auto.
      * intros [(-> & H)|H]; auto. inversion H; subst. auto.
Qed.

Lemma is_prefix_length (q p : list nat) :
  is_prefix q p = true -> (length q <= length p)%nat.
Proof.
  intros H. apply is_prefix_spec in H. destruct H as (r & ->).
  rewrite length_app. lia.
Qed.

Lemma view_store_update (w : Z) (p q : list nat) (root : Node) :
  view (modify_down (backprop_update w) p root) q =
  if path_eq_dec q p then option_map (backprop_update w) (view root q)
  else view root q.
Proof.
  destruct (get_down root p) as [m|] eqn:Hm.
  - destruct (is_prefix p q) eqn:Hpre.
    + apply is_prefix_spec in Hpre. destruct Hpre as (q' & ->).
      rewrite (view_modify_below _ p q' root m Hm), (view_app root m p q' Hm).
      destruct q' as [|j q'].
      * rewrite app_nil_r. destruct (path_eq_dec p p); [|congruence]. reflexivity.
      * destruct (path_eq_dec (p ++ j :: q') p) as [E|_]; [|reflexivity].
        apply (f_equal (@length nat)) in E. rewrite length_app in E. simpl in E. lia.
    + rewrite (view_modify_other _ p q root m Hm Hpre).
      destruct (path_eq_dec q p) as [->|_]; [|reflexivity].
      rewrite is_prefix_refl in Hpre. discriminate.
  - rewrite (modify_down_invalid _ p root Hm).
    destruct (path_eq_dec q p) as [->|_]; [|reflexivity].
    unfold view. rewrite Hm. reflexivity.
Qed.

(** The loop in terms of [get_parent]. *)
Lemma backpropagation_unfold (w : Z) (root : Node) (node : ptr) :
  backpropagation w root node =
  match get_parent node with
  | None => store root node (backprop_update w)
  | Some parent => backpropagation w (store root node (backprop_update w)) parent
  end.
Proof. destruct node; reflexivity. Qed.

(** Backpropagation from [node] updates exactly the nodes whose path is
    a prefix of the path of [node]: the node itself and its ancestors up
    to the root, each once. *)
Lemma view_backpropagation (w : Z) (node : ptr) :
  forall root q,
    view (backpropagation w root node) q =
    if is_prefix q (rev node) then option_map (backprop_update w) (view root q)
    else view root q.
Proof.
  induction node as [|i parent IH]; intros root q.
  - change (backpropagation w root [])
      with (modify_down (backprop_update w) [] root).
    rewrite (view_store_update w [] q root). simpl rev.
    destruct (path_eq_dec q []) as [->|Hq]; [reflexivity|].
    destruct (is_prefix q []) eqn:E; [|reflexivity].
    apply is_prefix_nil_r in E. congruence.
  - change (backpropagation w root (i :: parent))
      with (backpropagation w (modify_down (backprop_update w) (rev parent ++ [i]) root)
                            parent).
    rewrite IH. simpl rev.
    rewrite (view_store_update w (rev parent ++ [i]) q root).
    destruct (path_eq_dec q (rev parent ++ [i])) as [->|Hq].
    + rewrite is_prefix_refl.
      destruct (is_prefix (rev parent ++ [i]) (rev parent)) eqn:E; [|reflexivity].
      apply is_prefix_length in E. rewrite length_app in E. simpl in E. lia.
    + destruct (is_prefix q (rev parent)) eqn:E.
      * assert (E' : is_prefix q (rev parent ++ [i]) = true).
        { apply is_prefix_snoc. auto. }
        rewrite E'. reflexivity.
      * destruct (is_prefix q (rev parent ++ [i])) eqn:E'; [|reflexivity].
        apply is_prefix_snoc in E'. destruct E' as [E'|E']; congruence.
Qed.

(** *** One iteration *)

Lemma selection_sound (fuel : nat) :
  forall root node b root' node' b',
    deref root node <> None ->
    (forall q s, is_prefix q (rev node) = true -> q <> rev node ->
                 view root q = Some s -> moves_ s = []) ->
    selection fuel root node b = Some (root', node', b') ->
    (forall q, view root' q = view root q) /\
    deref root' node' <> None /\
    selection_cond root' node' = false /\
    (forall q s, is_prefix q (rev node') = true -> q <> rev node' ->
                 view root' q = Some s -> moves_ s = []).
Proof.
  induction fuel as [|fuel IH]; intros root node b root' node' b' Hvalid Hanc Hsel;
    simpl in Hsel; destruct (selection_cond root node) eqn:Hcond;
    try discriminate;
    try (injection Hsel as <- <- <-; repeat split; auto; fail).
  unfold selection_cond in Hcond.
  destruct (deref root node) as [n|] eqn:Hn; [|discriminate].
  apply andb_true_iff in Hcond. destruct Hcond as [Hm Hc].
  destruct (selection_body_spec root node b n Hn Hc) as (root1 & i & b1 & Hb & Hview & Hv).
  rewrite Hb in Hsel.
  assert (Hanc1 : forall q s, is_prefix q (rev (i :: node)) = true ->
                              q <> rev (i :: node) ->
                              view root1 q = Some s -> moves_ s = []).
  { intros q s Hpre Hne Hq. simpl rev in Hpre, Hne. rewrite Hview in Hq.
    apply is_prefix_snoc in Hpre. destruct Hpre as [Hpre|Hpre]; [|congruence].
    destruct (path_eq_dec q (rev node)) as [->|Hqn].
    - rewrite (view_node root (rev node) n Hn) in Hq. injection Hq as <-. simpl.
      unfold has_untried_moves in Hm. destruct (moves_ n); [reflexivity|discriminate].
    - apply (Hanc q s Hpre Hqn Hq). }
  destruct (IH _ _ _ _ _ _ Hv Hanc1 Hsel) as (Hview' & Hv' & Hc' & Hanc').
  repeat split; auto. intros q. rewrite Hview'. apply Hview.
Qed.

Lemma iteration_unfold (fuel : nat) (state : board) (root : Node)
      (g : default_random_engine) (root' : Node) (g' : default_random_engine) :
  iteration fuel state root g = Some (root', g') ->
  exists root1 node1 b1 root2 node2 b2 n bw b3 plies,
    selection fuel root [] state = Some (root1, node1, b1) /\
    expansion root1 node1 b1 g = Some (root2, node2, b2) /\
    deref root2 node2 = Some n /\
    rollout fuel b2 (size_t_wrap (1 - get_player n)) g 0 = Some (bw, b3, g', plies) /\
    root' = backpropagation (size_t_wrap (1 - bw)) root2 node2.
Proof.
  unfold iteration. intros H.
  destruct (selection fuel root [] state) as [[[root1 node1] b1]|] eqn:E1;
    [|discriminate].
  destruct (expansion root1 node1 b1 g) as [[[root2 node2] b2]|] eqn:E2;
    [|discriminate].
  destruct (deref root2 node2) as [n|] eqn:E3; [|discriminate].
  destruct (rollout fuel b2 (size_t_wrap (1 - get_player n)) g 0)
    as [[[[bw b3] g3] plies]|] eqn:E4; [|discriminate].
  injection H as <- <-.
  exists root1, node1, b1, root2, node2, b2, n, bw, b3, plies.
  repeat split; auto.
Qed.

(** C2. When an iteration completes, the tree it leaves is the tree
    after selection and expansion with [update] applied once to the node
    the playout started from and to each of its ancestors up to the root
    (the nodes whose path is a prefix of that node's path) and to no
    other node; the flag passed is whether the playout's winner equals
    the node's [bw_]; and [update] adds one to [visits_] and adds one to
    [wins_] exactly when the flag is set. *)
Theorem backpropagation_updates_path_once (fuel : nat) (state : board)
        (root : Node) (g : default_random_engine)
        (root' : Node) (g' : default_random_engine) :
  iteration fuel state root g = Some (root', g') ->
  exists root1 node1 b1 root2 node2 b2 n bw b3 plies,
    selection fuel root [] state = Some (root1, node1, b1) /\
    expansion root1 node1 b1 g = Some (root2, node2, b2) /\
    deref root2 node2 = Some n /\
    rollout fuel b2 (size_t_wrap (1 - get_player n)) g 0 = Some (bw, b3, g', plies) /\
    let winner := size_t_wrap (1 - bw) in
    (forall q,
        view root' q =
        if is_prefix q (rev node2)
        then option_map (fun x => update (winner =? bw_ x) x) (view root2 q)
        else view root2 q) /\
    (forall win x,
        visits_ (update win x) = size_t_wrap (visits_ x + 1) /\
        wins_ (update win x) = size_t_wrap (wins_ x + (if win then 1 else 0)) /\
        bw_ (update win x) = bw_ x /\ pos_ (update win x) = pos_ x /\
        moves_ (update win x) = moves_ x /\ children_ (update win x) = children_ x).
Proof.
  intros H.
  destruct (iteration_unfold _ _ _ _ _ _ H)
    as (root1 & node1 & b1 & root2 & node2 & b2 & n & bw & b3 & plies
        & Hs & He & Hn & Hr & ->).
  exists root1, node1, b1, root2, node2, b2, n, bw, b3, plies.
  repeat split; auto.
  intros q. apply view_backpropagation.
Qed.

(** *** The invariant of the tree *)

Lemma bump_bounds (w : Z) (s : Node) (D : Z) :
  0 <= wins_ s <= visits_ s -> visits_ s <= D -> D + 1 < SIZE_T_MOD ->
  0 <= wins_ (backprop_update w s) <= visits_ (backprop_update w s) /\
  visits_ (backprop_update w s) <= D + 1 /\
  1 <= visits_ (backprop_update w s).
Proof.
  intros H1 H2 H3. unfold backprop_update, update, size_t_wrap. simpl.
  destruct (w =? get_player s); rewrite !Z.mod_small by lia; lia.
Qed.

Lemma erase_nth_length_le (A : Type) (i : nat) (l : list A) :
  (length (erase_nth i l) <= length l)%nat.
Proof.
  revert i; induction l as [|x l IH]; intros [|i]; simpl; auto.
  specialize (IH i). lia.
Qed.

Lemma origin_unexpanded (V V' : list nat -> option Node) (a : list nat) (w : Z) :
  (forall q, V' q = if is_prefix q a then option_map (backprop_update w) (V q)
                    else V q) ->
  forall q s', V' q = Some s' ->
               exists s, V q = Some s /\ (s' = s \/ s' = backprop_update w s).
Proof.
  intros HV q s' Hq. rewrite HV in Hq.
  destruct (is_prefix q a).
  - destruct (V q) as [s|]; simpl in Hq; [|discriminate].
    exists s. split; auto. right. congruence.
  - exists s'. auto.
Qed.

Lemma origin_expanded (V V' : list nat -> option Node) (a : list nat) (i : nat)
      (w : Z) (sp sn : Node) :
  (forall q,
      V' q =
      if is_prefix q (a ++ [i])
      then option_map (backprop_update w)
                      (if path_eq_dec q a then Some sp
                       else if path_eq_dec q (a ++ [i]) then Some sn else V q)
      else if path_eq_dec q a then Some sp
           else if path_eq_dec q (a ++ [i]) then Some sn else V q) ->
  forall q s', V' q = Some s' ->
               (q = a ++ [i] /\ s' = backprop_update w sn) \/
               (q = a /\ s' = backprop_update w sp) \/
               (q <> a /\ q <> a ++ [i] /\
                exists s, V q = Some s /\ (s' = s \/ s' = backprop_update w s)).
Proof.
  intros HV q s' Hq. rewrite HV in Hq.
  destruct (path_eq_dec q a) as [->|Hqa].
  - rewrite is_prefix_app in Hq. simpl in Hq. right. left. split; congruence.
  - destruct (path_eq_dec q (a ++ [i])) as [->|Hqi].
    + rewrite is_prefix_refl in Hq. simpl in Hq. left. split; congruence.
    + right. right. repeat split; auto.
      destruct (is_prefix q (a ++ [i])).
      * destruct (V q) as [s|]; simpl in Hq; [|discriminate].
        exists s. split; auto. right. congruence.
      * exists s'. auto.
Qed.

Lemma tree_inv_root (engine : default_random_engine) (b : board) (who pos : Z) :
  tree_inv 0 (Node_new engine b who pos).
Proof.
  assert (Hv : forall q s, view (Node_new engine b who pos) q = Some s ->
                           q = [] /\ s = statistics (Node_new engine b who pos)).
  { intros q s. unfold view. destruct q as [|j q]; simpl.
    - intros H. split; congruence.
    - destruct j; discriminate. }
  constructor.
  - intros q s H. destruct (Hv q s H) as (-> & ->). simpl. lia.
  - intros q s Hq H. destruct (Hv q s H) as (-> & _). congruence.
  - intros q H. destruct (view (Node_new engine b who pos) q) as [s|] eqn:E;
      [|congruence].
    destruct (Hv q s E) as (-> & _). simpl. lia.
  - intros q s H. destruct (Hv q s H) as (-> & ->). simpl. apply legal_moves_length.
  - intros q s H. destruct (Hv q s H) as (-> & ->). reflexivity.
  - intros s H. destruct (Hv [] s H) as (_ & ->). simpl. apply legal_moves_NoDup.
  - intros j s c _ H. destruct (Hv [j] c H) as (E & _). discriminate.
  - intros j k c d H. destruct (Hv [j] c H) as (E & _). discriminate.
  - intros q s j k _ _.
    destruct (view (Node_new engine b who pos) (q ++ [j; k])) as [c|] eqn:E;
      [|reflexivity].
    destruct (Hv _ c E) as (E' & _). destruct q; discriminate.
Qed.

Lemma snoc_singleton (a : list nat) (i j : nat) : [j] = a ++ [i] -> a = [] /\ j = i.
Proof.
  destruct a as [|x a]; simpl; intros H.
  - split; congruence.
  - destruct a; discriminate.
Qed.

Lemma nil_not_snoc (a : list nat) (i : nat) : [] <> a ++ [i].
Proof. destruct a; discriminate. Qed.

(** An iteration without expansion keeps the invariant. *)
Lemma tree_inv_unexpanded (done : nat) (root root' : Node) (a : list nat) (w : Z) :
  tree_inv done root ->
  Z.of_nat done + 1 < SIZE_T_MOD ->
  (forall q, view root' q =
             if is_prefix q a then option_map (backprop_update w) (view root q)
             else view root q) ->
  tree_inv (S done) root'.
Proof.
  intros Hinv Hbig HV.
  pose proof (origin_unexpanded (view root) (view root') a w HV) as Horigin.
  constructor.
  - intros q s' Hq. destruct (Horigin q s' Hq) as (s & Hs & [->| ->]).
    + pose proof (inv_stats Hinv q Hs). lia.
    + destruct (inv_stats Hinv q Hs) as [H1 H2].
      pose proof (bump_bounds w s (Z.of_nat done) H1 H2 Hbig). lia.
  - intros q s' Hne Hq. destruct (Horigin q s' Hq) as (s & Hs & [->| ->]).
    + apply (inv_visited Hinv Hne Hs).
    + destruct (inv_stats Hinv q Hs) as [H1 H2].
      pose proof (bump_bounds w s (Z.of_nat done) H1 H2 Hbig). lia.
  - intros q Hq. destruct (view root' q) as [s'|] eqn:E; [|congruence].
    destruct (Horigin q s' E) as (s & Hs & _).
    assert (length q <= done)%nat by (apply (inv_depth Hinv); congruence). lia.
  - intros q s' Hq. destruct (Horigin q s' Hq) as (s & Hs & [->| ->]);
      apply (inv_moves Hinv q Hs).
  - intros q s' Hq. destruct (Horigin q s' Hq) as (s & Hs & [->| ->]);
      apply (inv_constant Hinv q Hs).
  - intros s' Hq. destruct (Horigin [] s' Hq) as (s & Hs & [->| ->]);
      apply (inv_root_moves Hinv Hs).
  - intros j s' c' Hq Hc.
    destruct (Horigin [] s' Hq) as (s & Hs & Es).
    destruct (Horigin [j] c' Hc) as (c & Hc0 & Ec).
    assert (Hm : moves_ s' = moves_ s) by (destruct Es as [->| ->]; reflexivity).
    assert (Hp : pos_ c' = pos_ c) by (destruct Ec as [->| ->]; reflexivity).
    rewrite Hm, Hp. apply (inv_root_fresh Hinv j Hs Hc0).
  - intros j k c' d' Hc Hd Hpos.
    destruct (Horigin [j] c' Hc) as (c & Hc0 & Ec).
    destruct (Horigin [k] d' Hd) as (d & Hd0 & Ed).
    assert (Hp : pos_ c' = pos_ c) by (destruct Ec as [->| ->]; reflexivity).
    assert (Hp' : pos_ d' = pos_ d) by (destruct Ed as [->| ->]; reflexivity).
    apply (inv_root_distinct Hinv j k Hc0 Hd0). congruence.
  - intros q s' j k Hq Hm.
    destruct (Horigin q s' Hq) as (s & Hs & Es).
    assert (Hms : moves_ s <> []) by (destruct Es as [->| ->]; exact Hm).
    rewrite HV, (inv_leaves Hinv q j k Hs Hms).
    destruct (is_prefix (q ++ [j; k]) a); reflexivity.
Qed.

(** An iteration that expands the node at [a] keeps the invariant. *)
Lemma tree_inv_expanded (done : nat) (root root' : Node) (a : list nat) (i k : nat)
      (w pos : Z) (n1 new : Node) (g1 : default_random_engine) :
  tree_inv done root ->
  Z.of_nat done + 1 < SIZE_T_MOD ->
  view root a = Some (statistics n1) ->
  (forall q s, is_prefix q a = true -> q <> a -> view root q = Some s ->
               moves_ s = []) ->
  view root (a ++ [i]) = None ->
  nth_error (moves_ n1) k = Some pos ->
  visits_ new = 0 -> wins_ new = 0 -> pos_ new = pos ->
  (length (moves_ new) <= space)%nat ->
  node_exploration_constant new = d_quarter ->
  (forall q,
      view root' q =
      if is_prefix q (a ++ [i])
      then option_map (backprop_update w)
                      (if path_eq_dec q a then Some (statistics (popped k g1 n1))
                       else if path_eq_dec q (a ++ [i]) then Some (statistics new)
                            else view root q)
      else if path_eq_dec q a then Some (statistics (popped k g1 n1))
           else if path_eq_dec q (a ++ [i]) then Some (statistics new)
                else view root q) ->
  tree_inv (S done) root'.
Proof.
  intros Hinv Hbig Ha Hanc Hnew Hk Hv0 Hw0 Hp0 Hlen Hc0 HV.
  pose proof (origin_expanded (view root) (view root') a i w
                              (statistics (popped k g1 n1)) (statistics new) HV)
    as Horigin.
  destruct (inv_stats Hinv a Ha) as [Hs1 Hs2]. simpl in Hs1, Hs2.
  assert (Hbump_p :
            0 <= wins_ (backprop_update w (statistics (popped k g1 n1)))
              <= visits_ (backprop_update w (statistics (popped k g1 n1))) /\
            visits_ (backprop_update w (statistics (popped k g1 n1)))
              <= Z.of_nat done + 1 /\
            1 <= visits_ (backprop_update w (statistics (popped k g1 n1)))).
  { apply bump_bounds; simpl; auto. }
  assert (Hbump_n :
            0 <= wins_ (backprop_update w (statistics new))
              <= visits_ (backprop_update w (statistics new)) /\
            visits_ (backprop_update w (statistics new)) <= Z.of_nat done + 1 /\
            1 <= visits_ (backprop_update w (statistics new))).
  { apply bump_bounds; simpl; auto; lia. }
  assert (Hchild : forall j c', view root' [j] = Some c' ->
            (a = [] /\ j = i /\ pos_ c' = pos) \/
            (exists c, view root [j] = Some c /\ pos_ c' = pos_ c)).
  { intros j c' Hc. destruct (Horigin [j] c' Hc) as [(E & ->)|[(E & ->)|(_ & _ & c & Hc1 & Ec)]].
    - apply snoc_singleton in E. left. simpl. tauto.
    - right. exists (statistics n1). split; [congruence|reflexivity].
    - right. exists c. split; auto. destruct Ec as [->| ->]; reflexivity. }
  assert (Hroot : forall s', view root' [] = Some s' ->
            (a = [] /\ moves_ s' = erase_nth k (moves_ n1)) \/
            (a <> [] /\ exists s, view root [] = Some s /\ moves_ s' = moves_ s)).
  { intros s' Hq. destruct (Horigin [] s' Hq) as [(E & _)|[(E & ->)|(E & _ & s & Hs & Es)]].
    - exfalso. apply (nil_not_snoc a i E).
    - left. split; [congruence|reflexivity].
    - right. split; [congruence|]. exists s. split; auto.
      destruct Es as [->| ->]; reflexivity. }
  constructor.
  - intros q s' Hq.
    destruct (Horigin q s' Hq) as [(_ & ->)|[(_ & ->)|(_ & _ & s & Hs & [->| ->])]].
    + lia.
    + lia.
    + pose proof (inv_stats Hinv q Hs). lia.
    + destruct (inv_stats Hinv q Hs) as [H1 H2].
      pose proof (bump_bounds w s (Z.of_nat done) H1 H2 Hbig). lia.
  - intros q s' Hne Hq.
    destruct (Horigin q s' Hq) as [(_ & ->)|[(_ & ->)|(_ & _ & s & Hs & [->| ->])]].
    + lia.
    + lia.
    + apply (inv_visited Hinv Hne Hs).
    + destruct (inv_stats Hinv q Hs) as [H1 H2].
      pose proof (bump_bounds w s (Z.of_nat done) H1 H2 Hbig). lia.
  - intros q Hq. destruct (view root' q) as [s'|] eqn:E; [|congruence].
    assert (Hla : (length a <= done)%nat) by (apply (inv_depth Hinv); congruence).
    destruct (Horigin q s' E) as [(-> & _)|[(-> & _)|(_ & _ & s & Hs & _)]].
    + rewrite length_app. simpl. lia.
    + lia.
    + assert (length q <= done)%nat by (apply (inv_depth Hinv); congruence). lia.
  - intros q s' Hq.
    destruct (Horigin q s' Hq) as [(_ & ->)|[(_ & ->)|(_ & _ & s & Hs & [->| ->])]].
    + exact Hlen.
    + simpl. pose proof (erase_nth_length_le _ k (moves_ n1)).
      pose proof (inv_moves Hinv a Ha) as Hl. simpl in Hl. lia.
    + apply (inv_moves Hinv q Hs).
    + apply (inv_moves Hinv q Hs).
  - intros q s' Hq.
    destruct (Horigin q s' Hq) as [(_ & ->)|[(_ & ->)|(_ & _ & s & Hs & [->| ->])]].
    + exact Hc0.
    + apply (inv_constant Hinv a Ha).
    + apply (inv_constant Hinv q Hs).
    + apply (inv_constant Hinv q Hs).
  - intros s' Hq. destruct (Hroot s' Hq) as [(-> & ->)|(_ & s & Hs & ->)].
    + pose proof (inv_root_moves Hinv Ha) as Hnd. simpl in Hnd.
      apply (erase_nth_NoDup _ k pos (moves_ n1) Hnd Hk).
    + apply (inv_root_moves Hinv Hs).
  - intros j s' c' Hq Hc.
    destruct (Hroot s' Hq) as [(Ea & ->)|(Ea & s & Hs & ->)];
      destruct (Hchild j c' Hc) as [(Ea' & -> & ->)|(c & Hc1 & ->)];
      try congruence.
    + subst a. pose proof (inv_root_moves Hinv Ha) as Hnd. simpl in Hnd.
      apply (erase_nth_NoDup _ k pos (moves_ n1) Hnd Hk).
    + subst a. intros Hin. apply erase_nth_In in Hin.
      apply (inv_root_fresh Hinv j Ha Hc1). exact Hin.
    + apply (inv_root_fresh Hinv j Hs Hc1).
  - intros j k' c' d' Hc Hd Hpos.
    destruct (Hchild j c' Hc) as [(Ea & -> & Hpc)|(c & Hc1 & Hpc)];
      destruct (Hchild k' d' Hd) as [(Ea' & -> & Hpd)|(d & Hd1 & Hpd)]; auto.
    + exfalso. subst a. apply (inv_root_fresh Hinv k' Ha Hd1). simpl.
      rewrite <- Hpd, <- Hpos, Hpc. eapply nth_error_In; eauto.
    + exfalso. subst a. apply (inv_root_fresh Hinv j Ha Hc1). simpl.
      rewrite <- Hpc, Hpos, Hpd. eapply nth_error_In; eauto.
    + apply (inv_root_distinct Hinv j k' Hc1 Hd1). congruence.
  - intros q s' j k' Hq Hm.
    destruct (view root' (q ++ [j; k'])) as [c'|] eqn:Hc; [exfalso|reflexivity].
    assert (Hold : forall s, view root q = Some s -> moves_ s <> [] -> False).
    { intros s Hs Hms.
      destruct (Horigin _ c' Hc) as [(E & _)|[(E & _)|(_ & _ & c & Hc1 & _)]].
      - (* the expanded node is a child of [q], which has no untried moves *)
        change [j; k'] with ([j] ++ [k']) in E. rewrite app_assoc in E.
        apply app_inj_tail in E. destruct E as [E _].
        apply Hms. apply (Hanc q s); auto.
        + rewrite <- E. apply is_prefix_app.
        + intros E'. rewrite E' in E. apply (f_equal (@length nat)) in E.
          rewrite length_app in E. simpl in E. lia.
      - rewrite <- E in Ha. rewrite (inv_leaves Hinv q j k' Hs Hms) in Ha. discriminate.
      - rewrite (inv_leaves Hinv q j k' Hs Hms) in Hc1. discriminate. }
    destruct (Horigin q s' Hq) as [(E & _)|[(E & ->)|(_ & _ & s & Hs & Es)]].
    + destruct (Horigin _ c' Hc) as [(E' & _)|[(E' & _)|(_ & _ & c & Hc1 & _)]].
      * rewrite E in E'. apply (f_equal (@length nat)) in E'.
        rewrite !length_app in E'. simpl in E'. lia.
      * rewrite E in E'. apply (f_equal (@length nat)) in E'.
        rewrite !length_app in E'. simpl in E'. lia.
      * apply (view_prefix root (a ++ [i]) [j; k']).
        -- rewrite <- E. congruence.
        -- exact Hnew.
    + subst q. apply (Hold (statistics n1) Ha). simpl. simpl in Hm.
      intros E. rewrite E in Hm. destruct k; simpl in Hm; congruence.
    + apply (Hold s Hs). destruct Es as [->| ->]; exact Hm.
Qed.

Lemma root_has_no_ancestor (root : Node) :
  forall q s, is_prefix q (rev (@nil nat)) = true -> q <> rev [] ->
              view root q = Some s -> moves_ s = [].
Proof.
  intros q s Hpre Hne. simpl in *. apply is_prefix_nil_r in Hpre. congruence.
Qed.

(** Every completed iteration keeps the invariant. *)
Lemma iteration_inv (fuel : nat) (state : board) (root : Node)
      (g : default_random_engine) (done : nat)
      (root' : Node) (g' : default_random_engine) :
  tree_inv done root ->
  Z.of_nat done < MAX_ITERATIONS ->
  iteration fuel state root g = Some (root', g') ->
  tree_inv (S done) root'.
Proof.
  intros Hinv Hdone Hit.
  destruct (iteration_unfold _ _ _ _ _ _ Hit)
    as (root1 & node1 & b1 & root2 & node2 & b2 & n & bw & b3 & plies
        & Hs & He & Hn & Hr & ->).
  assert (Hvalid : deref root [] <> None) by (rewrite deref_root; congruence).
  destruct (selection_sound fuel root [] state root1 node1 b1 Hvalid
                            (root_has_no_ancestor root) Hs)
    as (Hview1 & Hv1 & Hc1 & Hanc1).
  destruct (deref root1 node1) as [n1|] eqn:Hn1; [|congruence].
  assert (Hbig : Z.of_nat done + 1 < SIZE_T_MOD).
  { unfold MAX_ITERATIONS, SIZE_T_MOD in *. lia. }
  assert (Ha : view root (rev node1) = Some (statistics n1)).
  { rewrite <- Hview1. unfold view. unfold deref in Hn1. rewrite Hn1. reflexivity. }
  destruct (has_untried_moves n1) eqn:Hm.
  - destruct (expansion_expands root1 node1 b1 g n1 root2 node2 b2 Hn1 Hm He)
      as (k & g1 & pos & Hpos & Hb2 & Hnode2 & Hroot2 & Hg1 & Hview2).
    cbv zeta in Hview2.
    assert (Hanc : forall q s, is_prefix q (rev node1) = true -> q <> rev node1 ->
                               view root q = Some s -> moves_ s = []).
    { intros q s Hpre Hne Hq. rewrite <- Hview1 in Hq. apply (Hanc1 q s Hpre Hne Hq). }
    assert (Hnew : view root (rev node1 ++ [length (children_ n1)]) = None).
    { rewrite <- Hview1. rewrite (view_app root1 n1 (rev node1) _ Hn1).
      unfold view. simpl.
      assert (E : nth_error (children_ n1) (length (children_ n1)) = None)
        by (apply nth_error_None; lia).
      rewrite E. reflexivity. }
    apply (tree_inv_expanded done root _ (rev node1) (length (children_ n1)) k
             (size_t_wrap (1 - bw)) pos n1
             (Node_new g b2 (size_t_wrap (1 - bw_ n1)) pos) g1 Hinv Hbig Ha
             Hanc Hnew Hpos);
      try reflexivity.
    + simpl. apply legal_moves_length.
    + intros q. rewrite view_backpropagation. rewrite Hnode2. simpl rev.
      rewrite Hview2, Hview1. reflexivity.
  - rewrite (expansion_stays root1 node1 b1 g n1 Hn1 Hm) in He.
    injection He as <- <- <-.
    apply (tree_inv_unexpanded done root _ (rev node1) (size_t_wrap (1 - bw)) Hinv Hbig).
    intros q. rewrite view_backpropagation, Hview1. reflexivity.
Qed.

End Phases.

(** ** The search loop *)

Section Loop.
Context {BO : BoardOracle} {RE : RandomEngine} {DO : DoubleOps}.

Lemma tree_inv_same_views (done : nat) (root root' : Node) :
  (forall q, view root' q = view root q) ->
  tree_inv done root -> tree_inv done root'.
Proof.
  intros Hv Hinv. constructor.
  - intros q s H. rewrite Hv in H. apply (inv_stats Hinv q H).
  - intros q s Hne H. rewrite Hv in H. apply (inv_visited Hinv Hne H).
  - intros q H. rewrite Hv in H. apply (inv_depth Hinv q H).
  - intros q s H. rewrite Hv in H. apply (inv_moves Hinv q H).
  - intros q s H. rewrite Hv in H. apply (inv_constant Hinv q H).
  - intros s H. rewrite Hv in H. apply (inv_root_moves Hinv H).
  - intros j s c H1 H2. rewrite Hv in H1, H2. apply (inv_root_fresh Hinv j H1 H2).
  - intros j k c d H1 H2. rewrite Hv in H1, H2. apply (inv_root_distinct Hinv j k H1 H2).
  - intros q s j k H1 H2. rewrite Hv in *. apply (inv_leaves Hinv q j k H1 H2).
Qed.

Lemma loop_head_inv (fuel : nat) (p : MCTS_player) (clock : nat -> bool)
      (state : board) (done : nat) (itr : Z) (root : Node)
      (g : default_random_engine) :
  loop_head fuel p clock state done itr root g ->
  itr = Z.of_nat done /\ itr <= INT_MAX /\ tree_inv done root.
Proof.
  induction 1 as [|done itr root g root' g' Hhead IH Hit Hitr Hclock Hcyc].
  - split; [reflexivity|]. split; [unfold INT_MAX; lia|apply tree_inv_root].
  - destruct IH as (-> & _ & Hinv). split; [lia|]. split; [lia|].
    apply (iteration_inv fuel state root g done root' g' Hinv); auto.
    unfold MAX_ITERATIONS, INT_MAX in *. lia.
Qed.

(** A root without untried moves and without children stays so: the
    selection loop does not start, nothing is expanded, and
    backpropagation updates the root alone. *)
Lemma iteration_barren (fuel : nat) (state : board) (root : Node)
      (g : default_random_engine) (root' : Node) (g' : default_random_engine) :
  moves_ root = [] -> children_ root = [] ->
  iteration fuel state root g = Some (root', g') ->
  moves_ root' = [] /\ children_ root' = [].
Proof.
  intros Hm Hc H. unfold iteration in H.
  assert (Hcond : selection_cond root [] = false).
  { unfold selection_cond. rewrite deref_root.
    unfold has_children. rewrite Hc. apply andb_false_r. }
  assert (Hsel : selection fuel root [] state = Some (root, [], state)).
  { destruct fuel; simpl; rewrite Hcond; reflexivity. }
  rewrite Hsel in H.
  assert (Hexp : expansion root [] state g = Some (root, [], state)).
  { apply (expansion_stays root [] state g root (deref_root root)).
    unfold has_untried_moves. rewrite Hm. reflexivity. }
  rewrite Hexp, deref_root in H.
  destruct (rollout fuel state (size_t_wrap (1 - get_player root)) g 0)
    as [[[[bw b3] g3] plies]|]; [|discriminate].
  injection H as <- <-. split; [exact Hm|exact Hc].
Qed.

Lemma search_loop_barren (fuel : nat) (cycles : Z) (clock : nat -> bool)
      (state : board) (loop_fuel : nat) :
  forall done itr root g n root' g',
    moves_ root = [] -> children_ root = [] ->
    search_loop loop_fuel fuel cycles clock state done itr root g = Some (n, root', g') ->
    children_ root' = [].
Proof.
  induction loop_fuel as [|loop_fuel IH]; intros done itr root g n root' g' Hm Hc H;
    simpl in H; [discriminate|].
  destruct (iteration fuel state root g) as [[root1 g1]|] eqn:Hit; [|discriminate].
  destruct (iteration_barren fuel state root g root1 g1 Hm Hc Hit) as (Hm1 & Hc1).
  destruct (INT_MAX <=? itr); [discriminate|].
  destruct (clock done && (itr + 1 <=? cycles)).
  - apply (IH _ _ _ _ _ _ _ Hm1 Hc1 H).
  - injection H as <- <- <-. exact Hc1.
Qed.

(** The loop returns the tree a body left behind at some loop head. *)
Lemma search_loop_head (fuel : nat) (p : MCTS_player) (clock : nat -> bool)
      (state : board) (loop_fuel : nat) :
  forall done itr root g n root' g',
    loop_head fuel p clock state done itr root g ->
    search_loop loop_fuel fuel (cycles p) clock state done itr root g
    = Some (n, root', g') ->
    exists done' itr' root0 g0,
      loop_head fuel p clock state done' itr' root0 g0 /\
      iteration fuel state root0 g0 = Some (root', g') /\
      n = S done'.
Proof.
  induction loop_fuel as [|loop_fuel IH]; intros done itr root g n root' g' Hhead H;
    simpl in H; [discriminate|].
  destruct (iteration fuel state root g) as [[root1 g1]|] eqn:Hit; [|discriminate].
  destruct (INT_MAX <=? itr) eqn:Hov; [discriminate|].
  apply Z.leb_gt in Hov.
  destruct (clock done && (itr + 1 <=? cycles p)) eqn:Hcont.
  - apply andb_true_iff in Hcont. destruct Hcont as [Hclock Hle].
    apply Z.leb_le in Hle.
    apply (IH (S done) (itr + 1) root1 g1 n root' g'); auto.
    apply (head_next Hhead Hit); auto.
  - injection H as <- <- <-. exists done, itr, root, g. auto.
Qed.

Lemma search_during_search (loop_fuel fuel : nat) (p : MCTS_player)
      (clock : nat -> bool) (state : board)
      (n : nat) (root : Node) (g : default_random_engine) :
  search loop_fuel fuel p clock state = Some (n, root, g) ->
  during_search fuel p clock state root.
Proof.
  unfold search. intros H.
  destruct (search_loop_head fuel p clock state loop_fuel _ _ _ _ _ _ _
                             (head_first fuel p clock state) H)
    as (done' & itr' & root0 & g0 & Hhead & Hit & _).
  apply (after_backpropagation Hhead Hit).
Qed.

(** [children_] is a [std::vector<Node>], and [add_child] may relocate
    its elements.  When the driver is about to expand a node, the
    elements of that node's vector are leaves: no [parent_] pointer
    refers to an element that moves, and the addresses used here for
    [Node*] stay those of the same nodes. *)
Lemma expansion_among_leaves (fuel : nat) (p : MCTS_player)
      (clock : nat -> bool) (state : board)
      (done : nat) (itr : Z) (root : Node) (g : default_random_engine)
      (root1 : Node) (node1 : ptr) (b1 : board) (n1 c : Node) :
  loop_head fuel p clock state done itr root g ->
  selection fuel root [] state = Some (root1, node1, b1) ->
  deref root1 node1 = Some n1 ->
  has_untried_moves n1 = true ->
  In c (children_ n1) ->
  children_ c = [].
Proof.
  intros Hhead Hsel Hn1 Hm Hc.
  destruct (loop_head_inv _ _ _ _ _ _ _ _ Hhead) as (_ & _ & Hinv).
  assert (Hvalid : deref root [] <> None) by (rewrite deref_root; congruence).
  destruct (selection_sound fuel root [] state root1 node1 b1 Hvalid
                            (root_has_no_ancestor root) Hsel)
    as (Hview1 & _ & _ & _).
  pose proof (tree_inv_same_views done root root1 Hview1 Hinv) as Hinv1.
  destruct (In_nth_error _ _ Hc) as (j & Hj).
  destruct (children_ c) as [|d ds] eqn:Hd; [reflexivity|exfalso].
  assert (Hms : moves_ (statistics n1) <> []).
  { simpl. unfold has_untried_moves in Hm. destruct (moves_ n1); congruence. }
  pose proof (inv_leaves Hinv1 (rev node1) j 0%nat
                         (view_node root1 (rev node1) n1 Hn1) Hms) as Hnone.
  rewrite (view_app root1 n1 (rev node1) [j; 0%nat] Hn1) in Hnone.
  unfold view in Hnone. simpl in Hnone. rewrite Hj, Hd in Hnone. discriminate.
Qed.

(** C8. Both counters of a new node are zero, and at every stage of a
    search (at the top of the loop body, after selection, after
    expansion, after backpropagation) every node of the tree has
    [0 <= wins_ <= visits_]. *)
Theorem wins_le_visits_during_search (fuel : nat) (p : MCTS_player)
        (clock : nat -> bool) (state : board) (root : Node) :
  during_search fuel p clock state root ->
  (forall engine b who pos,
      visits_ (Node_new engine b who pos) = 0 /\
      wins_ (Node_new engine b who pos) = 0) /\
  (forall q x, get_down root q = Some x -> 0 <= wins_ x <= visits_ x).
Proof.
  intros Hobs. split; [intros; split; reflexivity|].
  assert (Hgoal : forall q s, view root q = Some s -> 0 <= wins_ s <= visits_ s).
  { destruct Hobs as [done itr root g Hhead
                     |done itr root g root1 node1 b1 Hhead Hsel
                     |done itr root g root1 node1 b1 root2 node2 b2 Hhead Hsel Hexp
                     |done itr root g root' g' Hhead Hit];
      destruct (loop_head_inv _ _ _ _ _ _ _ _ Hhead) as (Hitr & Hmax & Hinv).
    - intros q s H. apply (inv_stats Hinv q H).
    - assert (Hvalid : deref root [] <> None) by (rewrite deref_root; congruence).
      destruct (selection_sound fuel root [] state root1 node1 b1 Hvalid
                                (root_has_no_ancestor root) Hsel)
        as (Hview1 & _ & _ & _).
      intros q s H. rewrite Hview1 in H. apply (inv_stats Hinv q H).
    - assert (Hvalid : deref root [] <> None) by (rewrite deref_root; congruence).
      destruct (selection_sound fuel root [] state root1 node1 b1 Hvalid
                                (root_has_no_ancestor root) Hsel)
        as (Hview1 & Hv1 & _ & _).
      destruct (deref root1 node1) as [n1|] eqn:Hn1; [|congruence].
      assert (Ha : view root (rev node1) = Some (statistics n1)).
      { rewrite <- Hview1. apply view_node. exact Hn1. }
      destruct (has_untried_moves n1) eqn:Hm.
      + destruct (expansion_expands root1 node1 b1 g n1 root2 node2 b2 Hn1 Hm Hexp)
          as (k & g1 & pos & Hpos & Hb2 & Hnode2 & Hroot2 & Hg1 & Hview2).
        cbv zeta in Hview2. intros q s H. rewrite Hview2 in H.
        destruct (path_eq_dec q (rev node1)).
        * injection H as <-. apply (inv_stats Hinv _ Ha).
        * destruct (path_eq_dec q (rev node1 ++ [length (children_ n1)])).
          -- injection H as <-. simpl. lia.
          -- rewrite Hview1 in H. apply (inv_stats Hinv q H).
      + rewrite (expansion_stays root1 node1 b1 g n1 Hn1 Hm) in Hexp.
        injection Hexp as <- <- <-.
        intros q s H. rewrite Hview1 in H. apply (inv_stats Hinv q H).
    - assert (Hinv' : tree_inv (S done) root').
      { apply (iteration_inv fuel state root g done root' g' Hinv); auto.
        unfold MAX_ITERATIONS, INT_MAX in *. lia. }
      intros q s H. apply (inv_stats Hinv' q H). }
  intros q x Hx. apply (Hgoal q (statistics x)). apply view_node. exact Hx.
Qed.

(** C10. In a search, every child of every node the selection loop
    hands to [get_UCT_child] has been visited at least once, so neither
    division by [child.visits_] in the score is a division by zero. *)
Theorem selection_children_visited (fuel : nat) (p : MCTS_player)
        (clock : nat -> bool) (state : board)
        (done : nat) (itr : Z) (root : Node) (g : default_random_engine)
        (n child : Node) :
  loop_head fuel p clock state done itr root g ->
  In n (selection_calls fuel root [] state) ->
  In child (children_ n) ->
  1 <= visits_ child /\ visits_ child < SIZE_T_MOD /\ children_ n <> [].
Proof.
  intros Hhead Hn Hc.
  destruct (loop_head_inv _ _ _ _ _ _ _ _ Hhead) as (Hitr & Hmax & Hinv).
  destruct (selection_calls_spec fuel root [] state n Hn) as (Hne & a & Hview).
  destruct (In_nth_error _ _ Hc) as (j & Hj).
  assert (Hvc : view root (a ++ [j]) = Some (statistics child)).
  { rewrite <- Hview. unfold view. simpl. rewrite Hj. reflexivity. }
  assert (Hnil : a ++ [j] <> []) by (destruct a; discriminate).
  pose proof (inv_visited Hinv Hnil Hvc) as H1.
  destruct (inv_stats Hinv _ Hvc) as [_ H2].
  simpl in H1, H2. split; [exact H1|]. split; [|exact Hne].
  unfold SIZE_T_MOD, INT_MAX in *. lia.
Qed.

End Loop.

(** ** The final move *)

Section FinalMove.
Context {BO : BoardOracle} {RE : RandomEngine} {DO : DoubleOps}.

(** Up to 2^24 the conversion to [float] is exact. *)
Lemma float_of_size_t_exact (v : Z) : 0 <= v <= 2 ^ 24 -> float_of_size_t v = v.
Proof.
  intros H. unfold float_of_size_t.
  destruct (v <? 2 ^ 24) eqn:E; [reflexivity|].
  apply Z.ltb_ge in E. assert (v = 2 ^ 24) by lia. subst v. reflexivity.
Qed.

Lemma ratio_less_order (l : list (Z * Z)) : strict_weak_order_on ratio_less l.
Proof.
  unfold ratio_less. repeat split.
  - intros a _. apply Z.ltb_irrefl.
  - intros a b c _ _ _ H1 H2. apply Z.ltb_lt in H1, H2. apply Z.ltb_lt. lia.
  - intros a b c _ _ _ H1. apply Z.ltb_lt in H1.
    destruct (Z_lt_dec (snd a) (snd c)).
    + left. apply Z.ltb_lt. auto.
    + right. apply Z.ltb_lt. lia.
Qed.

Lemma map_emplace_In (k v : Z) (m : list (Z * Z)) (x : Z * Z) :
  In x (map_emplace k v m) -> In x m \/ x = (k, v).
Proof.
  induction m as [|[k' v'] m IH]; simpl.
  - intros [H|[]]; auto.
  - destruct (k <? k').
    + simpl. intros [H|H]; auto.
    + destruct (k =? k'); simpl; auto.
      intros [H|H]; auto. destruct (IH H); auto.
Qed.

Lemma map_emplace_keeps (k v : Z) (m : list (Z * Z)) (x : Z * Z) :
  In x m -> In x (map_emplace k v m).
Proof.
  induction m as [|[k' v'] m IH]; simpl; [tauto|].
  intros H. destruct (k <? k'); [simpl; auto|].
  destruct (k =? k'); simpl; auto. destruct H; auto.
Qed.

Lemma map_emplace_new (k v : Z) (m : list (Z * Z)) :
  ~ In k (map fst m) -> In (k, v) (map_emplace k v m).
Proof.
  induction m as [|[k' v'] m IH]; simpl; [auto|].
  intros H. destruct (k <? k'); [simpl; auto|].
  destruct (k =? k') eqn:E.
  - apply Z.eqb_eq in E. exfalso. apply H. auto.
  - simpl. right. apply IH. auto.
Qed.

Lemma map_emplace_keys (k v k' : Z) (m : list (Z * Z)) :
  In k' (map fst (map_emplace k v m)) -> k' = k \/ In k' (map fst m).
Proof.
  intros H. apply in_map_iff in H. destruct H as (x & <- & Hx).
  apply map_emplace_In in Hx. destruct Hx as [Hx| ->]; auto.
  right. apply in_map. auto.
Qed.

Lemma emplace_child_eq (m : list (Z * Z)) (child : Node) :
  emplace_child m child = map_emplace (pos_ child) (float_of_size_t (visits_ child)) m.
Proof. reflexivity. Qed.

Lemma fold_emplace_In (children : list Node) :
  forall m0 x,
    In x (fold_left emplace_child children m0) ->
    In x m0 \/
    exists c, In c children /\ x = (pos_ c, float_of_size_t (visits_ c)).
Proof.
  induction children as [|c cs IH]; intros m0 x H; simpl in *; auto.
  destruct (IH _ _ H) as [H1|(c' & Hc' & ->)].
  - rewrite emplace_child_eq in H1.
    apply map_emplace_In in H1. destruct H1 as [H1| ->]; eauto.
  - eauto.
Qed.

Lemma fold_emplace_keeps (children : list Node) :
  forall m0 x, In x m0 -> In x (fold_left emplace_child children m0).
Proof.
  induction children as [|c cs IH]; intros m0 x H; simpl; auto.
  apply IH. rewrite emplace_child_eq. apply map_emplace_keeps. auto.
Qed.

Lemma fold_emplace_all (children : list Node) :
  forall m0,
    NoDup (map pos_ children) ->
    (forall c, In c children -> ~ In (pos_ c) (map fst m0)) ->
    forall c, In c children ->
              In (pos_ c, float_of_size_t (visits_ c))
                 (fold_left emplace_child children m0).
Proof.
  induction children as [|c cs IH]; intros m0 Hnd Hfresh c' Hc'; simpl in *; [tauto|].
  inversion Hnd as [|? ? Hc Hcs]; subst.
  destruct Hc' as [->|Hc'].
  - apply fold_emplace_keeps. rewrite emplace_child_eq.
    apply map_emplace_new. apply Hfresh. auto.
  - apply IH; auto. intros d Hd Hin. rewrite emplace_child_eq in Hin.
    apply map_emplace_keys in Hin. destruct Hin as [Hin|Hin].
    + apply Hc. rewrite <- Hin. apply in_map. auto.
    + apply (Hfresh d); auto.
Qed.

(** The tail of [take_action] on a root whose children have distinct
    positions and visit counts that [float] holds exactly. *)
Lemma best_action_spec (who : Z) (root : Node) :
  NoDup (map pos_ (children_ root)) ->
  (forall c, In c (children_ root) -> 0 <= visits_ c <= 2 ^ 24) ->
  (children_ root = [] /\ best_action who root = Some action_none) \/
  (exists c, In c (children_ root) /\
             (forall c', In c' (children_ root) -> visits_ c' <= visits_ c) /\
             best_action who root =
             Some (action_place (pos_ c) (if who =? 1 then black else white))).
Proof.
  intros Hnd Hexact. unfold best_action.
  destruct (children_ root) as [|c0 cs] eqn:Hch; [left; auto|right].
  set (move_ratio := fold_left emplace_child (c0 :: cs) []).
  assert (Hall : forall c, In c (c0 :: cs) ->
                           In (pos_ c, float_of_size_t (visits_ c)) move_ratio).
  { apply fold_emplace_all; auto. }
  assert (Hne : move_ratio <> []).
  { intros E. specialize (Hall c0 (or_introl eq_refl)). rewrite E in Hall.
    destruct Hall. }
  destruct (max_element_spec _ ratio_less move_ratio Hne (ratio_less_order _))
    as (i & [bm v] & Hmax & Hnth & Hle & _).
  rewrite Hmax, Hnth.
  assert (Hin : In (bm, v) move_ratio) by (eapply nth_error_In; eauto).
  apply fold_emplace_In in Hin. destruct Hin as [[]|(c & Hc & E)].
  injection E as -> ->.
  exists c. split; [exact Hc|]. split; [|reflexivity].
  intros c' Hc'. specialize (Hle _ (Hall c' Hc')).
  unfold ratio_less in Hle. simpl in Hle. apply Z.ltb_ge in Hle.
  rewrite !float_of_size_t_exact in Hle by auto. exact Hle.
Qed.

Lemma tree_inv_children (done : nat) (root : Node) :
  tree_inv done root ->
  NoDup (map pos_ (children_ root)) /\
  (forall c, In c (children_ root) -> 0 <= visits_ c <= Z.of_nat done).
Proof.
  intros Hinv.
  assert (Hview : forall j c, nth_error (children_ root) j = Some c ->
                              view root [j] = Some (statistics c)).
  { intros j c H. unfold view. simpl. rewrite H. reflexivity. }
  split.
  - apply NoDup_nth_error. intros i j Hi E.
    rewrite length_map in Hi.
    rewrite !nth_error_map in E.
    destruct (nth_error (children_ root) i) as [c|] eqn:Hc.
    + destruct (nth_error (children_ root) j) as [d|] eqn:Hd; [|discriminate].
      simpl in E. injection E as E.
      apply (inv_root_distinct Hinv i j (Hview _ _ Hc) (Hview _ _ Hd)). exact E.
    + apply nth_error_None in Hc. lia.
  - intros c Hc. destruct (In_nth_error _ _ Hc) as (j & Hj).
    pose proof (inv_stats Hinv _ (Hview _ _ Hj)) as H. simpl in H. lia.
Qed.

End FinalMove.

(** ** Termination of the search and the iteration budget *)

Section Budget.
Context {BO : BoardOracle} {RE : RandomEngine} {DO : DoubleOps}.
Variable occupied : board -> Z -> bool.
Hypothesis Hboard : permanent_occupation occupied.
Hypothesis Hdraw : uniform_int_in_range.
Hypothesis Hfit : board_fits_size_t.

Lemma iteration_total (fuel : nat) (state : board) (root : Node)
      (g : default_random_engine) (done : nat) :
  tree_inv done root -> (done < fuel)%nat -> (space < fuel)%nat ->
  exists root' g', iteration fuel state root g = Some (root', g').
Proof.
  intros Hinv Hdone Hspace.
  assert (Hvalid : deref root [] <> None) by (rewrite deref_root; congruence).
  destruct (selection_total done fuel root [] state (inv_depth Hinv) Hvalid)
    as (root1 & node1 & b1 & Hs & Hview1 & Hv1 & Hc1); [simpl; lia|].
  destruct (deref root1 node1) as [n1|] eqn:Hn1; [|congruence].
  assert (Hlen : (length (moves_ n1) <= space)%nat).
  { apply (inv_moves Hinv (rev node1) (s := statistics n1)).
    rewrite <- Hview1. apply view_node. exact Hn1. }
  destruct (expansion_total root1 node1 b1 g n1 Hdraw Hfit Hn1 Hlen)
    as ([[root2 node2] b2] & He & Hv2).
  simpl in Hv2. destruct (deref root2 node2) as [n|] eqn:Hn; [|congruence].
  pose proof (free_cells_le occupied b2) as Hfree.
  destruct (rollout_total occupied Hboard Hdraw Hfit fuel b2
                          (size_t_wrap (1 - get_player n)) g 0%nat)
    as (bw & b3 & g' & plies & Hr & _); [lia|].
  unfold iteration. rewrite Hs, He, Hn, Hr. eauto.
Qed.

Lemma search_loop_total (fuel : nat) (cycles : Z) (clock : nat -> bool)
      (state : board) (loop_fuel : nat) :
  forall done root g,
    tree_inv done root ->
    Z.of_nat done <= cycles -> cycles < INT_MAX ->
    (Z.to_nat cycles < loop_fuel + done)%nat ->
    (Z.to_nat cycles < fuel)%nat -> (space < fuel)%nat ->
    exists n root' g',
      search_loop loop_fuel fuel cycles clock state done (Z.of_nat done) root g
      = Some (n, root', g') /\
      (done < n)%nat /\ Z.of_nat n <= cycles + 1 /\
      tree_inv n root' /\
      ((forall k, clock k = true) -> Z.of_nat n = cycles + 1).
Proof.
  induction loop_fuel as [|loop_fuel IH];
    intros done root g Hinv Hdone Hcyc Hlf Hfuel Hspace; [lia|].
  destruct (iteration_total fuel state root g done Hinv) as (root1 & g1 & Hit);
    [lia|lia|].
  assert (Hinv1 : tree_inv (S done) root1).
  { apply (iteration_inv fuel state root g done root1 g1 Hinv); auto.
    unfold MAX_ITERATIONS, INT_MAX in *. lia. }
  simpl. rewrite Hit.
  destruct (INT_MAX <=? Z.of_nat done) eqn:Hov.
  { apply Z.leb_le in Hov. lia. }
  destruct (clock done && (Z.of_nat done + 1 <=? cycles)) eqn:Hcont.
  - apply andb_true_iff in Hcont. destruct Hcont as [_ Hle]. apply Z.leb_le in Hle.
    replace (Z.of_nat done + 1) with (Z.of_nat (S done)) by lia.
    destruct (IH (S done) root1 g1 Hinv1) as (n & root' & g' & Hl & Hn1 & Hn2 & Hi & Hc);
      try lia.
    exists n, root', g'. split; [exact Hl|]. split; [lia|]. split; [lia|].
    split; [exact Hi|]. exact Hc.
  - exists (S done), root1, g1. split; [reflexivity|].
    split; [lia|]. split; [lia|]. split; [exact Hinv1|].
    intros Hclock. rewrite Hclock in Hcont. simpl in Hcont.
    apply Z.leb_gt in Hcont. lia.
Qed.




(** C1. For a cycle count below 2^24, [take_action] returns the move of
    a root child no other root child has more visits than, played by the
    agent's colour; when the root has no children it returns the default
    [action()], and so it does on a board without a legal move for the
    agent. *)
Theorem take_action_most_visited (p : MCTS_player) (clock : nat -> bool)
        (state : board) (loop_fuel fuel : nat) :
  0 <= cycles p < 2 ^ 24 ->
  (Z.to_nat (cycles p) < loop_fuel)%nat ->
  (Z.to_nat (cycles p) + space < fuel)%nat ->
  exists n root g,
    search loop_fuel fuel p clock state = Some (n, root, g) /\
    ((children_ root = [] /\
      take_action loop_fuel fuel p clock state = Some action_none) \/
     (exists c,
         In c (children_ root) /\
         (forall c', In c' (children_ root) -> visits_ c' <= visits_ c) /\
         take_action loop_fuel fuel p clock state =
         Some (action_place (pos_ c) (if who p =? 1 then black else white)))) /\
    (who p = 0 \/ who p = 1 -> legal_moves state (who p) = [] ->
     take_action loop_fuel fuel p clock state = Some action_none).
Proof.
  intros Hcyc Hlf Hfuel. unfold take_action, search.
  destruct (search_loop_total fuel (cycles p) clock state loop_fuel 0%nat
              (Node_new (engine p) state (size_t_wrap (1 - who p)) (Z.of_nat space))
              (engine p) (tree_inv_root _ _ _ _))
    as (n & root & g & Hl & Hn1 & Hn2 & Hinv & _);
    try (unfold INT_MAX; lia).
  change (Z.of_nat 0) with 0 in Hl. rewrite Hl.
  exists n, root, g. split; [reflexivity|].
  destruct (tree_inv_children n root Hinv) as (Hnd & Hvis).
  split.
  - apply best_action_spec; auto.
    intros c Hc. specialize (Hvis c Hc). lia.
  - intros Hwho Hnone.
    assert (Hmoves : moves_ (Node_new (engine p) state (size_t_wrap (1 - who p))
                                      (Z.of_nat space)) = []).
    { simpl. destruct Hwho as [E|E]; rewrite E in *; exact Hnone. }
    unfold best_action.
    rewrite (search_loop_barren fuel (cycles p) clock state loop_fuel _ _ _ _ _ _ _
                                Hmoves eq_refl Hl).
    reflexivity.
Qed.

End Budget.

(** ** Soundness of the loop *)

Section LoopSound.
Context {BO : BoardOracle} {RE : RandomEngine} {DO : DoubleOps}.

Lemma search_loop_sound (fuel : nat) (cycles : Z) (clock : nat -> bool)
      (state : board) (loop_fuel : nat) :
  forall done root g n root' g',
    tree_inv done root ->
    search_loop loop_fuel fuel cycles clock state done (Z.of_nat done) root g
    = Some (n, root', g') ->
    tree_inv n root'.
Proof.
  induction loop_fuel as [|loop_fuel IH]; intros done root g n root' g' Hinv H;
    simpl in H; [discriminate|].
  destruct (iteration fuel state root g) as [[root1 g1]|] eqn:Hit; [|discriminate].
  destruct (INT_MAX <=? Z.of_nat done) eqn:Hov; [discriminate|].
  apply Z.leb_gt in Hov.
  assert (Hinv1 : tree_inv (S done) root1).
  { apply (iteration_inv fuel state root g done root1 g1 Hinv); auto.
    unfold MAX_ITERATIONS, INT_MAX in *. lia. }
  destruct (clock done && (Z.of_nat done + 1 <=? cycles)).
  - replace (Z.of_nat done + 1) with (Z.of_nat (S done)) in H by lia.
    apply (IH (S done) root1 g1 n root' g' Hinv1 H).
  - injection H as <- <- <-. exact Hinv1.
Qed.

(** Whatever the player was configured with, every node of the tree a
    search returns carries the constant [0.25]. *)
Lemma search_constant (loop_fuel fuel : nat) (p : MCTS_player)
      (clock : nat -> bool) (state : board)
      (n : nat) (root : Node) (g : default_random_engine) :
  search loop_fuel fuel p clock state = Some (n, root, g) ->
  forall q x, get_down root q = Some x -> node_exploration_constant x = d_quarter.
Proof.
  unfold search. intros H q x Hx.
  assert (Hinv : tree_inv n root).
  { apply (search_loop_sound fuel (cycles p) clock state loop_fuel 0%nat
             (Node_new (engine p) state (size_t_wrap (1 - who p)) (Z.of_nat space))
             (engine p) n root g).
    - apply tree_inv_root.
    - exact H. }
  apply (inv_constant Hinv q (s := statistics x)). apply view_node. exact Hx.
Qed.

End LoopSound.

(** ** The concrete instance: contracts and evaluations *)

Lemma toy_permanent_occupation : permanent_occupation Toy.toy_occupied.
Proof.
  constructor; simpl; unfold Toy.toy_apply, Toy.toy_occupied.
  - intros pos who b. destruct (nth_error b (Z.to_nat pos)) as [[|]|]; simpl; congruence.
  - intros pos who b. destruct (nth_error b (Z.to_nat pos)) as [[|]|] eqn:E;
      simpl; try congruence.
    intros _. rewrite nth_error_replace_nth_eq; auto.
    apply nth_error_Some. congruence.
  - intros pos who b q. destruct (nth_error b (Z.to_nat pos)) as [[|]|] eqn:E;
      simpl; try congruence.
    intros _ Hq. destruct (Nat.eq_dec (Z.to_nat pos) (Z.to_nat q)) as [Heq|Hne].
    + rewrite <- Heq. rewrite nth_error_replace_nth_eq; auto.
      apply nth_error_Some. congruence.
    + rewrite nth_error_replace_nth_neq; auto.
Qed.

Lemma toy_uniform_int_in_range : uniform_int_in_range.
Proof.
  intros a b g H. simpl.
  pose proof (Z.mod_pos_bound (Toy.lcg_next g) (b - a + 1)). lia.
Qed.

Lemma toy_board_fits_size_t : board_fits_size_t.
Proof. unfold board_fits_size_t, space, SIZE_T_MOD. simpl. lia. Qed.

Lemma toy_first_iteration :
  iteration 8 Toy.one_left (Toy.toy_root Toy.one_left) 42 = Some Toy.after_first.
Proof. reflexivity. Qed.

Lemma toy_loop_head :
  loop_head 8 (Toy.toy_player 3 250) (fun _ => true) Toy.one_left 1 1
            (fst Toy.after_first) (snd Toy.after_first).
Proof.
  apply (head_next (p := Toy.toy_player 3 250) (clock := fun _ => true)
                   (root := Toy.toy_root Toy.one_left) (g := 42) (itr := 0)
                   (done := 0%nat)).
  - exact (@head_first Toy.toy_board Toy.toy_engine Toy.toy_double 8
                       (Toy.toy_player 3 250) (fun _ => true) Toy.one_left).
  - exact toy_first_iteration.
  - unfold INT_MAX. lia.
  - reflexivity.
  - simpl. lia.
Qed.

Lemma Z_ltb_order (l : list Z) : strict_weak_order_on Z.ltb l.
Proof.
  repeat split.
  - intros a _. apply Z.ltb_irrefl.
  - intros a b c _ _ _ H1 H2. apply Z.ltb_lt in H1, H2. apply Z.ltb_lt. lia.
  - intros a b c _ _ _ H1. apply Z.ltb_lt in H1.
    destruct (Z_lt_dec a c).
    + left. apply Z.ltb_lt. auto.
    + right. apply Z.ltb_lt. lia.
Qed.

Local Open Scope string_scope.

(** C4, as the code has it.  With [exp=2] on the command line the
    constructor stores 2.0 in [MCTS_player::exploration_constant], yet
    every node of the tree the search builds carries [0.25], and
    [0.25] is the weight in the score [get_UCT_child] compares. *)
Theorem exploration_option_not_used :
  MCTS_player_new [("role", "black"); ("exp", "2"); ("T", "3")]%list
  = returned Toy.configured_player /\
  cycles Toy.configured_player = 3 /\
  exploration_constant Toy.configured_player = 2000 /\
  search 8 8 Toy.configured_player (fun _ => true) Toy.empty_board
  = Some Toy.configured_search /\
  (forall q x, get_down (snd (fst Toy.configured_search)) q = Some x ->
               node_exploration_constant x = 250) /\
  (forall child,
      uct_score (snd (fst Toy.configured_search)) child =
      fadd (fdiv (double_of_size_t (wins_ child)) (double_of_size_t (visits_ child)))
           (fmul (fsqrt (fdiv (flog (double_of_size_t
                                       (visits_ (snd (fst Toy.configured_search)))))
                              (double_of_size_t (visits_ child))))
                 250)).
Proof.
  assert (Hs : search 8 8 Toy.configured_player (fun _ => true) Toy.empty_board
               = Some (fst (fst Toy.configured_search),
                       snd (fst Toy.configured_search),
                       snd Toy.configured_search)) by reflexivity.
  pose proof (@search_constant Toy.toy_board Toy.toy_engine Toy.toy_double
                8 8 Toy.configured_player (fun _ => true)
                Toy.empty_board _ _ _ Hs) as Hc.
  split; [reflexivity|]. split; [reflexivity|]. split; [reflexivity|].
  split; [reflexivity|]. split; [exact Hc|].
  intros child. unfold uct_score.
  rewrite (Hc [] (snd (fst Toy.configured_search)) eq_refl). reflexivity.
Qed.

Local Close Scope string_scope.

(** C5, as the code has it.  In the first iteration on the empty board
    the draw of [pop_untried_move] is made by the root's own copy of the
    engine, which alone advances; the driver's engine makes the three
    draws of the playout, starting from the state the copy started from,
    so that the draw of the expansion and the first draw of the playout
    consume the same engine state.  With one shared stream the driver's
    engine makes four draws, and the two searches end in different
    engine states. *)
Theorem expansion_draws_from_node_copy :
  search 1 8 (Toy.toy_player 0 250) (fun _ => true) Toy.empty_board
  = Some Toy.first_search /\
  search_shared 1 8 (Toy.toy_player 0 250) (fun _ => true) Toy.empty_board
  = Some Toy.first_search_shared /\
  engine_ (snd (fst Toy.first_search)) = Toy.lcg_next 42 /\
  snd Toy.first_search = Toy.lcg_next (Toy.lcg_next (Toy.lcg_next 42)) /\
  engine_ (snd (fst Toy.first_search_shared)) = 42 /\
  snd Toy.first_search_shared
  = Toy.lcg_next (Toy.lcg_next (Toy.lcg_next (Toy.lcg_next 42))) /\
  snd Toy.first_search <> snd Toy.first_search_shared /\
  snd (uniform_int 0 3 (engine (Toy.toy_player 0 250)))
  = snd (uniform_int 0 2 (engine (Toy.toy_player 0 250))).
Proof.
  split; [reflexivity|]. split; [reflexivity|]. split; [reflexivity|].
  split; [reflexivity|]. split; [reflexivity|]. split; [reflexivity|].
  split; [discriminate|]. reflexivity.
Qed.

(** C9 as stated fails: on a node without children the call returns,
    with the past-the-end address, and does not fail. *)
Lemma get_UCT_child_returns_without_error :
  children_ (Toy.toy_root Toy.full_board) = [] /\
  call_get_UCT_child (Toy.toy_root Toy.full_board)
  = returned (Toy.toy_root Toy.full_board, None) /\
  call_get_UCT_child (Toy.toy_root Toy.full_board) <> failed.
Proof.
  split; [reflexivity|]. split; [reflexivity|]. discriminate.
Qed.

(** C3 as stated fails on a node whose first child has no visit.  With
    the special values of IEEE 754 the score of that child is the NaN
    of [0/0] and the score of the second child is 1.0; no comparison
    with the NaN holds, so [std::max_element] keeps the first child,
    whose score is not the largest.  The call also changes the node:
    it writes the scores into the children. *)
Lemma get_UCT_child_keeps_unvisited_first :
  map visits_ (children_ Ieee.unvisited_first) = [0; 1] /\
  map (uct_score Ieee.unvisited_first) (children_ Ieee.unvisited_first)
  = [Ieee.NaN; Ieee.Num 1000] /\
  (forall y : Ieee.xdouble, Ieee.xlt Ieee.NaN y = false /\ Ieee.xlt y Ieee.NaN = false) /\
  snd (get_UCT_child Ieee.unvisited_first) = Some 0%nat /\
  fst (get_UCT_child Ieee.unvisited_first) <> Ieee.unvisited_first.
Proof.
  split; [reflexivity|]. split; [reflexivity|].
  split; [intros y; destruct y; split; reflexivity|].
  split; [reflexivity|]. discriminate.
Qed.

(** ** The theorems on the concrete instance *)

Lemma take_action_most_visited_witness :
  0 <= cycles (Toy.toy_player 3 250) < 2 ^ 24 /\
  exists n root g,
    search 4 8 (Toy.toy_player 3 250) (fun _ => true) Toy.empty_board
    = Some (n, root, g) /\
    ((children_ root = [] /\
      take_action 4 8 (Toy.toy_player 3 250) (fun _ => true) Toy.empty_board
      = Some action_none) \/
     (exists c,
         In c (children_ root) /\
         (forall c', In c' (children_ root) -> visits_ c' <= visits_ c) /\
         take_action 4 8 (Toy.toy_player 3 250) (fun _ => true) Toy.empty_board
         = Some (action_place (pos_ c) black))).
Proof.
  split; [simpl; lia|].
  destruct (@take_action_most_visited Toy.toy_board Toy.toy_engine Toy.toy_double
              Toy.toy_occupied toy_permanent_occupation
              toy_uniform_int_in_range toy_board_fits_size_t
              (Toy.toy_player 3 250) (fun _ => true) Toy.empty_board 4%nat 8%nat)
    as (n & root & g & Hs & Hbest & _).
  - simpl. lia.
  - simpl. lia.
  - unfold space. simpl. lia.
  - exists n, root, g. split; [exact Hs|exact Hbest].
Defined.

Lemma backpropagation_updates_path_once_witness :
  iteration 8 Toy.one_left (Toy.toy_root Toy.one_left) 42
  = Some (fst Toy.after_first, snd Toy.after_first) /\
  exists root2 node2 winner,
    forall q,
      view (fst Toy.after_first) q =
      if is_prefix q (rev node2)
      then option_map (fun x => update (winner =? bw_ x) x) (view root2 q)
      else view root2 q.
Proof.
  split; [exact toy_first_iteration|].
  destruct (@backpropagation_updates_path_once Toy.toy_board Toy.toy_engine Toy.toy_double
              8 Toy.one_left (Toy.toy_root Toy.one_left)
              42 (fst Toy.after_first) (snd Toy.after_first) toy_first_iteration)
    as (root1 & node1 & b1 & root2 & node2 & b2 & n & bw & b3 & plies
        & _ & _ & _ & _ & H & _).
  exists root2, node2, (size_t_wrap (1 - bw)). exact H.
Defined.

Lemma get_UCT_child_first_maximal_witness :
  children_ Toy.two_children <> [] /\
  strict_weak_order_on flt (map (uct_score Toy.two_children)
                                (children_ Toy.two_children)) /\
  (forall c, In c (children_ Toy.two_children) ->
             ~ is_nan (uct_score Toy.two_children c)) /\
  exists i c,
    snd (get_UCT_child Toy.two_children) = Some i /\
    nth_error (children_ Toy.two_children) i = Some c /\
    ~ is_nan (uct_score Toy.two_children c) /\
    (forall c', In c' (children_ Toy.two_children) ->
                flt (uct_score Toy.two_children c) (uct_score Toy.two_children c') = false) /\
    get_UCT_child (fst (get_UCT_child Toy.two_children)) = get_UCT_child Toy.two_children.
Proof.
  assert (H1 : children_ Toy.two_children <> []) by discriminate.
  assert (H2 : strict_weak_order_on flt (map (uct_score Toy.two_children)
                                             (children_ Toy.two_children)))
    by apply Z_ltb_order.
  assert (H3 : forall c, In c (children_ Toy.two_children) ->
                         ~ is_nan (uct_score Toy.two_children c)).
  { intros c _ Hnan. destruct (Hnan (uct_score Toy.two_children c + 1)) as [H _].
    apply Z.ltb_ge in H. lia. }
  split; [exact H1|]. split; [exact H2|]. split; [exact H3|].
  destruct (get_UCT_child_first_maximal Toy.two_children H1 H2 H3)
    as (i & c & Hi & Hc & Hnum & _ & Hmax & _ & _ & _ & _ & _ & Hagain).
  exists i, c. auto.
Defined.


Lemma rollout_terminates_within_cells_witness :
  permanent_occupation Toy.toy_occupied /\
  uniform_int_in_range /\ board_fits_size_t /\ (space < 5)%nat /\
  exists bw' b' g' plies,
    rollout 5 Toy.empty_board 1 42 0 = Some (bw', b', g', plies) /\
    (plies <= space)%nat /\
    legal_moves b' bw' = [].
Proof.
  assert (H : (space < 5)%nat) by (unfold space; simpl; lia).
  split; [exact toy_permanent_occupation|].
  split; [exact toy_uniform_int_in_range|].
  split; [exact toy_board_fits_size_t|].
  split; [exact H|].
  apply (@rollout_terminates_within_cells Toy.toy_board Toy.toy_engine
           Toy.toy_occupied toy_permanent_occupation
           toy_uniform_int_in_range toy_board_fits_size_t
           Toy.empty_board 1 42 5 H).
Defined.

Lemma wins_le_visits_during_search_witness :
  during_search 8 (Toy.toy_player 3 250) (fun _ => true) Toy.one_left
                (fst Toy.after_first) /\
  forall q x, get_down (fst Toy.after_first) q = Some x -> 0 <= wins_ x <= visits_ x.
Proof.
  assert (H : during_search 8 (Toy.toy_player 3 250) (fun _ => true) Toy.one_left
                            (fst Toy.after_first)).
  { apply (at_head toy_loop_head). }
  split; [exact H|].
  apply (@wins_le_visits_during_search Toy.toy_board Toy.toy_engine Toy.toy_double
           8 (Toy.toy_player 3 250) (fun _ => true)
           Toy.one_left (fst Toy.after_first) H).
Defined.

Lemma get_UCT_child_no_children_witness :
  children_ (Toy.toy_root Toy.one_left) = [] /\
  call_get_UCT_child (Toy.toy_root Toy.one_left)
  = returned (set_children [] (Toy.toy_root Toy.one_left), None).
Proof.
  assert (H : children_ (Toy.toy_root Toy.one_left) = []) by reflexivity.
  split; [exact H|].
  destruct (@get_UCT_child_no_children Toy.toy_board Toy.toy_engine Toy.toy_double
              (Toy.toy_root Toy.one_left) H) as (H1 & _).
  exact H1.
Defined.

Lemma selection_children_visited_witness :
  loop_head 8 (Toy.toy_player 3 250) (fun _ => true) Toy.one_left 1 1
            (fst Toy.after_first) (snd Toy.after_first) /\
  In (fst Toy.after_first) (selection_calls 8 (fst Toy.after_first) [] Toy.one_left) /\
  forall child,
    In child (children_ (fst Toy.after_first)) ->
    1 <= visits_ child /\ visits_ child < SIZE_T_MOD /\
    children_ (fst Toy.after_first) <> [].
Proof.
  assert (H : In (fst Toy.after_first)
                 (selection_calls 8 (fst Toy.after_first) [] Toy.one_left)).
  { left. reflexivity. }
  split; [exact toy_loop_head|]. split; [exact H|].
  intros child Hc.
  apply (@selection_children_visited Toy.toy_board Toy.toy_engine Toy.toy_double
           8 (Toy.toy_player 3 250) (fun _ => true)
           Toy.one_left 1 1 (fst Toy.after_first) (snd Toy.after_first)
           (fst Toy.after_first) child toy_loop_head H Hc).
Defined.

(** ** Counting visits *)

Section ShapeFacts.
Context {BO : BoardOracle} {RE : RandomEngine} {DO : DoubleOps}.

Lemma sum_upto_ext (f g : nat -> Z) (k : nat) :
  (forall j, (j < k)%nat -> f j = g j) -> sum_upto f k = sum_upto g k.
Proof.
  induction k as [|k IH]; intros H; simpl; [reflexivity|].
  rewrite IH, (H k) by (intros; try apply H; lia). reflexivity.
Qed.

Lemma sum_upto_bump (f g : nat -> Z) (k j0 : nat) :
  (j0 < k)%nat ->
  (forall j, (j < k)%nat -> g j = f j + (if Nat.eqb j j0 then 1 else 0)) ->
  sum_upto g k = sum_upto f k + 1.
Proof.
  induction k as [|k IH]; intros Hj H; [lia|]. simpl.
  rewrite (H k) by lia.
  destruct (Nat.eqb k j0) eqn:E.
  - apply Nat.eqb_eq in E. subst j0.
    rewrite (sum_upto_ext g f k); [lia|].
    intros j Hjk. rewrite (H j) by lia.
    destruct (Nat.eqb j k) eqn:E'; [apply Nat.eqb_eq in E'; lia|lia].
  - apply Nat.eqb_neq in E. rewrite IH; [lia|lia|].
    intros j Hjk. apply H. lia.
Qed.

Lemma sum_upto_zero (f : nat -> Z) (k : nat) :
  (forall j, (j < k)%nat -> f j = 0) -> sum_upto f k = 0.
Proof.
  induction k as [|k IH]; intros H; simpl; [reflexivity|].
  rewrite IH, (H k) by (intros; try apply H; lia). reflexivity.
Qed.

Lemma sum_upto_list (l : list Z) :
  fold_right Z.add 0 l
  = sum_upto (fun j => match nth_error l j with Some v => v | None => 0 end) (length l).
Proof.
  induction l as [|x l IH] using rev_ind; [reflexivity|].
  rewrite length_app. simpl length. rewrite Nat.add_1_r. simpl.
  rewrite fold_right_app. simpl.
  rewrite nth_error_app2 by lia. rewrite Nat.sub_diag. simpl.
  assert (E : forall (l : list Z) a, fold_right Z.add a l = fold_right Z.add 0 l + a).
  { clear. induction l as [|y l IH]; intros a; simpl; [lia|]. rewrite IH. lia. }
  rewrite E, IH. f_equal; [|lia].
  apply sum_upto_ext. intros j Hj. rewrite nth_error_app1 by lia. reflexivity.
Qed.

(** The children of the node at [q], seen from the root. *)
Lemma view_child (root : Node) (q : list nat) (n : Node) (j : nat) :
  get_down root q = Some n ->
  view root (q ++ [j]) = option_map statistics (nth_error (children_ n) j).
Proof.
  intros H. rewrite (view_app root n q [j] H). unfold view. simpl.
  destruct (nth_error (children_ n) j); reflexivity.
Qed.

Lemma children_visits_kids_sum (root : Node) (q : list nat) (n : Node) :
  get_down root q = Some n ->
  children_visits n = kids_sum root q (length (children_ n)).
Proof.
  intros H. unfold children_visits, kids_sum. rewrite sum_upto_list.
  rewrite length_map. apply sum_upto_ext. intros j Hj.
  unfold visits_at. rewrite (view_child root q n j H), nth_error_map.
  destruct (nth_error (children_ n) j); reflexivity.
Qed.

Lemma view_child_none (root : Node) (q : list nat) (n : Node) (j : nat) :
  get_down root q = Some n -> (length (children_ n) <= j)%nat ->
  view root (q ++ [j]) = None.
Proof.
  intros H Hj. rewrite (view_child root q n j H).
  assert (E : nth_error (children_ n) j = None) by (apply nth_error_None; lia).
  rewrite E. reflexivity.
Qed.

End ShapeFacts.

(** ** One iteration, by cases *)

Section Step.
Context {BO : BoardOracle} {RE : RandomEngine} {DO : DoubleOps}.

(** What a completed iteration does to the views of the tree: either
    nothing is expanded, the path ends at a node [a] without untried
    moves and without children, and the nodes on the path are updated;
    or the node at [a] loses the untried move at index [k], the leaf
    [new] for it appears at [a ++ [i]], and the nodes on the path to the
    leaf are updated. *)
Lemma iteration_cases (fuel : nat) (state : board) (root : Node)
      (g : default_random_engine) (root' : Node) (g' : default_random_engine) :
  iteration fuel state root g = Some (root', g') ->
  (exists a w s,
      view root a = Some s /\ moves_ s = [] /\
      (forall j, view root (a ++ [j]) = None) /\
      (forall q, view root' q =
                 if is_prefix q a then option_map (backprop_update w) (view root q)
                 else view root q))
  \/
  (exists a i k w pos n1 b g1,
      let new := Node_new g b (size_t_wrap (1 - bw_ n1)) pos in
      view root a = Some (statistics n1) /\
      (forall q s, is_prefix q a = true -> q <> a -> view root q = Some s ->
                   moves_ s = []) /\
      view root (a ++ [i]) = None /\
      nth_error (moves_ n1) k = Some pos /\
      (a = [] -> b = snd (place_apply pos (color (size_t_wrap (1 - bw_ n1))) state)) /\
      (forall q,
          view root' q =
          if is_prefix q (a ++ [i])
          then option_map (backprop_update w)
                          (if path_eq_dec q a then Some (statistics (popped k g1 n1))
                           else if path_eq_dec q (a ++ [i]) then Some (statistics new)
                                else view root q)
          else if path_eq_dec q a then Some (statistics (popped k g1 n1))
               else if path_eq_dec q (a ++ [i]) then Some (statistics new)
                    else view root q)).
Proof.
  intros Hit.
  destruct (iteration_unfold _ _ _ _ _ _ Hit)
    as (root1 & node1 & b1 & root2 & node2 & b2 & n & bw & b3 & plies
        & Hs & He & Hn & Hr & ->).
  assert (Hvalid : deref root [] <> None) by (rewrite deref_root; congruence).
  destruct (selection_sound fuel root [] state root1 node1 b1 Hvalid
                            (root_has_no_ancestor root) Hs)
    as (Hview1 & Hv1 & Hc1 & Hanc1).
  destruct (deref root1 node1) as [n1|] eqn:Hn1; [|congruence].
  assert (Ha : view root (rev node1) = Some (statistics n1)).
  { rewrite <- Hview1. apply view_node. exact Hn1. }
  destruct (has_untried_moves n1) eqn:Hm.
  - right.
    destruct (expansion_expands root1 node1 b1 g n1 root2 node2 b2 Hn1 Hm He)
      as (k & g1 & pos & Hpos & Hb2 & Hnode2 & Hroot2 & Hg1 & Hview2).
    cbv zeta in Hview2.
    exists (rev node1), (length (children_ n1)), k, (size_t_wrap (1 - bw)), pos, n1, b2, g1.
    cbv zeta. split; [exact Ha|]. split.
    { intros q s Hpre Hne Hq. rewrite <- Hview1 in Hq. apply (Hanc1 q s Hpre Hne Hq). }
    split.
    { rewrite <- Hview1. apply (view_child_none root1 (rev node1) n1); auto. }
    split; [exact Hpos|]. split.
    { intros E. rewrite Hb2.
      assert (Hnode1 : node1 = []).
      { destruct node1 as [|x l]; [reflexivity|]. simpl in E.
        apply (f_equal (@length nat)) in E. rewrite length_app in E. simpl in E. lia. }
      subst node1.
      assert (Hb1 : b1 = state).
      { destruct fuel; simpl in Hs.
        - destruct (selection_cond root []); [discriminate|]. congruence.
        - destruct (selection_cond root []) eqn:Hcond.
          + exfalso. unfold selection_cond in Hcond. rewrite deref_root in Hcond.
            destruct (selection_body_spec root [] state root (deref_root root))
              as (r1 & i1 & bb & Hb & _ & _).
            { apply andb_true_iff in Hcond. tauto. }
            rewrite Hb in Hs.
            assert (Hlen : forall f r nd b0 r' nd' b',
                       selection f r nd b0 = Some (r', nd', b') ->
                       (length nd <= length nd')%nat).
            { clear. induction f as [|f IH]; intros r nd b0 r' nd' b' H; simpl in H.
              - destruct (selection_cond r nd); [discriminate|].
                injection H as _ <- _. lia.
              - destruct (selection_cond r nd).
                + destruct (selection_body r nd b0) as [[[r1 nd1] bb1]|] eqn:Hb;
                    [|discriminate].
                  apply IH in H.
                  unfold selection_body in Hb.
                  destruct (deref r nd) as [m|]; [|discriminate].
                  destruct (get_UCT_child m) as [m' [ix|]]; [|discriminate].
                  destruct (deref (store r nd (fun _ => m')) (ix :: nd)) as [c|];
                    [|discriminate].
                  destruct (get_move c). injection Hb as _ <- _. simpl in H. lia.
                + injection H as _ <- _. lia. }
            apply Hlen in Hs. simpl in Hs. lia.
          + congruence. }
      rewrite Hb1. reflexivity. }
    intros q. rewrite view_backpropagation. rewrite Hnode2. simpl rev.
    rewrite Hview2, Hview1. reflexivity.
  - left. rewrite (expansion_stays root1 node1 b1 g n1 Hn1 Hm) in He.
    injection He as <- <- <-.
    exists (rev node1), (size_t_wrap (1 - bw)), (statistics n1).
    split; [exact Ha|]. split.
    { simpl. unfold has_untried_moves in Hm. destruct (moves_ n1); [reflexivity|discriminate]. }
    split.
    { intros j. rewrite <- Hview1.
      apply (view_child_none root1 (rev node1) n1); auto.
      unfold selection_cond in Hc1. rewrite Hn1, Hm in Hc1. simpl in Hc1.
      unfold has_children in Hc1. destruct (children_ n1); [simpl; lia|discriminate]. }
    intros q. rewrite view_backpropagation, Hview1. reflexivity.
Qed.

End Step.

(** ** Conservation of visits *)

Section Conservation.
Context {BO : BoardOracle} {RE : RandomEngine} {DO : DoubleOps}.

Lemma is_prefix_next_unique (q P : list nat) (j0 j : nat) :
  is_prefix (q ++ [j0]) P = true -> is_prefix (q ++ [j]) P = Nat.eqb j j0.
Proof.
  revert P; induction q as [|x q IH]; intros P H; simpl in *.
  - destruct P as [|y P]; [discriminate|].
    rewrite andb_true_r in *. apply Nat.eqb_eq in H. subst y.
    reflexivity.
  - destruct P as [|y P]; [discriminate|].
    apply andb_true_iff in H. destruct H as [H1 H2]. rewrite H1. simpl.
    apply IH. exact H2.
Qed.

Lemma is_prefix_next (q P : list nat) :
  is_prefix q P = true -> q <> P -> exists j0, is_prefix (q ++ [j0]) P = true.
Proof.
  intros H Hne. apply is_prefix_spec in H. destruct H as ([|j r] & ->).
  - rewrite app_nil_r in Hne. congruence.
  - exists j. apply is_prefix_spec. exists r. rewrite <- app_assoc. reflexivity.
Qed.

Lemma is_prefix_shorter (q P : list nat) (j : nat) :
  is_prefix (q ++ [j]) P = true -> is_prefix q P = true /\ q <> P.
Proof.
  intros H. apply is_prefix_spec in H. destruct H as (r & ->). split.
  - apply is_prefix_spec. exists ([j] ++ r). rewrite app_assoc. reflexivity.
  - intros E. apply (f_equal (@length nat)) in E. rewrite !length_app in E.
    simpl in E. lia.
Qed.

Lemma view_of_prefix (root : Node) (x P : list nat) :
  is_prefix x P = true -> view root P <> None -> view root x <> None.
Proof.
  intros H HP. apply is_prefix_spec in H. destruct H as (r & ->).
  apply (view_prefix root x r HP).
Qed.

Lemma visits_bump (w : Z) (s : Node) (D : Z) :
  0 <= visits_ s <= D -> D + 1 < SIZE_T_MOD ->
  visits_ (backprop_update w s) = visits_ s + 1.
Proof.
  intros H1 H2. unfold backprop_update, update, size_t_wrap. simpl.
  apply Z.mod_small. lia.
Qed.

(** A completed iteration, by its effect on the tree: there is a path
    [P], the path of the node the playout started from, such that the
    visit count rises by one at the nodes on [P] and nowhere else; the
    node at [P] is the only one that may be new, and is then a leaf
    visited once whose parent had an untried move; when it is not new it
    has neither untried moves nor children; no node leaves the tree, and
    no node gains an untried move or changes its colour or position. *)
Lemma iteration_step (fuel : nat) (state : board) (root : Node)
      (g : default_random_engine) (done : nat)
      (root' : Node) (g' : default_random_engine) :
  tree_inv done root ->
  Z.of_nat done < MAX_ITERATIONS ->
  iteration fuel state root g = Some (root', g') ->
  exists P,
    (forall x, visits_at root' x
               = visits_at root x + (if is_prefix x P then 1 else 0)) /\
    view root' P <> None /\
    (forall x, view root' x <> None -> view root x <> None \/ x = P) /\
    (forall x, view root x <> None -> view root' x <> None) /\
    (forall x s s', view root x = Some s -> view root' x = Some s' ->
                    bw_ s' = bw_ s /\ pos_ s' = pos_ s /\
                    (moves_ s' <> [] -> moves_ s <> []) /\
                    (length (moves_ s') <= length (moves_ s))%nat) /\
    ((exists s, view root P = Some s /\ moves_ s = [] /\
                forall j, view root (P ++ [j]) = None) \/
     (view root P = None /\
      (forall j, view root' (P ++ [j]) = None) /\
      exists a i s, P = a ++ [i] /\ view root a = Some s /\ moves_ s <> [])).
Proof.
  intros Hinv Hdone Hit.
  assert (Hbig : Z.of_nat done + 1 < SIZE_T_MOD).
  { unfold MAX_ITERATIONS, SIZE_T_MOD in *. lia. }
  assert (Hbump : forall w x s, view root x = Some s ->
                                visits_ (backprop_update w s) = visits_ s + 1).
  { intros w x s Hx. destruct (inv_stats Hinv x Hx) as [H1 H2].
    apply (visits_bump w s (Z.of_nat done)); lia. }
  destruct (iteration_cases fuel state root g root' g' Hit)
    as [(a & w & sa & Ha & Hma & Hleaf & HV)
       |(a & i & k & w & pos & n1 & b & g1 & Ha & Hanc & Hnew & Hk & _ & HV)].
  - (* nothing expanded *)
    assert (Hex : forall x, is_prefix x a = true -> view root x <> None).
    { intros x Hx. apply (view_of_prefix root x a Hx). congruence. }
    exists a. split; [|split; [|split; [|split; [|split]]]].
    + intros x. unfold visits_at. rewrite HV.
      destruct (is_prefix x a) eqn:Hpre.
      * specialize (Hex x Hpre). destruct (view root x) as [s|] eqn:Hx; [|congruence].
        simpl. apply (Hbump w x s Hx).
      * lia.
    + rewrite HV, is_prefix_refl, Ha. discriminate.
    + intros x Hx. left. rewrite HV in Hx.
      destruct (is_prefix x a); destruct (view root x); simpl in *; congruence.
    + intros x Hx. rewrite HV.
      destruct (is_prefix x a); destruct (view root x); simpl in *; congruence.
    + intros x s s' Hx Hx'. rewrite HV, Hx in Hx'.
      destruct (is_prefix x a); simpl in Hx'; injection Hx' as <-; simpl; auto.
    + left. exists sa. auto.
  - (* the node at [a] expanded *)
    cbv zeta in HV.
    set (new := Node_new g b (size_t_wrap (1 - bw_ n1)) pos) in *.
    assert (Hex : forall x, is_prefix x a = true -> view root x <> None).
    { intros x Hx. apply (view_of_prefix root x a Hx). congruence. }
    assert (Hai : a <> a ++ [i]).
    { intros E. apply (f_equal (@length nat)) in E. rewrite length_app in E.
      simpl in E. lia. }
    exists (a ++ [i]). split; [|split; [|split; [|split; [|split]]]].
    + intros x. unfold visits_at. rewrite HV.
      destruct (path_eq_dec x a) as [->|Hxa].
      * rewrite is_prefix_app, Ha. simpl.
        change (visits_ (backprop_update w (statistics n1)) = visits_ n1 + 1).
        apply (Hbump w a (statistics n1) Ha).
      * destruct (path_eq_dec x (a ++ [i])) as [->|Hxi].
        -- rewrite is_prefix_refl, Hnew. simpl. reflexivity.
        -- destruct (is_prefix x (a ++ [i])) eqn:Hpre.
           ++ apply is_prefix_snoc in Hpre. destruct Hpre as [Hpre|Hpre]; [|congruence].
              specialize (Hex x Hpre).
              destruct (view root x) as [s|] eqn:Hx; [|congruence].
              simpl. apply (Hbump w x s Hx).
           ++ lia.
    + rewrite HV, is_prefix_refl.
      destruct (path_eq_dec (a ++ [i]) a); [congruence|].
      destruct (path_eq_dec (a ++ [i]) (a ++ [i])); [discriminate|congruence].
    + intros x Hx. rewrite HV in Hx.
      destruct (path_eq_dec x a) as [->|Hxa]; [left; congruence|].
      destruct (path_eq_dec x (a ++ [i])) as [->|Hxi]; [right; reflexivity|].
      left. destruct (is_prefix x (a ++ [i])); destruct (view root x);
        simpl in *; congruence.
    + intros x Hx. rewrite HV.
      destruct (path_eq_dec x a) as [->|Hxa].
      { destruct (is_prefix a (a ++ [i])); discriminate. }
      destruct (path_eq_dec x (a ++ [i])) as [->|Hxi]; [congruence|].
      destruct (is_prefix x (a ++ [i])); destruct (view root x);
        simpl in *; congruence.
    + intros x s s' Hx Hx'. rewrite HV in Hx'.
      destruct (path_eq_dec x a) as [->|Hxa].
      * rewrite is_prefix_app in Hx'. simpl in Hx'. injection Hx' as <-.
        rewrite Ha in Hx. injection Hx as <-. simpl.
        split; [reflexivity|]. split; [reflexivity|]. split.
        -- intros _ E. rewrite E in Hk. destruct k; discriminate.
        -- apply erase_nth_length_le.
      * destruct (path_eq_dec x (a ++ [i])) as [->|Hxi]; [congruence|].
        rewrite Hx in Hx'.
        destruct (is_prefix x (a ++ [i])); simpl in Hx'; injection Hx' as <-;
          simpl; auto.
    + right. split; [exact Hnew|]. split.
      * intros j. rewrite HV.
        assert (H1 : is_prefix ((a ++ [i]) ++ [j]) (a ++ [i]) = false).
        { destruct (is_prefix ((a ++ [i]) ++ [j]) (a ++ [i])) eqn:E; [|reflexivity].
          apply is_prefix_length in E. rewrite !length_app in E. simpl in E. lia. }
        rewrite H1.
        destruct (path_eq_dec ((a ++ [i]) ++ [j]) a) as [E|_].
        { apply (f_equal (@length nat)) in E. rewrite !length_app in E. simpl in E. lia. }
        destruct (path_eq_dec ((a ++ [i]) ++ [j]) (a ++ [i])) as [E|_].
        { apply (f_equal (@length nat)) in E. rewrite !length_app in E. simpl in E. lia. }
        destruct (view root ((a ++ [i]) ++ [j])) eqn:E; [|reflexivity].
        exfalso. apply (view_prefix root (a ++ [i]) [j]); congruence.
      * exists a, i, (statistics n1). split; [reflexivity|]. split; [exact Ha|].
        simpl. intros E. rewrite E in Hk. destruct k; discriminate.
Qed.

Lemma kids_sum_step (root root' : Node) (P q : list nat) (K : nat) :
  (forall x, visits_at root' x
             = visits_at root x + (if is_prefix x P then 1 else 0)) ->
  kids_sum root' q K
  = kids_sum root q K +
    (if existsb (fun j => is_prefix (q ++ [j]) P) (seq 0 K) then 1 else 0).
Proof.
  intros HS. unfold kids_sum.
  destruct (existsb (fun j => is_prefix (q ++ [j]) P) (seq 0 K)) eqn:E.
  - apply existsb_exists in E. destruct E as (j0 & Hj0 & Hpre).
    apply in_seq in Hj0.
    apply (sum_upto_bump _ _ K j0); [lia|].
    intros j Hj. rewrite HS, (is_prefix_next_unique q P j0 j Hpre). reflexivity.
  - rewrite Z.add_0_r. apply sum_upto_ext. intros j Hj. rewrite HS.
    assert (Hf : is_prefix (q ++ [j]) P = false).
    { destruct (is_prefix (q ++ [j]) P) eqn:E'; [|reflexivity].
      assert (Hex : existsb (fun j => is_prefix (q ++ [j]) P) (seq 0 K) = true).
      { apply existsb_exists. exists j. split; [apply in_seq; lia|exact E']. }
      congruence. }
    rewrite Hf. lia.
Qed.

Lemma visits_conserved_step (fuel : nat) (state : board) (root : Node)
      (g : default_random_engine) (done : nat)
      (root' : Node) (g' : default_random_engine) :
  tree_inv done root ->
  Z.of_nat done < MAX_ITERATIONS ->
  visits_conserved root ->
  iteration fuel state root g = Some (root', g') ->
  visits_conserved root'.
Proof.
  intros Hinv Hdone Hcons Hit.
  destruct (iteration_step fuel state root g done root' g' Hinv Hdone Hit)
    as (P & HS & HP & Hdom & Hkeep & Hsame & Hend).
  intros q s' K Hq HK Hcond.
  assert (HKroot : forall j, (K <= j)%nat -> view root (q ++ [j]) = None).
  { intros j Hj. destruct (view root (q ++ [j])) eqn:E; [|reflexivity].
    exfalso. apply (Hkeep (q ++ [j])); [congruence|apply HK; exact Hj]. }
  assert (Hvis : visits_ s' = visits_at root' q).
  { unfold visits_at. rewrite Hq. reflexivity. }
  assert (Hlen : forall j, q ++ [j] <> q).
  { intros j E. apply (f_equal (@length nat)) in E. rewrite length_app in E.
    simpl in E. lia. }
  destruct (path_eq_dec q P) as [->|HqP].
  - destruct Hend as [(s & Hs & Hms & Hleaf)|(Hnew & Hleaf & a & i & sa & -> & Hsa & Hma)].
    + exfalso. destruct (Hsame P s s' Hs Hq) as (_ & _ & Hm & _).
      destruct Hcond as [Hc|(j & Hj)].
      * apply (Hm Hc). exact Hms.
      * destruct (Hdom _ Hj) as [Hj'|Hj'].
        -- apply Hj'. apply Hleaf.
        -- apply (Hlen j Hj').
    + rewrite Hvis, HS, is_prefix_refl. unfold visits_at. rewrite Hnew.
      unfold kids_sum. rewrite sum_upto_zero.
      * destruct a; reflexivity.
      * intros j _. unfold visits_at. rewrite Hleaf. reflexivity.
  - assert (Hroot : view root q <> None).
    { destruct (Hdom q) as [H|H]; [congruence|exact H|congruence]. }
    destruct (view root q) as [s|] eqn:Hs; [|congruence].
    destruct (Hsame q s s' Hs Hq) as (_ & _ & Hm & _).
    assert (Hcond0 : moves_ s <> [] \/ exists j, view root (q ++ [j]) <> None).
    { destruct Hcond as [Hc|(j & Hj)]; [left; auto|].
      destruct (Hdom _ Hj) as [Hj'|Hj']; [right; eauto|].
      destruct Hend as [(sp & Hsp & _)|(_ & _ & a & i & sa & E & Hsa & Hma)].
      - right. exists j. rewrite Hj', Hsp. discriminate.
      - left. rewrite E in Hj'. apply app_inj_tail in Hj'. destruct Hj' as [-> _].
        rewrite Hsa in Hs. injection Hs as <-. exact Hma. }
    pose proof (Hcons q s K Hs HKroot Hcond0) as IH.
    rewrite Hvis, HS. unfold visits_at at 1. rewrite Hs.
    rewrite (kids_sum_step root root' P q K HS), IH.
    destruct (is_prefix q P) eqn:Hpre.
    + destruct (is_prefix_next q P Hpre HqP) as (j0 & Hj0).
      assert (HjK : (j0 < K)%nat).
      { destruct (le_lt_dec K j0) as [Hle|Hlt]; [exfalso|exact Hlt].
        apply (view_of_prefix root' (q ++ [j0]) P Hj0 HP). apply HK. exact Hle. }
      assert (Hex : existsb (fun j => is_prefix (q ++ [j]) P) (seq 0 K) = true).
      { apply existsb_exists. exists j0. split; [apply in_seq; lia|exact Hj0]. }
      rewrite Hex. lia.
    + assert (Hex : existsb (fun j => is_prefix (q ++ [j]) P) (seq 0 K) = false).
      { destruct (existsb (fun j => is_prefix (q ++ [j]) P) (seq 0 K)) eqn:E;
          [|reflexivity].
        apply existsb_exists in E. destruct E as (j & _ & Hj).
        apply is_prefix_shorter in Hj. destruct Hj as [Hj _]. congruence. }
      rewrite Hex. lia.
Qed.

Lemma visits_conserved_root (engine : default_random_engine) (b : board) (who pos : Z) :
  visits_conserved (Node_new engine b who pos).
Proof.
  intros q s K Hq HK _.
  assert (Hv : forall x, view (Node_new engine b who pos) x <> None -> x = []).
  { intros [|j x]; [reflexivity|]. unfold view. simpl.
    destruct j; simpl; intros H; exfalso; apply H; reflexivity. }
  assert (Eq : q = []) by (apply Hv; congruence). subst q.
  injection Hq as <-. simpl.
  unfold kids_sum. rewrite sum_upto_zero; [reflexivity|].
  intros j _. unfold visits_at.
  destruct (view (Node_new engine b who pos) ([] ++ [j])) eqn:E; [|reflexivity].
  assert (H : [] ++ [j] = []) by (apply Hv; congruence). discriminate.
Qed.

Lemma bodies_run_inv (fuel : nat) (p : MCTS_player) (clock : nat -> bool)
      (state : board) (done : nat) (root : Node) (g : default_random_engine) :
  bodies_run fuel p clock state done root g ->
  tree_inv done root /\ visits_conserved root /\ visits_ root = Z.of_nat done /\
  Z.of_nat done <= MAX_ITERATIONS.
Proof.
  assert (Hhead : forall done itr root g,
             loop_head fuel p clock state done itr root g ->
             tree_inv done root /\ visits_conserved root /\
             visits_ root = Z.of_nat done /\ Z.of_nat done < MAX_ITERATIONS).
  { clear. induction 1 as [|done itr root g root' g' Hhead IH Hit Hitr Hclock Hcyc].
    - split; [apply tree_inv_root|]. split; [apply visits_conserved_root|].
      split; [reflexivity|]. unfold MAX_ITERATIONS. simpl. lia.
    - destruct IH as (Hinv & Hcons & Hvis & Hlt).
      destruct (loop_head_inv _ _ _ _ _ _ _ _ Hhead) as (-> & _ & _).
      split; [apply (iteration_inv fuel state root g done root' g' Hinv Hlt Hit)|].
      split; [apply (visits_conserved_step fuel state root g done root' g' Hinv Hlt Hcons Hit)|].
      split.
      + destruct (iteration_step fuel state root g done root' g' Hinv Hlt Hit)
          as (P & HS & _).
        specialize (HS []). unfold visits_at in HS. simpl in HS. rewrite HS, Hvis. lia.
      + unfold MAX_ITERATIONS, INT_MAX in *. lia. }
  intros [done' itr root0 g0 H|done' itr root0 g0 root' g1 H Hit].
  - destruct (Hhead _ _ _ _ H) as (H1 & H2 & H3 & H4).
    split; [exact H1|]. split; [exact H2|]. split; [exact H3|]. lia.
  - destruct (Hhead _ _ _ _ H) as (Hinv & Hcons & Hvis & Hlt).
    split; [apply (iteration_inv fuel state root0 g0 done' root' g1 Hinv Hlt Hit)|].
    split; [apply (visits_conserved_step fuel state root0 g0 done' root' g1 Hinv Hlt Hcons Hit)|].
    split.
    + destruct (iteration_step fuel state root0 g0 done' root' g1 Hinv Hlt Hit)
        as (P & HS & _).
      specialize (HS []). unfold visits_at in HS. simpl in HS. rewrite HS, Hvis. lia.
    + lia.
Qed.

Lemma search_bodies_run (loop_fuel fuel : nat) (p : MCTS_player)
      (clock : nat -> bool) (state : board)
      (n : nat) (root : Node) (g : default_random_engine) :
  search loop_fuel fuel p clock state = Some (n, root, g) ->
  bodies_run fuel p clock state n root g.
Proof.
  unfold search. intros H.
  destruct (search_loop_head fuel p clock state loop_fuel _ _ _ _ _ _ _
                             (head_first fuel p clock state) H)
    as (done' & itr' & root0 & g0 & Hhead & Hit & ->).
  apply (run_body Hhead Hit).
Qed.

End Conservation.

(** ** The moves the root offers *)

Section Offers.
Context {BO : BoardOracle} {RE : RandomEngine} {DO : DoubleOps}.

Lemma erase_nth_In_inv (A : Type) (k : nat) (x y : A) (l : list A) :
  nth_error l k = Some x -> In y l -> y = x \/ In y (erase_nth k l).
Proof.
  revert k; induction l as [|z l IH]; intros [|k] Hk Hy; simpl in *;
    try discriminate.
  - injection Hk as ->. destruct Hy; auto.
  - destruct Hy as [->|Hy]; auto.
    destruct (IH k Hk Hy); auto.
Qed.

Lemma root_mover_who (p : MCTS_player) :
  who p = 0 \/ who p = 1 -> root_mover p = who p.
Proof. intros [E|E]; unfold root_mover; rewrite E; reflexivity. Qed.

Lemma view_root (root : Node) : view root [] = Some (statistics root).
Proof. reflexivity. Qed.

Lemma root_offers_step (p : MCTS_player) (fuel : nat) (state : board) (root : Node)
      (g : default_random_engine) (root' : Node) (g' : default_random_engine) :
  root_offers p state root ->
  iteration fuel state root g = Some (root', g') ->
  root_offers p state root'.
Proof.
  intros Hoff Hit pos. rewrite (Hoff pos).
  destruct (iteration_cases fuel state root g root' g' Hit)
    as [(a & w & sa & Ha & Hma & Hleaf & HV)
       |(a & i & k & w & mv & n1 & b & g1 & Ha & Hanc & Hnew & Hk & _ & HV)].
  - pose proof (origin_unexpanded (view root) (view root') a w HV) as Horigin.
    assert (Hm : moves_ root' = moves_ root).
    { destruct (Horigin [] (statistics root') (view_root root')) as (s & Hs & Es).
      rewrite view_root in Hs. injection Hs as <-.
      change (moves_ (statistics root') = moves_ (statistics root)).
      destruct Es as [->| ->]; reflexivity. }
    rewrite Hm. apply or_iff_compat_l. split.
    + intros (j & c & Hc & <-).
      assert (Hc' : view root' [j] <> None).
      { rewrite HV, Hc. destruct (is_prefix [j] a); discriminate. }
      destruct (view root' [j]) as [c'|] eqn:E; [|congruence].
      exists j, c'. split; [exact E|].
      destruct (Horigin [j] c' E) as (s & Hs & Es).
      rewrite Hc in Hs. injection Hs as <-. destruct Es as [->| ->]; reflexivity.
    + intros (j & c' & Hc' & <-).
      destruct (Horigin [j] c' Hc') as (s & Hs & Es).
      exists j, s. split; [exact Hs|]. destruct Es as [->| ->]; reflexivity.
  - cbv zeta in HV.
    set (new := Node_new g b (size_t_wrap (1 - bw_ n1)) mv) in *.
    pose proof (origin_expanded (view root) (view root') a i w
                                (statistics (popped k g1 n1)) (statistics new) HV)
      as Horigin.
    assert (Hkeep : forall x c, view root x = Some c -> x <> a ->
                                exists c', view root' x = Some c' /\ pos_ c' = pos_ c).
    { intros x c Hx Hxa. rewrite HV.
      destruct (path_eq_dec x a); [congruence|].
      destruct (path_eq_dec x (a ++ [i])) as [->|_]; [congruence|].
      rewrite Hx. destruct (is_prefix x (a ++ [i])); simpl; eauto. }
    assert (Hata : exists c', view root' a = Some c' /\ pos_ c' = pos_ n1 /\
                              moves_ c' = erase_nth k (moves_ n1)).
    { rewrite HV. destruct (path_eq_dec a a); [|congruence].
      rewrite is_prefix_app. simpl. eauto. }
    assert (Hati : exists c', view root' (a ++ [i]) = Some c' /\ pos_ c' = mv).
    { rewrite HV. rewrite is_prefix_refl.
      destruct (path_eq_dec (a ++ [i]) a) as [E|_].
      { apply (f_equal (@length nat)) in E. rewrite length_app in E. simpl in E. lia. }
      destruct (path_eq_dec (a ++ [i]) (a ++ [i])); [|congruence].
      simpl. eauto. }
    destruct (list_eq_dec Nat.eq_dec a []) as [->|Hane].
    + (* the root itself expanded *)
      rewrite view_root in Ha.
      assert (Hst : statistics root = statistics n1) by congruence.
      assert (Hm : moves_ root = moves_ n1).
      { change (moves_ (statistics root) = moves_ (statistics n1)).
        rewrite Hst. reflexivity. }
      destruct Hata as (r' & Hr' & _ & Hmr'). rewrite view_root in Hr'.
      assert (Hst' : statistics root' = r') by congruence.
      assert (Hm' : moves_ root' = erase_nth k (moves_ n1)).
      { change (moves_ (statistics root') = erase_nth k (moves_ n1)).
        rewrite Hst'. exact Hmr'. }
      rewrite Hm, Hm'. simpl app in *.
      split.
      * intros [Hin|(j & c & Hc & <-)].
        -- destruct (erase_nth_In_inv _ k mv pos (moves_ n1) Hk Hin) as [->|H]; auto.
           right. destruct Hati as (c' & Hc' & Hp). eauto.
        -- right. destruct (Hkeep [j] c Hc) as (c' & Hc' & Hp); [discriminate|]. eauto.
      * intros [Hin|(j & c' & Hc' & <-)].
        -- left. eapply erase_nth_In; eauto.
        -- destruct (Horigin [j] c' Hc') as [(E & ->)|[(E & _)|(_ & _ & c & Hc & Ec)]].
           ++ left. simpl. eapply nth_error_In; eauto.
           ++ discriminate.
           ++ right. exists j, c. split; [exact Hc|].
              destruct Ec as [->| ->]; reflexivity.
    + (* a node below the root expanded *)
      assert (Hm : moves_ root' = moves_ root).
      { destruct (Horigin [] (statistics root') (view_root root'))
          as [(E & _)|[(E & _)|(_ & _ & s & Hs & Es)]].
        - exfalso. apply (nil_not_snoc a i E).
        - congruence.
        - rewrite view_root in Hs. injection Hs as <-.
          change (moves_ (statistics root') = moves_ (statistics root)).
          destruct Es as [->| ->]; reflexivity. }
      rewrite Hm. apply or_iff_compat_l. split.
      * intros (j & c & Hc & <-).
        destruct (path_eq_dec [j] a) as [E|E].
        -- destruct Hata as (c' & Hc' & Hp & _). exists j, c'. rewrite E.
           split; [exact Hc'|]. rewrite Hp. rewrite E, Ha in Hc.
           injection Hc as <-. reflexivity.
        -- destruct (Hkeep [j] c Hc E) as (c' & Hc' & Hp). eauto.
      * intros (j & c' & Hc' & <-).
        destruct (Horigin [j] c' Hc') as [(E & _)|[(E & ->)|(_ & _ & c & Hc & Ec)]].
        -- apply snoc_singleton in E. destruct E as [E _]. congruence.
        -- exists j, (statistics n1). rewrite E. split; [exact Ha|reflexivity].
        -- exists j, c. split; [exact Hc|]. destruct Ec as [->| ->]; reflexivity.
Qed.

Lemma root_offers_new (p : MCTS_player) (state : board) :
  root_offers p state
    (Node_new (engine p) state (size_t_wrap (1 - who p)) (Z.of_nat space)).
Proof.
  intros pos. simpl. unfold root_mover. split; [auto|].
  intros [H|(j & c & Hc & _)]; [exact H|].
  unfold view in Hc. simpl in Hc. destruct j; discriminate.
Qed.

Lemma bodies_run_offers (fuel : nat) (p : MCTS_player) (clock : nat -> bool)
      (state : board) (done : nat) (root : Node) (g : default_random_engine) :
  bodies_run fuel p clock state done root g -> root_offers p state root.
Proof.
  assert (Hhead : forall done itr root g,
             loop_head fuel p clock state done itr root g -> root_offers p state root).
  { clear. induction 1 as [|done itr root g root' g' Hhead IH Hit Hitr Hclock Hcyc].
    - apply root_offers_new.
    - apply (root_offers_step p fuel state root g root' g' IH Hit). }
  intros [done' itr root0 g0 H|done' itr root0 g0 root' g1 H Hit].
  - apply (Hhead _ _ _ _ H).
  - apply (root_offers_step p fuel state root0 g0 root' g1 (Hhead _ _ _ _ H) Hit).
Qed.

End Offers.

(** ** Invariants of the tree *)

Section TreeTheorems.
Context {BO : BoardOracle} {RE : RandomEngine} {DO : DoubleOps}.

(** X1. When [done] bodies of the loop have run (at the top of the next
    body, or in the tree the last body left), the root has been visited
    [done] times: its [visits_] counts the iterations, and its [wins_]
    lies between 0 and that count. *)
Theorem root_visits_count_iterations (fuel : nat) (p : MCTS_player)
        (clock : nat -> bool) (state : board)
        (done : nat) (root : Node) (g : default_random_engine) :
  bodies_run fuel p clock state done root g ->
  visits_ root = Z.of_nat done /\ 0 <= wins_ root <= Z.of_nat done.
Proof.
  intros H. destruct (bodies_run_inv fuel p clock state done root g H)
    as (Hinv & _ & Hvis & _).
  split; [exact Hvis|].
  pose proof (inv_stats Hinv [] (view_root root)) as Hs. simpl in Hs. lia.
Qed.

Lemma kids_sum_nonneg (done : nat) (root : Node) (q : list nat) (K : nat) :
  tree_inv done root -> 0 <= kids_sum root q K.
Proof.
  intros Hinv. unfold kids_sum. induction K as [|K IH]; simpl; [lia|].
  assert (0 <= visits_at root (q ++ [K])); [|lia].
  unfold visits_at. destruct (view root (q ++ [K])) as [s|] eqn:E; [|lia].
  pose proof (inv_stats Hinv _ E). lia.
Qed.

(** X2. When [done] bodies of the loop have run, the visit counts of
    the children of any node of the tree sum to at most the visit count
    of the node. *)
Theorem children_visits_le_visits (fuel : nat) (p : MCTS_player)
        (clock : nat -> bool) (state : board)
        (done : nat) (root : Node) (g : default_random_engine)
        (q : list nat) (n : Node) :
  bodies_run fuel p clock state done root g ->
  get_down root q = Some n ->
  0 <= children_visits n <= visits_ n.
Proof.
  intros H Hn. destruct (bodies_run_inv fuel p clock state done root g H)
    as (Hinv & Hcons & _ & _).
  rewrite (children_visits_kids_sum root q n Hn).
  split; [apply (kids_sum_nonneg done); exact Hinv|].
  destruct (children_ n) as [|c cs] eqn:Hc.
  - unfold kids_sum. simpl.
    pose proof (inv_stats Hinv q (view_node root q n Hn)) as Hs.
    simpl in Hs. lia.
  - rewrite <- Hc.
    assert (E : visits_ (statistics n)
                = kids_sum root q (length (children_ n)) + first_visit q).
    { apply (Hcons q (statistics n) (length (children_ n)) (view_node root q n Hn)).
      - intros j Hj. apply (view_child_none root q n j Hn Hj).
      - right. exists 0%nat. rewrite (view_child root q n 0 Hn), Hc. discriminate. }
    simpl in E. rewrite E. destruct q; simpl; lia.
Qed.

(** X3. When [done] bodies of the loop have run, a node that has a
    child or an untried move has been visited once for every visit of a
    child and, unless it is the root, once more, in the iteration that
    created it; for such a root the visit counts of its children sum to
    the number of iterations. *)
Theorem visits_conservation (fuel : nat) (p : MCTS_player)
        (clock : nat -> bool) (state : board)
        (done : nat) (root : Node) (g : default_random_engine)
        (q : list nat) (n : Node) :
  bodies_run fuel p clock state done root g ->
  get_down root q = Some n ->
  children_ n <> [] \/ moves_ n <> [] ->
  visits_ n = children_visits n + first_visit q /\
  (q = [] -> children_visits n = Z.of_nat done).
Proof.
  intros H Hn Hcond. destruct (bodies_run_inv fuel p clock state done root g H)
    as (Hinv & Hcons & Hvis & _).
  rewrite (children_visits_kids_sum root q n Hn).
  assert (E : visits_ (statistics n)
              = kids_sum root q (length (children_ n)) + first_visit q).
  { apply (Hcons q (statistics n) (length (children_ n)) (view_node root q n Hn)).
    - intros j Hj. apply (view_child_none root q n j Hn Hj).
    - destruct Hcond as [Hc|Hm]; [right|left; exact Hm].
      exists 0%nat. rewrite (view_child root q n 0 Hn).
      destruct (children_ n); [congruence|discriminate]. }
  simpl in E. split; [exact E|].
  intros ->. simpl in Hn. injection Hn as <-. simpl in E. lia.
Qed.

Lemma view_root_child (root : Node) (j : nat) (c : Node) :
  view root [j] = Some c ->
  exists c0, nth_error (children_ root) j = Some c0 /\ c = statistics c0.
Proof.
  unfold view. simpl. destruct (nth_error (children_ root) j) as [c0|]; simpl;
    [|discriminate].
  intros E. exists c0. split; [reflexivity|congruence].
Qed.

Lemma bodies_run_legal_moves (fuel : nat) (p : MCTS_player)
      (clock : nat -> bool) (state : board)
      (done : nat) (root : Node) (g : default_random_engine) :
  bodies_run fuel p clock state done root g ->
  who p = 0 \/ who p = 1 ->
  forall pos, In pos (legal_moves state (who p)) <->
              In pos (moves_ root ++ map pos_ (children_ root)).
Proof.
  intros H Hwho.
  pose proof (bodies_run_offers fuel p clock state done root g H) as Hoff.
  unfold root_offers in Hoff. rewrite (root_mover_who p Hwho) in Hoff.
  intros pos. rewrite Hoff, in_app_iff. apply or_iff_compat_l. split.
  - intros (j & c & Hc & <-). destruct (view_root_child root j c Hc) as (c0 & Hc0 & ->).
    apply in_map_iff. exists c0. split; [reflexivity|].
    eapply nth_error_In; eauto.
  - intros Hin. apply in_map_iff in Hin. destruct Hin as (c0 & <- & Hc0).
    destruct (In_nth_error _ _ Hc0) as (j & Hj).
    exists j, (statistics c0). split; [|reflexivity].
    unfold view. simpl. rewrite Hj. reflexivity.
Qed.

(** X4. When [done] bodies of the loop have run, the untried moves of
    the root and the positions of its children are, together and
    without repetition, the legal moves of the agent on the board
    [take_action] was given. *)
Theorem root_moves_partition_legal_moves (fuel : nat) (p : MCTS_player)
        (clock : nat -> bool) (state : board)
        (done : nat) (root : Node) (g : default_random_engine) :
  bodies_run fuel p clock state done root g ->
  who p = 0 \/ who p = 1 ->
  (forall pos, In pos (legal_moves state (who p)) <->
               In pos (moves_ root ++ map pos_ (children_ root))) /\
  NoDup (moves_ root ++ map pos_ (children_ root)) /\
  (length (moves_ root) + length (children_ root)
   = length (legal_moves state (who p)))%nat.
Proof.
  intros H Hwho.
  pose proof (bodies_run_legal_moves fuel p clock state done root g H Hwho) as Hiff.
  destruct (bodies_run_inv fuel p clock state done root g H) as (Hinv & _ & _ & _).
  assert (Hnd : NoDup (moves_ root ++ map pos_ (children_ root))).
  { apply NoDup_app.
    - apply (inv_root_moves Hinv (view_root root)).
    - apply (tree_inv_children done root Hinv).
    - intros pos Hm Hc. apply in_map_iff in Hc. destruct Hc as (c0 & <- & Hc0).
      destruct (In_nth_error _ _ Hc0) as (j & Hj).
      apply (inv_root_fresh Hinv j (s := statistics root) (c := statistics c0)).
      + apply view_root.
      + unfold view. simpl. rewrite Hj. reflexivity.
      + exact Hm. }
  split; [exact Hiff|]. split; [exact Hnd|].
  rewrite <- (length_map pos_ (children_ root)), <- length_app.
  apply Nat.le_antisymm.
  - apply NoDup_incl_length; [exact Hnd|]. intros x Hx. apply Hiff. exact Hx.
  - apply NoDup_incl_length; [apply legal_moves_NoDup|]. intros x Hx. apply Hiff. exact Hx.
Qed.

(** X8. A body of the loop grows the tree by at most one node.  There
    is a path [P], from the root to the node the playout started from,
    such that every node of the old tree is still at its address, with
    its colour and position, no more untried moves and no fewer
    children than before, and a visit count one higher if it lies on
    [P] and unchanged otherwise; the only address that may be new is
    [P], and a node new there is a leaf visited once. *)
Theorem iteration_grows_tree_by_one_leaf (fuel : nat) (p : MCTS_player)
        (clock : nat -> bool) (state : board)
        (done : nat) (itr : Z) (root : Node) (g : default_random_engine)
        (root' : Node) (g' : default_random_engine) :
  loop_head fuel p clock state done itr root g ->
  iteration fuel state root g = Some (root', g') ->
  exists P,
    get_down root' P <> None /\
    (forall x n, get_down root x = Some n ->
                 exists n', get_down root' x = Some n' /\
                            bw_ n' = bw_ n /\ pos_ n' = pos_ n /\
                            (length (moves_ n') <= length (moves_ n))%nat /\
                            (length (children_ n) <= length (children_ n'))%nat /\
                            visits_ n' = visits_ n + (if is_prefix x P then 1 else 0)) /\
    (forall x, get_down root' x <> None -> get_down root x <> None \/ x = P) /\
    (get_down root P = None ->
     exists n', get_down root' P = Some n' /\ children_ n' = [] /\ visits_ n' = 1).
Proof.
  intros Hhead Hit.
  destruct (loop_head_inv _ _ _ _ _ _ _ _ Hhead) as (-> & Hmax & Hinv).
  assert (Hlt : Z.of_nat done < MAX_ITERATIONS).
  { unfold MAX_ITERATIONS, INT_MAX in *. lia. }
  destruct (iteration_step fuel state root g done root' g' Hinv Hlt Hit)
    as (P & HS & HP & Hdom & Hkeep & Hsame & Hend).
  assert (Hgv : forall r x, get_down r x <> None <-> view r x <> None).
  { intros r x. unfold view. destruct (get_down r x); simpl; split; congruence. }
  exists P. split; [apply Hgv; exact HP|]. split; [|split].
  - intros x n Hx.
    assert (Hx' : get_down root' x <> None).
    { apply Hgv. apply Hkeep. rewrite (view_node root x n Hx). discriminate. }
    destruct (get_down root' x) as [n'|] eqn:E; [|congruence].
    exists n'. split; [reflexivity|].
    destruct (Hsame x (statistics n) (statistics n') (view_node root x n Hx)
                    (view_node root' x n' E)) as (H1 & H2 & _ & H4).
    simpl in H1, H2, H4. split; [exact H1|]. split; [exact H2|]. split; [exact H4|].
    split.
    + destruct (le_lt_dec (length (children_ n)) (length (children_ n'))) as [Hle|Hgt];
        [exact Hle|exfalso].
      apply (Hkeep (x ++ [length (children_ n')])).
      * rewrite (view_child root x n _ Hx).
        destruct (nth_error (children_ n) (length (children_ n'))) eqn:E1;
          [discriminate|].
        apply nth_error_None in E1. lia.
      * apply (view_child_none root' x n' _ E). lia.
    + specialize (HS x). unfold visits_at in HS.
      rewrite (view_node root x n Hx), (view_node root' x n' E) in HS. exact HS.
  - intros x Hx. apply Hgv in Hx. destruct (Hdom x Hx) as [H|H]; [left|right; exact H].
    apply Hgv. exact H.
  - intros Hnone.
    destruct (get_down root' P) as [n'|] eqn:E.
    2:{ exfalso. apply HP. unfold view. rewrite E. reflexivity. }
    exists n'. split; [reflexivity|].
    destruct Hend as [(s & Hs & _)|(Hnew & Hleaf & _)].
    { unfold view in Hs. rewrite Hnone in Hs. discriminate. }
    split.
    + destruct (children_ n') as [|c cs] eqn:Hc; [reflexivity|exfalso].
      specialize (Hleaf 0%nat). rewrite (view_child root' P n' 0 E), Hc in Hleaf.
      discriminate.
    + specialize (HS P). unfold visits_at in HS.
      rewrite (view_node root' P n' E), Hnew, is_prefix_refl in HS.
      simpl in HS. exact HS.
Qed.

End TreeTheorems.

(** ** The move played *)

Section Moves.
Context {BO : BoardOracle} {RE : RandomEngine} {DO : DoubleOps}.

(** Whatever the visit counts, the move [take_action] plays from a root
    with children is the move of one of them. *)
Lemma best_action_child (who : Z) (root : Node) :
  children_ root <> [] ->
  exists c, In c (children_ root) /\
            best_action who root = Some (action_place (pos_ c) (color who)).
Proof.
  intros Hne. unfold best_action.
  destruct (children_ root) as [|c0 cs] eqn:Hch; [congruence|].
  set (move_ratio := fold_left emplace_child (c0 :: cs) []).
  assert (Hin0 : In (pos_ c0, float_of_size_t (visits_ c0)) move_ratio).
  { unfold move_ratio. simpl. apply fold_emplace_keeps.
    rewrite emplace_child_eq. simpl. auto. }
  assert (Hne' : move_ratio <> []).
  { intros E. rewrite E in Hin0. destruct Hin0. }
  destruct (max_element_Some _ ratio_less move_ratio Hne') as (i & Hi & Hlt).
  rewrite Hi.
  destruct (nth_error move_ratio i) as [[bm v]|] eqn:Hnth.
  - assert (Hin : In (bm, v) move_ratio) by (eapply nth_error_In; eauto).
    apply fold_emplace_In in Hin. destruct Hin as [[]|(c & Hc & E)].
    injection E as -> ->. exists c. split; [exact Hc|reflexivity].
  - apply nth_error_None in Hnth. lia.
Qed.

Section Budgeted.
Variable occupied : board -> Z -> bool.
Hypothesis Hboard : permanent_occupation occupied.
Hypothesis Hdraw : uniform_int_in_range.
Hypothesis Hfit : board_fits_size_t.

Lemma take_action_moves (p : MCTS_player) (clock : nat -> bool)
      (state : board) (loop_fuel fuel : nat) :
  who p = 0 \/ who p = 1 ->
  0 <= cycles p < INT_MAX ->
  (Z.to_nat (cycles p) < loop_fuel)%nat ->
  (Z.to_nat (cycles p) + space < fuel)%nat ->
  (legal_moves state (who p) = [] /\
   take_action loop_fuel fuel p clock state = Some action_none) \/
  (exists pos,
      In pos (legal_moves state (who p)) /\
      take_action loop_fuel fuel p clock state
      = Some (action_place pos (color (who p)))).
Proof.
  intros Hwho Hcyc Hlf Hfuel. unfold take_action.
  destruct (search_loop_total occupied Hboard Hdraw Hfit
              fuel (cycles p) clock state loop_fuel 0%nat
              (Node_new (engine p) state (size_t_wrap (1 - who p)) (Z.of_nat space))
              (engine p) (tree_inv_root _ _ _ _))
    as (n & root & g & Hl & Hn1 & Hn2 & Hinv & _); try lia.
  change (Z.of_nat 0) with 0 in Hl.
  assert (Hs : search loop_fuel fuel p clock state = Some (n, root, g)) by exact Hl.
  rewrite Hs.
  pose proof (search_bodies_run loop_fuel fuel p clock state n root g Hs) as Hrun.
  pose proof (bodies_run_legal_moves fuel p clock state n root g Hrun Hwho) as Hiff.
  destruct (bodies_run_inv fuel p clock state n root g Hrun) as (_ & Hcons & Hvis & _).
  destruct (children_ root) as [|c0 cs] eqn:Hch.
  - left. split.
    + destruct (moves_ root) as [|m ms] eqn:Hm.
      * destruct (legal_moves state (who p)) as [|x xs] eqn:E; [reflexivity|].
        exfalso. apply (Hiff x). left. reflexivity.
      * exfalso.
        assert (E : visits_ (statistics root) = kids_sum root [] 0 + first_visit []).
        { apply (Hcons [] (statistics root) 0%nat (view_root root)).
          - intros j _. apply (view_child_none root [] root j eq_refl).
            rewrite Hch. simpl. lia.
          - left. simpl. rewrite Hm. discriminate. }
        simpl in E. unfold kids_sum in E. simpl in E. lia.
    + unfold best_action. rewrite Hch. reflexivity.
  - right.
    destruct (best_action_child (who p) root) as (c & Hc & Hbest);
      [rewrite Hch; discriminate|].
    exists (pos_ c). split; [|exact Hbest].
    apply Hiff. apply in_or_app. right. apply in_map. rewrite <- Hch. exact Hc.
Qed.

(** X5. For a cycle count from 0 to below [INT_MAX], [take_action]
    returns [action()] only when the agent has no legal move on the
    board it was given, and otherwise a placement of the agent's colour
    on a cell of the board that is legal on that board. *)
Theorem take_action_returns_legal_move (p : MCTS_player) (clock : nat -> bool)
        (state : board) (loop_fuel fuel : nat) :
  who p = 0 \/ who p = 1 ->
  0 <= cycles p < INT_MAX ->
  (Z.to_nat (cycles p) < loop_fuel)%nat ->
  (Z.to_nat (cycles p) + space < fuel)%nat ->
  (legal_moves state (who p) = [] /\
   take_action loop_fuel fuel p clock state = Some action_none) \/
  (exists pos,
      take_action loop_fuel fuel p clock state
      = Some (action_place pos (color (who p))) /\
      0 <= pos < Z.of_nat space /\
      fst (place_apply pos (color (who p)) state) = true).
Proof.
  intros Hwho Hcyc Hlf Hfuel.
  destruct (take_action_moves p clock state loop_fuel fuel Hwho Hcyc Hlf Hfuel)
    as [H|(pos & Hin & Hact)]; [left; exact H|right].
  exists pos. split; [exact Hact|].
  destruct (legal_moves_In state (who p) pos Hin) as (Hlegal & Hrange).
  split; [|exact Hlegal].
  apply in_map_iff in Hrange. destruct Hrange as (i & <- & Hi).
  apply in_seq in Hi. lia.
Qed.

(** X6. On a board with exactly one legal move for the agent,
    [take_action] returns that move, whatever the cycle count and the
    time budget. *)
Theorem take_action_only_move (p : MCTS_player) (clock : nat -> bool)
        (state : board) (loop_fuel fuel : nat) (m : Z) :
  who p = 0 \/ who p = 1 ->
  0 <= cycles p < INT_MAX ->
  (Z.to_nat (cycles p) < loop_fuel)%nat ->
  (Z.to_nat (cycles p) + space < fuel)%nat ->
  legal_moves state (who p) = [m] ->
  take_action loop_fuel fuel p clock state
  = Some (action_place m (color (who p))).
Proof.
  intros Hwho Hcyc Hlf Hfuel Hone.
  destruct (take_action_moves p clock state loop_fuel fuel Hwho Hcyc Hlf Hfuel)
    as [(Hnone & _)|(pos & Hin & Hact)]; [congruence|].
  rewrite Hone in Hin. destruct Hin as [<-|[]]. exact Hact.
Qed.



End Budgeted.

(** X10. [pop_untried_move] on a node with untried moves returns one of
    them with the opposite colour index and removes that one entry:
    the other moves stay, the count drops by one, and among distinct
    moves the popped one is not offered again; children, counters and
    the node's own move are untouched.  On a node without untried moves
    the index drawn addresses no element. *)
Theorem pop_untried_move_consumes (n : Node) :
  uniform_int_in_range ->
  Z.of_nat (length (moves_ n)) < SIZE_T_MOD ->
  match moves_ n with
  | [] => pop_untried_move n = None
  | _ :: _ =>
      exists k pos g,
        pop_untried_move n = Some (size_t_wrap (1 - bw_ n), pos, popped k g n) /\
        nth_error (moves_ n) k = Some pos /\
        S (length (moves_ (popped k g n))) = length (moves_ n) /\
        (forall x, In x (moves_ n) <-> x = pos \/ In x (moves_ (popped k g n))) /\
        (NoDup (moves_ n) -> ~ In pos (moves_ (popped k g n))) /\
        children_ (popped k g n) = children_ n /\
        visits_ (popped k g n) = visits_ n /\
        wins_ (popped k g n) = wins_ n /\
        get_move (popped k g n) = get_move n
  end.
Proof.
  intros Hu Hsize. unfold pop_untried_move.
  destruct (moves_ n) as [|m ms] eqn:Hm.
  - destruct (uniform_int 0 (size_t_wrap (Z.of_nat (length (@nil Z)) - 1)) (engine_ n))
      as [k g]. destruct (Z.to_nat k); reflexivity.
  - rewrite <- Hm in *.
    assert (Hpos : (0 < length (moves_ n))%nat) by (rewrite Hm; simpl; lia).
    assert (Hw : size_t_wrap (Z.of_nat (length (moves_ n)) - 1)
                 = Z.of_nat (length (moves_ n)) - 1).
    { unfold size_t_wrap. apply Z.mod_small. lia. }
    rewrite Hw.
    pose proof (Hu 0 (Z.of_nat (length (moves_ n)) - 1) (engine_ n)) as Hr.
    destruct (uniform_int 0 (Z.of_nat (length (moves_ n)) - 1) (engine_ n))
      as [k g] eqn:Hk. simpl fst in Hr.
    destruct (nth_error (moves_ n) (Z.to_nat k)) as [pos|] eqn:Hnth.
    2:{ apply nth_error_None in Hnth. lia. }
    exists (Z.to_nat k), pos, g. split; [reflexivity|]. split; [exact Hnth|].
    simpl. split.
    { apply erase_nth_length. apply nth_error_Some. congruence. }
    split.
    { intros x. split.
      - intros Hx. apply (erase_nth_In_inv _ (Z.to_nat k) pos x (moves_ n) Hnth Hx).
      - intros [->|Hx]; [eapply nth_error_In; eauto|eapply erase_nth_In; eauto]. }
    split.
    { intros Hnd. apply (erase_nth_NoDup _ (Z.to_nat k) pos (moves_ n) Hnd Hnth). }
    repeat split.
Qed.

End Moves.

(** ** Ties among the most visited children *)

Section Ties.
Context {BO : BoardOracle} {RE : RandomEngine} {DO : DoubleOps}.

Lemma map_emplace_ascending (k v : Z) (m : list (Z * Z)) :
  ascending m -> ascending (map_emplace k v m).
Proof.
  induction m as [|[k' v'] m IH]; simpl; intros H.
  - split; [intros y []|exact I].
  - destruct H as [H1 H2].
    destruct (k <? k') eqn:E1.
    + apply Z.ltb_lt in E1. simpl. split; [|split; assumption].
      intros y [<-|Hy]; [exact E1|]. specialize (H1 y Hy). simpl in H1. lia.
    + destruct (k =? k') eqn:E2; [simpl; auto|].
      apply Z.ltb_ge in E1. apply Z.eqb_neq in E2. simpl. split; [|apply IH; exact H2].
      intros y Hy. apply map_emplace_In in Hy. destruct Hy as [Hy| ->].
      * apply (H1 y Hy).
      * simpl. lia.
Qed.

Lemma fold_emplace_ascending (children : list Node) :
  forall m0, ascending m0 -> ascending (fold_left emplace_child children m0).
Proof.
  induction children as [|c cs IH]; intros m0 H; simpl; [exact H|].
  apply IH. rewrite emplace_child_eq. apply map_emplace_ascending. exact H.
Qed.

Lemma ascending_earlier (m : list (Z * Z)) :
  ascending m ->
  forall i x y, nth_error m i = Some x -> In y m -> fst y < fst x ->
                exists j, (j < i)%nat /\ nth_error m j = Some y.
Proof.
  induction m as [|z m IH]; intros H i x y Hx Hy Hlt; [destruct Hy|].
  destruct H as [H1 H2]. destruct i as [|i]; simpl in Hx.
  - injection Hx as ->. destruct Hy as [->|Hy]; [lia|].
    specialize (H1 y Hy). lia.
  - destruct Hy as [->|Hy].
    + exists 0%nat. split; [lia|reflexivity].
    + destruct (IH H2 i x y Hx Hy Hlt) as (j & Hj & Hn).
      exists (S j). split; [lia|exact Hn].
Qed.

(** The tail of [take_action] on children with distinct positions and
    visit counts [float] holds exactly: the child chosen has the most
    visits, and among those with the most visits the lowest position. *)
Lemma best_action_ties (who : Z) (root : Node) :
  NoDup (map pos_ (children_ root)) ->
  (forall c, In c (children_ root) -> 0 <= visits_ c <= 2 ^ 24) ->
  children_ root <> [] ->
  exists c, In c (children_ root) /\
            best_action who root = Some (action_place (pos_ c) (color who)) /\
            forall c', In c' (children_ root) ->
                       visits_ c' < visits_ c \/
                       (visits_ c' = visits_ c /\ pos_ c <= pos_ c').
Proof.
  intros Hnd Hexact Hne. unfold best_action.
  destruct (children_ root) as [|c0 cs] eqn:Hch; [congruence|].
  set (move_ratio := fold_left emplace_child (c0 :: cs) []).
  assert (Hall : forall c, In c (c0 :: cs) ->
                           In (pos_ c, float_of_size_t (visits_ c)) move_ratio).
  { apply fold_emplace_all; auto. }
  assert (Hasc : ascending move_ratio).
  { apply fold_emplace_ascending. exact I. }
  assert (Hne' : move_ratio <> []).
  { intros E. specialize (Hall c0 (or_introl eq_refl)). rewrite E in Hall.
    destruct Hall. }
  destruct (max_element_spec _ ratio_less move_ratio Hne' (ratio_less_order _))
    as (i & [bm v] & Hmax & Hnth & Hle & Hfirst).
  rewrite Hmax, Hnth.
  assert (Hin : In (bm, v) move_ratio) by (eapply nth_error_In; eauto).
  apply fold_emplace_In in Hin. destruct Hin as [[]|(c & Hc & E)].
  injection E as -> ->.
  exists c. split; [exact Hc|]. split; [reflexivity|].
  intros c' Hc'.
  pose proof (Hle _ (Hall c' Hc')) as H1.
  unfold ratio_less in H1. simpl in H1. apply Z.ltb_ge in H1.
  rewrite !float_of_size_t_exact in H1 by auto.
  destruct (Z_lt_dec (visits_ c') (visits_ c)) as [Hlt|Hge]; [left; exact Hlt|right].
  split; [lia|].
  destruct (Z_lt_dec (pos_ c') (pos_ c)) as [Hp|Hp]; [exfalso|lia].
  destruct (ascending_earlier move_ratio Hasc i _ _ Hnth (Hall c' Hc') Hp)
    as (j & Hj & Hn).
  specialize (Hfirst j _ Hj Hn). unfold ratio_less in Hfirst. simpl in Hfirst.
  apply Z.ltb_lt in Hfirst.
  rewrite !float_of_size_t_exact in Hfirst by auto. lia.
Qed.

Section TiesBudget.
Variable occupied : board -> Z -> bool.
Hypothesis Hboard : permanent_occupation occupied.
Hypothesis Hdraw : uniform_int_in_range.
Hypothesis Hfit : board_fits_size_t.

(** X20. For a cycle count below 2^24, the child whose move
    [take_action] returns has the most visits, and among the children
    with that many visits the lowest position: the map is walked in key
    order and [std::max_element] keeps the first maximum. *)
Theorem take_action_ties_to_lowest_position (p : MCTS_player) (clock : nat -> bool)
        (state : board) (loop_fuel fuel : nat) :
  0 <= cycles p < 2 ^ 24 ->
  (Z.to_nat (cycles p) < loop_fuel)%nat ->
  (Z.to_nat (cycles p) + space < fuel)%nat ->
  exists n root g,
    search loop_fuel fuel p clock state = Some (n, root, g) /\
    (children_ root = [] \/
     exists c,
       In c (children_ root) /\
       take_action loop_fuel fuel p clock state
       = Some (action_place (pos_ c) (color (who p))) /\
       forall c', In c' (children_ root) ->
                  visits_ c' < visits_ c \/
                  (visits_ c' = visits_ c /\ pos_ c <= pos_ c')).
Proof.
  intros Hcyc Hlf Hfuel. unfold take_action, search.
  destruct (search_loop_total occupied Hboard Hdraw Hfit
              fuel (cycles p) clock state loop_fuel 0%nat
              (Node_new (engine p) state (size_t_wrap (1 - who p)) (Z.of_nat space))
              (engine p) (tree_inv_root _ _ _ _))
    as (n & root & g & Hl & Hn1 & Hn2 & Hinv & _);
    try (unfold INT_MAX; lia).
  change (Z.of_nat 0) with 0 in Hl. rewrite Hl.
  exists n, root, g. split; [reflexivity|].
  destruct (tree_inv_children n root Hinv) as (Hnd & Hvis).
  destruct (children_ root) as [|c0 cs] eqn:Hch; [left; reflexivity|right].
  rewrite <- Hch in *.
  apply (best_action_ties (who p) root Hnd).
  - intros c Hc. specialize (Hvis c Hc). lia.
  - rewrite Hch. discriminate.
Qed.

End TiesBudget.
End Ties.

(** ** The board of the playout *)

Section Line.
Context {BO : BoardOracle} {RE : RandomEngine} {DO : DoubleOps}.

Lemma line_of_play_ext (r r' : Node) (state : board) (node : ptr) :
  (forall l m, node = l ++ m ->
               option_map get_move (deref r' m) = option_map get_move (deref r m)) ->
  line_of_play r' node state = line_of_play r node state.
Proof.
  induction node as [|i parent IH]; intros H; simpl; [reflexivity|].
  rewrite IH.
  - pose proof (H [] (i :: parent) eq_refl) as E.
    destruct (deref r' (i :: parent)) as [c'|]; destruct (deref r (i :: parent)) as [c|];
      simpl in E; try discriminate; [|reflexivity].
    unfold get_move in E. injection E as E1 E2. rewrite E1, E2. reflexivity.
  - intros l m E. apply (H (i :: l) m). rewrite E. reflexivity.
Qed.

Lemma deref_view (r : Node) (m : ptr) :
  option_map statistics (deref r m) = view r (rev m).
Proof. reflexivity. Qed.

Lemma get_move_statistics (x : option Node) :
  option_map get_move (option_map statistics x) = option_map get_move x.
Proof. destruct x; reflexivity. Qed.

Lemma line_of_play_views (r r' : Node) (state : board) (node : ptr) :
  (forall q, view r' q = view r q) ->
  line_of_play r' node state = line_of_play r node state.
Proof.
  intros H. apply line_of_play_ext. intros l m _.
  rewrite <- (get_move_statistics (deref r' m)), <- (get_move_statistics (deref r m)).
  rewrite !deref_view, H. reflexivity.
Qed.

Lemma selection_body_line (root : Node) (node : ptr) (b : board)
      (root' : Node) (node' : ptr) (b' : board) (state : board) :
  selection_body root node b = Some (root', node', b') ->
  b = line_of_play root node state ->
  (forall q, view root' q = view root q) /\
  deref root' node' <> None /\
  b' = line_of_play root' node' state.
Proof.
  intros Hb Hline. unfold selection_body in Hb.
  destruct (deref root node) as [n|] eqn:Hn; [|discriminate].
  destruct (get_UCT_child n) as [n' [i|]] eqn:Hg; [|discriminate].
  destruct (deref (store root node (fun _ => n')) (i :: node)) as [c|] eqn:Hc;
    [|discriminate].
  unfold get_move in Hb. injection Hb as <- <- <-.
  assert (Hview : forall q, view (store root node (fun _ => n')) q = view root q).
  { intros q. unfold store. apply (view_modify_same (fun _ => n') (rev node) root n Hn).
    intros q'. replace n' with (fst (get_UCT_child n)) by (rewrite Hg; reflexivity).
    apply view_get_UCT_child. }
  split; [exact Hview|]. split; [congruence|].
  simpl. rewrite Hc.
  rewrite (line_of_play_views root _ state node Hview), <- Hline. reflexivity.
Qed.

Lemma selection_line (fuel : nat) (state : board) :
  forall root node b root' node' b',
    selection fuel root node b = Some (root', node', b') ->
    b = line_of_play root node state ->
    b' = line_of_play root' node' state.
Proof.
  induction fuel as [|fuel IH]; intros root node b root' node' b' Hsel Hline;
    simpl in Hsel; destruct (selection_cond root node); try discriminate;
    try (injection Hsel as <- <- <-; exact Hline).
  destruct (selection_body root node b) as [[[root1 node1] b1]|] eqn:Hb; [|discriminate].
  destruct (selection_body_line root node b root1 node1 b1 state Hb Hline)
    as (_ & _ & Hline1).
  apply (IH _ _ _ _ _ _ Hsel Hline1).
Qed.

(** X9. The scratch board follows the tree: after selection it is the
    input board with the moves of the nodes on the selected path played
    in order, and the playout starts from the input board with the
    moves on the path to the node it starts from, the expanded child
    included. *)
Theorem playout_starts_from_line_of_play (fuel : nat) (state : board) (root : Node)
        (g : default_random_engine) (root' : Node) (g' : default_random_engine) :
  iteration fuel state root g = Some (root', g') ->
  exists root1 node1 b1 root2 node2 b2 n bw b3 plies,
    selection fuel root [] state = Some (root1, node1, b1) /\
    expansion root1 node1 b1 g = Some (root2, node2, b2) /\
    deref root2 node2 = Some n /\
    rollout fuel b2 (size_t_wrap (1 - bw_ n)) g 0 = Some (bw, b3, g', plies) /\
    b1 = line_of_play root node1 state /\
    b2 = line_of_play root2 node2 state /\
    b2 = line_of_play root' node2 state /\
    (forall q, view root1 q = view root q).
Proof.
  intros Hit.
  destruct (iteration_unfold _ _ _ _ _ _ Hit)
    as (root1 & node1 & b1 & root2 & node2 & b2 & n & bw & b3 & plies
        & Hs & He & Hn & Hr & ->).
  exists root1, node1, b1, root2, node2, b2, n, bw, b3, plies.
  assert (Hvalid : deref root [] <> None) by (rewrite deref_root; congruence).
  destruct (selection_sound fuel root [] state root1 node1 b1 Hvalid
                            (root_has_no_ancestor root) Hs)
    as (Hview1 & Hv1 & _ & _).
  assert (Hb1 : b1 = line_of_play root1 node1 state).
  { apply (selection_line fuel state root [] state root1 node1 b1 Hs). reflexivity. }
  assert (Hb2 : b2 = line_of_play root2 node2 state).
  { destruct (deref root1 node1) as [n1|] eqn:Hn1; [|congruence].
    destruct (has_untried_moves n1) eqn:Hm.
    - destruct (expansion_expands root1 node1 b1 g n1 root2 node2 b2 Hn1 Hm He)
        as (k & g1 & pos & Hpos & Hb2 & Hnode2 & Hroot2 & Hg1 & Hview2).
      cbv zeta in Hview2. rewrite Hnode2. simpl.
      rewrite Hnode2 in Hn. rewrite Hn.
      assert (Hnv : view root2 (rev node1 ++ [length (children_ n1)])
                    = Some (statistics n)).
      { change (rev node1 ++ [length (children_ n1)])
          with (rev (length (children_ n1) :: node1)).
        rewrite <- deref_view, Hn. reflexivity. }
      rewrite Hview2 in Hnv.
      destruct (path_eq_dec (rev node1 ++ [length (children_ n1)]) (rev node1)) as [E|_].
      { apply (f_equal (@length nat)) in E. rewrite length_app in E. simpl in E. lia. }
      destruct (path_eq_dec (rev node1 ++ [length (children_ n1)])
                            (rev node1 ++ [length (children_ n1)])); [|congruence].
      assert (Hst : statistics (Node_new g b2 (size_t_wrap (1 - bw_ n1)) pos)
                    = statistics n) by congruence.
      assert (Hp : pos_ n = pos).
      { change (pos_ (statistics n) = pos). rewrite <- Hst. reflexivity. }
      assert (Hbw : bw_ n = size_t_wrap (1 - bw_ n1)).
      { change (bw_ (statistics n) = size_t_wrap (1 - bw_ n1)). rewrite <- Hst.
        reflexivity. }
      rewrite Hp, Hbw, Hb2. f_equal. f_equal. rewrite Hb1.
      symmetry. apply line_of_play_ext. intros l m Hlm.
      rewrite <- (get_move_statistics (deref root2 m)),
              <- (get_move_statistics (deref root1 m)).
      rewrite !deref_view, Hview2.
      destruct (path_eq_dec (rev m) (rev node1)) as [E|_].
      { rewrite E, <- deref_view, Hn1. reflexivity. }
      destruct (path_eq_dec (rev m) (rev node1 ++ [length (children_ n1)])) as [E|_];
        [|reflexivity].
      exfalso. apply (f_equal (@length nat)) in E, Hlm.
      rewrite length_app, !length_rev in E. rewrite length_app in Hlm. simpl in E. lia.
    - rewrite (expansion_stays root1 node1 b1 g n1 Hn1 Hm) in He.
      injection He as <- <- <-. exact Hb1. }
  repeat split; auto.
  - rewrite Hb1. apply line_of_play_views. exact Hview1.
  - rewrite Hb2. symmetry. apply line_of_play_ext. intros l m _.
    rewrite <- (get_move_statistics (deref _ m)),
            <- (get_move_statistics (deref root2 m)).
    rewrite !deref_view, view_backpropagation.
    destruct (is_prefix (rev m) (rev node2)); [|reflexivity].
    destruct (view root2 (rev m)); reflexivity.
Qed.

Lemma colours_alternate_step (fuel : nat) (state : board) (root : Node)
      (g : default_random_engine) (root' : Node) (g' : default_random_engine) :
  colours_alternate root ->
  iteration fuel state root g = Some (root', g') ->
  colours_alternate root'.
Proof.
  intros Halt Hit q j s' c' Hs' Hc'.
  assert (Hlen : forall (x : list nat) y, x ++ [y] <> x).
  { intros x y E. apply (f_equal (@length nat)) in E. rewrite length_app in E.
    simpl in E. lia. }
  destruct (iteration_cases fuel state root g root' g' Hit)
    as [(a & w & sa & Ha & Hma & Hleaf & HV)
       |(a & i & k & w & mv & n1 & b & g1 & Ha & Hanc & Hnew & Hk & _ & HV)].
  - pose proof (origin_unexpanded (view root) (view root') a w HV) as Horigin.
    destruct (Horigin q s' Hs') as (s & Hs & Es).
    destruct (Horigin _ c' Hc') as (c & Hc & Ec).
    assert (E1 : bw_ s' = bw_ s) by (destruct Es as [->| ->]; reflexivity).
    assert (E2 : bw_ c' = bw_ c) by (destruct Ec as [->| ->]; reflexivity).
    rewrite E1, E2. apply (Halt q j s c Hs Hc).
  - cbv zeta in HV.
    pose proof (origin_expanded (view root) (view root') a i w _ _ HV) as Horigin.
    destruct (Horigin _ c' Hc') as [(E & ->)|[(E & ->)|(Hca & Hci & c & Hc & Ec)]].
    + apply app_inj_tail in E. destruct E as [-> ->].
      destruct (Horigin a s' Hs') as [(E & _)|[(_ & ->)|(E & _)]];
        [exfalso; apply (Hlen a i); congruence|reflexivity|congruence].
    + destruct (Horigin q s' Hs') as [(E' & _)|[(E' & _)|(_ & _ & s & Hs & Es)]].
      * exfalso. rewrite E' in E. apply (Hlen (a ++ [i]) j).
        apply (f_equal (@length nat)) in E. rewrite !length_app in E. simpl in E. lia.
      * exfalso. rewrite E' in E. apply (Hlen a j E).
      * assert (E1 : bw_ s' = bw_ s) by (destruct Es as [->| ->]; reflexivity).
        rewrite E1. rewrite <- E in Ha.
        apply (Halt q j s (statistics n1) Hs Ha).
    + assert (E2 : bw_ c' = bw_ c) by (destruct Ec as [->| ->]; reflexivity).
      rewrite E2.
      destruct (Horigin q s' Hs') as [(E' & _)|[(E' & ->)|(_ & _ & s & Hs & Es)]].
      * exfalso. rewrite E' in Hc. apply (view_prefix root (a ++ [i]) [j]); congruence.
      * rewrite E' in Hc. apply (Halt a j (statistics n1) c Ha Hc).
      * assert (E1 : bw_ s' = bw_ s) by (destruct Es as [->| ->]; reflexivity).
        rewrite E1. apply (Halt q j s c Hs Hc).
Qed.

End Line.

(** ** The colours of the nodes *)

Section Colours.
Context {BO : BoardOracle} {RE : RandomEngine} {DO : DoubleOps}.

Lemma colours_alternate_root (engine : default_random_engine) (b : board) (who pos : Z) :
  colours_alternate (Node_new engine b who pos).
Proof.
  intros q j s c _ Hc. exfalso.
  unfold view in Hc. rewrite get_down_app in Hc.
  destruct q as [|i q]; simpl in Hc.
  - destruct j; discriminate.
  - destruct i; discriminate.
Qed.

Lemma bodies_run_colours (fuel : nat) (p : MCTS_player) (clock : nat -> bool)
      (state : board) (done : nat) (root : Node) (g : default_random_engine) :
  bodies_run fuel p clock state done root g ->
  colours_alternate root /\ bw_ root = size_t_wrap (1 - who p).
Proof.
  assert (Hbw : forall fuel state root g root' g',
             iteration fuel state root g = Some (root', g') -> bw_ root' = bw_ root).
  { clear. intros fuel state root g root' g' Hit.
    destruct (iteration_cases fuel state root g root' g' Hit)
      as [(a & w & sa & Ha & Hma & Hleaf & HV)
         |(a & i & k & w & mv & n1 & b & g1 & Ha & Hanc & Hnew & Hk & _ & HV)].
    - destruct (origin_unexpanded (view root) (view root') a w HV []
                                  (statistics root') (view_root root'))
        as (s & Hs & Es).
      rewrite view_root in Hs. injection Hs as <-.
      change (bw_ (statistics root') = bw_ (statistics root)).
      destruct Es as [->| ->]; reflexivity.
    - cbv zeta in HV.
      destruct (origin_expanded (view root) (view root') a i w _ _ HV []
                                (statistics root') (view_root root'))
        as [(E & _)|[(E & Es)|(_ & _ & s & Hs & Es)]].
      + exfalso. apply (nil_not_snoc a i E).
      + rewrite <- E, view_root in Ha.
        assert (Hst : statistics root = statistics n1) by congruence.
        change (bw_ (statistics root') = bw_ (statistics root)).
        rewrite Es, Hst. reflexivity.
      + rewrite view_root in Hs. injection Hs as <-.
        change (bw_ (statistics root') = bw_ (statistics root)).
        destruct Es as [->| ->]; reflexivity. }
  assert (Hhead : forall done itr root g,
             loop_head fuel p clock state done itr root g ->
             colours_alternate root /\ bw_ root = size_t_wrap (1 - who p)).
  { clear - Hbw. induction 1 as [|done itr root g root' g' Hhead IH Hit Hitr Hclock Hcyc].
    - split; [apply colours_alternate_root|reflexivity].
    - destruct IH as [H1 H2]. split.
      + apply (colours_alternate_step fuel state root g root' g' H1 Hit).
      + rewrite (Hbw _ _ _ _ _ _ Hit). exact H2. }
  intros [done' itr root0 g0 H|done' itr root0 g0 root' g1 H Hit].
  - apply (Hhead _ _ _ _ H).
  - destruct (Hhead _ _ _ _ H) as [H1 H2]. split.
    + apply (colours_alternate_step fuel state root0 g0 root' g1 H1 Hit).
    + rewrite (Hbw _ _ _ _ _ _ Hit). exact H2.
Qed.

(** X11. The colour index flips along every edge of the tree: the root
    carries [1 - who], its children [who], and so on by depth, so that
    [bw_] of a node is the colour that played the node's move. *)
Theorem tree_colours_alternate (fuel : nat) (p : MCTS_player)
        (clock : nat -> bool) (state : board)
        (done : nat) (root : Node) (g : default_random_engine)
        (q : list nat) (n : Node) :
  bodies_run fuel p clock state done root g ->
  who p = 0 \/ who p = 1 ->
  get_down root q = Some n ->
  bw_ n = (if Nat.even (length q) then 1 - who p else who p) /\
  (forall c, In c (children_ n) -> bw_ c = 1 - bw_ n).
Proof.
  intros Hrun Hwho.
  destruct (bodies_run_colours fuel p clock state done root g Hrun) as [Halt Hroot].
  assert (Hflip : forall x, x = 0 \/ x = 1 -> size_t_wrap (1 - x) = 1 - x).
  { intros x [->| ->]; reflexivity. }
  assert (Hbw : forall q n, get_down root q = Some n ->
                            bw_ n = (if Nat.even (length q) then 1 - who p else who p)).
  { clear q n. intros q. induction q as [|j q IH] using rev_ind; intros n Hn.
    - simpl in Hn. injection Hn as <-. simpl. rewrite Hroot. apply Hflip. exact Hwho.
    - rewrite get_down_app in Hn.
      destruct (get_down root q) as [m|] eqn:Hm; [|discriminate].
      specialize (IH m eq_refl).
      assert (Hc : bw_ n = size_t_wrap (1 - bw_ m)).
      { apply (Halt q j (statistics m) (statistics n)).
        - apply view_node. exact Hm.
        - unfold view. rewrite get_down_app, Hm, Hn. reflexivity. }
      rewrite Hc, IH, length_app. simpl length. rewrite Nat.add_1_r, Nat.even_succ.
      rewrite <- Nat.negb_even.
      destruct (Nat.even (length q)); simpl; destruct Hwho as [->| ->]; reflexivity. }
  intros Hn. split; [apply Hbw; exact Hn|].
  intros c Hc. destruct (In_nth_error _ _ Hc) as (j & Hj).
  assert (Hcn : get_down root (q ++ [j]) = Some c).
  { rewrite get_down_app, Hn. simpl. rewrite Hj. reflexivity. }
  rewrite (Hbw _ _ Hcn), (Hbw _ _ Hn), length_app. simpl length.
  rewrite Nat.add_1_r, Nat.even_succ, <- Nat.negb_even.
  destruct (Nat.even (length q)); cbv beta iota delta [negb]; lia.
Qed.

End Colours.

(** ** The property map and the constructors *)

Local Open Scope string_scope.

Lemma tokens_agent_prefix (args : String.string) :
  tokens (String.append "name=unknown role=unknown " args)
  = "name=unknown" :: "role=unknown" :: tokens args.
Proof. reflexivity. Qed.

Lemma tokens_mcts_prefix (args : String.string) :
  tokens (String.append "name=unknown role=unknown " (String.append "name=mcts role=unknown " args))
  = "name=unknown" :: "role=unknown" :: "name=mcts" :: "role=unknown" :: tokens args.
Proof. reflexivity. Qed.

Lemma meta_find_assign (key value : String.string) (meta : meta_map) (k : String.string) :
  meta_find k (meta_assign key value meta)
  = if String.eqb k key then Some value else meta_find k meta.
Proof.
  induction meta as [|[k' v'] meta IH]; simpl.
  - destruct (String.eqb k key); reflexivity.
  - destruct (String.ltb key k') eqn:Hlt.
    + simpl. destruct (String.eqb k key); reflexivity.
    + destruct (String.eqb key k') eqn:Heq.
      * apply String.eqb_eq in Heq. subst k'. simpl.
        destruct (String.eqb k key); reflexivity.
      * simpl. rewrite IH.
        destruct (String.eqb k k') eqn:Hk; [|reflexivity].
        apply String.eqb_eq in Hk. subst k'.
        rewrite String.eqb_sym, Heq. reflexivity.
Qed.

Lemma meta_find_fold (key : String.string) (toks : list String.string) :
  forall meta,
    meta_find key
      (fold_left (fun meta pair => meta_assign (pair_key pair) (pair_value pair) meta)
                 toks meta)
    = fold_left (fun found kv => if String.eqb (fst kv) key then Some (snd kv) else found)
                (map pair_of toks) (meta_find key meta).
Proof.
  induction toks as [|t toks IH]; intros meta; simpl; [reflexivity|].
  rewrite IH, meta_find_assign, String.eqb_sym. reflexivity.
Qed.

Lemma agent_new_find (args key : String.string) :
  meta_find key (agent_new args)
  = agent_meta (("name", "unknown") :: ("role", "unknown") :: map pair_of (tokens args)) key.
Proof.
  unfold agent_new, agent_meta. rewrite tokens_agent_prefix, meta_find_fold.
  reflexivity.
Qed.

Lemma agent_meta_fold_some (key : String.string) (pairs : list (String.string * String.string)) :
  forall found,
    fold_left (fun found kv => if String.eqb (fst kv) key then Some (snd kv) else found)
              pairs found
    = match agent_meta pairs key with
      | Some v => Some v
      | None => found
      end.
Proof.
  unfold agent_meta.
  induction pairs as [|[k v] pairs IH]; intros found; simpl; [reflexivity|].
  rewrite IH. rewrite (IH (if String.eqb k key then Some v else None)).
  destruct (fold_left _ pairs None); [reflexivity|].
  destruct (String.eqb k key); reflexivity.
Qed.

(** X12. [property(key)] of a constructed agent is the value of the
    last token of the argument string whose key is [key]; without such
    a token it is ["unknown"] for [name] and [role], and for any other
    key [meta.at] throws. *)
Theorem agent_property_last_wins (args key : String.string) :
  property (agent_new args) key =
  match agent_meta (map pair_of (tokens args)) key with
  | Some v => returned v
  | None =>
      if String.eqb key "name" || String.eqb key "role"
      then returned "unknown" else failed
  end.
Proof.
  unfold property. rewrite agent_new_find.
  assert (E : agent_meta (("name", "unknown") :: ("role", "unknown")
                          :: map pair_of (tokens args)) key
              = fold_left (fun found kv =>
                             if String.eqb (fst kv) key then Some (snd kv) else found)
                          (map pair_of (tokens args))
                          (if String.eqb "role" key then Some "unknown"
                           else if String.eqb "name" key then Some "unknown" else None))
    by reflexivity.
  rewrite E, agent_meta_fold_some.
  destruct (agent_meta (map pair_of (tokens args)) key); [reflexivity|].
  rewrite (String.eqb_sym "name" key), (String.eqb_sym "role" key).
  destruct (String.eqb key "role"); destruct (String.eqb key "name"); reflexivity.
Qed.

Lemma find_append_eq (k v : String.string) :
  find "="%char k = None ->
  find "="%char (String.append k (String.String "="%char v)) = Some (String.length k).
Proof.
  induction k as [|c k IH]; simpl; intros H; [reflexivity|].
  destruct (Ascii.eqb c "="%char); [discriminate|].
  destruct (find "="%char k); [discriminate|].
  rewrite IH; reflexivity.
Qed.

Lemma substring_whole (s : String.string) : String.substring 0 (String.length s) s = s.
Proof. induction s as [|c s IH]; simpl; [reflexivity|]. rewrite IH. reflexivity. Qed.

Lemma substring_prefix (k r : String.string) :
  String.substring 0 (String.length k) (String.append k r) = k.
Proof.
  induction k as [|c k IH]; simpl.
  - destruct r; reflexivity.
  - rewrite IH. reflexivity.
Qed.

Lemma substring_suffix (k v : String.string) :
  String.substring (S (String.length k))
                   (String.length (String.append k (String.String "="%char v))
                    - S (String.length k))
                   (String.append k (String.String "="%char v)) = v.
Proof.
  induction k as [|c k IH]; simpl.
  - rewrite Nat.sub_0_r. destruct v as [|c v]; [reflexivity|].
    simpl. rewrite substring_whole. reflexivity.
  - simpl in IH. exact IH.
Qed.

Lemma pair_of_key_value (k v : String.string) :
  find "="%char k = None ->
  pair_of (String.append k (String.String "="%char v)) = (k, v).
Proof.
  intros H. unfold pair_of, pair_key, pair_value.
  rewrite (find_append_eq k v H), substring_prefix, substring_suffix. reflexivity.
Qed.

Lemma pair_of_bare (msg : String.string) :
  find "="%char msg = None -> pair_of msg = (msg, msg).
Proof. intros H. unfold pair_of, pair_key, pair_value. rewrite H. reflexivity. Qed.

(** X13. After [notify("k=v")], [property("k")] is ["v"]; a message
    without ['='] sets the property named by the whole message to the
    whole message; every other property is as before. *)
Theorem notify_then_property (meta : meta_map) :
  (forall k v, find "="%char k = None ->
               property (notify (String.append k (String.String "="%char v)) meta) k
               = returned v) /\
  (forall msg, find "="%char msg = None ->
               property (notify msg meta) msg = returned msg) /\
  (forall msg key, key <> pair_key msg ->
                   property (notify msg meta) key = property meta key).
Proof.
  split; [|split].
  - intros k v H. unfold property, notify. rewrite meta_find_assign.
    pose proof (pair_of_key_value k v H) as E. unfold pair_of in E.
    injection E as E1 E2. rewrite E1, E2, String.eqb_refl. reflexivity.
  - intros msg H. unfold property, notify. rewrite meta_find_assign.
    pose proof (pair_of_bare msg H) as E. unfold pair_of in E.
    injection E as E1 E2. rewrite E1, E2, String.eqb_refl. reflexivity.
  - intros msg key H. unfold property, notify. rewrite meta_find_assign.
    destruct (String.eqb key (pair_key msg)) eqn:E; [|reflexivity].
    apply String.eqb_eq in E. congruence.
Qed.

Section Constructors.
Context {BO : BoardOracle} {RE : RandomEngine} {DO : DoubleOps} {NP : NumericParsing}.

Lemma mcts_meta_find (args key : String.string) :
  meta_find key (agent_new (String.append "name=mcts role=unknown " args))
  = agent_meta (("name", "unknown") :: ("role", "unknown") :: ("name", "mcts")
                :: ("role", "unknown") :: map pair_of (tokens args)) key.
Proof.
  unfold agent_new, agent_meta. rewrite tokens_mcts_prefix, meta_find_fold.
  reflexivity.
Qed.

Lemma MCTS_player_of_args_new (args : String.string) :
  MCTS_player_of_args args = MCTS_player_new (map pair_of (tokens args)).
Proof.
  unfold MCTS_player_of_args, MCTS_player_new, random_agent_new.
  cbv zeta. rewrite (mcts_meta_find args "seed").
  change (([("name", "unknown"); ("role", "unknown"); ("name", "mcts"); ("role", "unknown")]
           ++ map pair_of (tokens args))%list)
    with (("name", "unknown") :: ("role", "unknown") :: ("name", "mcts")
          :: ("role", "unknown") :: map pair_of (tokens args)).
  set (meta := agent_meta (("name", "unknown") :: ("role", "unknown") :: ("name", "mcts")
                           :: ("role", "unknown") :: map pair_of (tokens args))).
  destruct (meta "seed") as [sd|]; [destruct (stod sd) as [d|]|];
    cbv beta iota; try reflexivity;
    unfold name, role, cycle, exp_cons, property; rewrite !mcts_meta_find; fold meta;
    (destruct (meta "name") as [nm|]; [|reflexivity]);
    (destruct (meta "role") as [rl|]; [|reflexivity]);
    (destruct (find_first_of "[]():; " nm); [reflexivity|]);
    destruct (meta "T") as [t|]; destruct (meta "exp") as [e|]; reflexivity.
Qed.

End Constructors.

Section Constructors2.
Context {BO : BoardOracle} {RE : RandomEngine} {DO : DoubleOps} {NP : NumericParsing}.

Lemma mcts_defaults (pairs : list (String.string * String.string)) (key : String.string) :
  agent_meta (("name", "unknown") :: ("role", "unknown") :: ("name", "mcts")
              :: ("role", "unknown") :: pairs) key
  = match agent_meta pairs key with
    | Some v => Some v
    | None => if String.eqb "role" key then Some "unknown"
              else if String.eqb "name" key then Some "mcts" else None
    end.
Proof.
  assert (E : agent_meta (("name", "unknown") :: ("role", "unknown") :: ("name", "mcts")
                          :: ("role", "unknown") :: pairs) key
              = fold_left (fun found kv =>
                             if String.eqb (fst kv) key then Some (snd kv) else found)
                          pairs
                          (if String.eqb "role" key then Some "unknown"
                           else if String.eqb "name" key then Some "mcts"
                           else if String.eqb "role" key then Some "unknown"
                           else if String.eqb "name" key then Some "unknown" else None))
    by reflexivity.
  rewrite E, agent_meta_fold_some.
  destruct (agent_meta pairs key); [reflexivity|].
  destruct (String.eqb "role" key); [reflexivity|].
  destruct (String.eqb "name" key); reflexivity.
Qed.

Lemma MCTS_player_new_cases (pairs : list (String.string * String.string)) :
  let given := agent_meta pairs in
  let nm := match given "name" with Some v => v | None => "mcts" end in
  let rl := match given "role" with Some v => v | None => "unknown" end in
  let cyc := match given "T" with
             | Some v => match stoi v with Some c => c | None => 1000 end
             | None => 1000
             end in
  let ex := match given "exp" with
            | Some v => match stod v with Some d => d | None => d_quarter end
            | None => d_quarter
            end in
  MCTS_player_new pairs =
  match match given "seed" with
        | Some v => option_map (fun d => engine_seed (int_of_double d)) (stod v)
        | None => Some engine_default
        end with
  | None => failed
  | Some eng =>
      if find_first_of "[]():; " nm then failed
      else if String.eqb rl "black" then returned (mkPlayer 1 cyc ex eng)
           else if String.eqb rl "white" then returned (mkPlayer 0 cyc ex eng)
                else failed
  end.
Proof.
  cbv zeta. unfold MCTS_player_new.
  change (([("name", "unknown"); ("role", "unknown"); ("name", "mcts"); ("role", "unknown")]
           ++ pairs)%list)
    with (("name", "unknown") :: ("role", "unknown") :: ("name", "mcts")
          :: ("role", "unknown") :: pairs).
  rewrite !mcts_defaults.
  change (String.eqb "role" "seed") with false.
  change (String.eqb "name" "seed") with false.
  change (String.eqb "role" "name") with false.
  change (String.eqb "name" "name") with true.
  change (String.eqb "role" "role") with true.
  change (String.eqb "role" "T") with false.
  change (String.eqb "name" "T") with false.
  change (String.eqb "role" "exp") with false.
  change (String.eqb "name" "exp") with false.
  cbv beta iota.
  destruct (agent_meta pairs "seed") as [sd|]; [destruct (stod sd)|]; simpl option_map;
    cbv beta iota; try reflexivity;
    destruct (agent_meta pairs "name"); destruct (agent_meta pairs "role");
    destruct (agent_meta pairs "T"); destruct (agent_meta pairs "exp"); reflexivity.
Qed.

(** X14. [MCTS_player]'s constructor returns only when the last [role]
    token of the arguments is [black] or [white], with [who = 1] for
    black and [who = 0] for white; [cycles] is the last [T] token as
    [std::stoi] reads it, and 1000 without one or when it does not
    parse; a [seed] that [std::stod] cannot read, and a name holding one
    of the characters [[]():; ], make the constructor throw. *)
Theorem MCTS_player_of_args_role (args : String.string) :
  let given := agent_meta (map pair_of (tokens args)) in
  (forall p, MCTS_player_of_args args = returned p ->
             ((given "role" = Some "black" /\ who p = 1) \/
              (given "role" = Some "white" /\ who p = 0)) /\
             cycles p = match given "T" with
                        | Some v => match stoi v with Some c => c | None => 1000 end
                        | None => 1000
                        end) /\
  (given "role" <> Some "black" -> given "role" <> Some "white" ->
   MCTS_player_of_args args = failed) /\
  (forall v, given "seed" = Some v -> stod v = None ->
             MCTS_player_of_args args = failed) /\
  (forall nm, given "name" = Some nm -> find_first_of "[]():; " nm = true ->
              MCTS_player_of_args args = failed).
Proof.
  cbv zeta. rewrite MCTS_player_of_args_new.
  pose proof (MCTS_player_new_cases (map pair_of (tokens args))) as E.
  cbv zeta in E. rewrite E. clear E.
  set (given := agent_meta (map pair_of (tokens args))).
  split; [|split; [|split]].
  - intros p.
    destruct (match given "seed" with
              | Some v => option_map (fun d => engine_seed (int_of_double d)) (stod v)
              | None => Some engine_default
              end) as [eng|]; [|discriminate].
    destruct (find_first_of "[]():; " _); [discriminate|].
    destruct (given "role") as [rl|].
    + destruct (String.eqb rl "black") eqn:Eb.
      * intros H. injection H as <-. simpl. apply String.eqb_eq in Eb. subst rl.
        split; [left; auto|reflexivity].
      * destruct (String.eqb rl "white") eqn:Ew; [|discriminate].
        intros H. injection H as <-. simpl. apply String.eqb_eq in Ew. subst rl.
        split; [right; auto|reflexivity].
    + change (String.eqb "unknown" "black") with false.
      change (String.eqb "unknown" "white") with false. discriminate.
  - intros Hb Hw.
    destruct (match given "seed" with
              | Some v => option_map (fun d => engine_seed (int_of_double d)) (stod v)
              | None => Some engine_default
              end) as [eng|]; [|reflexivity].
    destruct (find_first_of "[]():; " _); [reflexivity|].
    destruct (given "role") as [rl|].
    + destruct (String.eqb rl "black") eqn:Eb.
      { apply String.eqb_eq in Eb. subst rl. congruence. }
      destruct (String.eqb rl "white") eqn:Ew; [|reflexivity].
      apply String.eqb_eq in Ew. subst rl. congruence.
    + reflexivity.
  - intros v Hv Hs. rewrite Hv, Hs. reflexivity.
  - intros nm Hnm Hbad. rewrite Hnm, Hbad.
    destruct (match given "seed" with
              | Some v => option_map (fun d => engine_seed (int_of_double d)) (stod v)
              | None => Some engine_default
              end); reflexivity.
Qed.

End Constructors2.

Lemma append_nil_r (s : String.string) : String.append s "" = s.
Proof. induction s as [|c s IH]; simpl; [reflexivity|]. rewrite IH. reflexivity. Qed.

Lemma append_assoc (a b c : String.string) :
  String.append (String.append a b) c = String.append a (String.append b c).
Proof. induction a as [|x a IH]; simpl; [reflexivity|]. rewrite IH. reflexivity. Qed.

Lemma tokens_from_first (t : String.string) :
  forall cur rest,
    no_space t -> token_break rest ->
    tokens_from (String.append t rest) cur
    = match String.append cur t with
      | String.EmptyString => tokens rest
      | w => w :: tokens rest
      end.
Proof.
  induction t as [|c t IH]; intros cur rest Hns Hbr.
  - simpl. rewrite append_nil_r.
    destruct rest as [|d rest]; simpl in *.
    + destruct cur; reflexivity.
    + unfold tokens. simpl. rewrite Hbr. destruct cur; reflexivity.
  - simpl.
    assert (Hc : isspace c = false).
    { apply Hns. simpl. rewrite Ascii.eqb_refl. reflexivity. }
    rewrite Hc. rewrite IH; auto.
    + rewrite append_assoc. reflexivity.
    + intros d Hd. apply Hns. simpl. rewrite Hd. apply orb_true_r.
Qed.

(** X15. [tuple_agent] hands ["name=slide role=slider" + args] to
    [agent], with no blank before [args]: the first token of [args] is
    read as part of the role, whose value becomes ["slider"] followed by
    that token, and the key the token names is never set by it. *)
Theorem tuple_agent_first_argument_joins_role (first rest key : String.string) :
  no_space first -> token_break rest ->
  property (tuple_agent_meta (String.append first rest)) key =
  match agent_meta (map pair_of (tokens rest)) key with
  | Some v => returned v
  | None =>
      if String.eqb key "role" then returned (String.append "slider" first)
      else if String.eqb key "name" then returned "slide" else failed
  end.
Proof.
  intros Hns Hbr. unfold property, tuple_agent_meta, agent_new.
  assert (Htok : tokens (String.append "name=unknown role=unknown "
                           (String.append "name=slide role=slider"
                              (String.append first rest)))
                 = "name=unknown" :: "role=unknown" :: "name=slide"
                   :: String.append "role=slider" first :: tokens rest).
  { change (tokens (String.append "name=unknown role=unknown "
                      (String.append "name=slide role=slider"
                         (String.append first rest))))
      with ("name=unknown" :: "role=unknown" :: "name=slide"
            :: tokens_from (String.append first rest) "role=slider").
    rewrite (tokens_from_first first "role=slider" rest Hns Hbr). reflexivity. }
  rewrite Htok, meta_find_fold.
  assert (Hp : pair_of (String.append "role=slider" first)
               = ("role", String.append "slider" first)).
  { apply (pair_of_key_value "role" (String.append "slider" first)). reflexivity. }
  cbn [map]. rewrite Hp.
  change (pair_of "name=unknown") with ("name", "unknown").
  change (pair_of "role=unknown") with ("role", "unknown").
  change (pair_of "name=slide") with ("name", "slide").
  cbn [fold_left fst snd meta_find].
  rewrite agent_meta_fold_some.
  destruct (agent_meta (map pair_of (tokens rest)) key); [reflexivity|].
  rewrite (String.eqb_sym "name" key), (String.eqb_sym "role" key).
  destruct (String.eqb key "role"); [reflexivity|].
  destruct (String.eqb key "name"); reflexivity.
Qed.

Local Close Scope string_scope.

(** ** The random player *)

Section PlayerFacts.
Context {BO : BoardOracle} {RE : RandomEngine} {DO : DoubleOps}
        {NP : NumericParsing} {SH : Shuffler}.

Lemma first_legal_spec (moves : list (Z * piece_type)) (state : board) :
  match first_legal moves state with
  | action_none => forall m, In m moves -> fst (place_apply (fst m) (snd m) state) = false
  | action_place pos c => In (pos, c) moves /\ fst (place_apply pos c state) = true
  end.
Proof.
  induction moves as [|[pos who] moves IH]; simpl.
  - intros m [].
  - destruct (fst (place_apply pos who state)) eqn:E.
    + split; [left; reflexivity|exact E].
    + destruct (first_legal moves state) as [|pos' c'].
      * intros m [<-|Hm]; [exact E|apply IH; exact Hm].
      * destruct IH as [H1 H2]. split; [right; exact H1|exact H2].
Qed.

Lemma all_places_In (who : piece_type) (pos : Z) (c : piece_type) :
  In (pos, c) (all_places who) <-> c = who /\ 0 <= pos < Z.of_nat space.
Proof.
  unfold all_places. rewrite in_map_iff. split.
  - intros (i & E & Hi). injection E as <- <-. apply in_seq in Hi. split; [reflexivity|lia].
  - intros (-> & H). exists (Z.to_nat pos). split.
    + rewrite Z2Nat.id by lia. reflexivity.
    + apply in_seq. lia.
Qed.

Lemma player_take_action_step (p : player) (state : board) :
  shuffle_permutes ->
  Permutation (all_places (player_who p)) (player_space p) ->
  legal_or_none (player_who p) state (fst (player_take_action p state)) /\
  player_who (snd (player_take_action p state)) = player_who p /\
  Permutation (all_places (player_who p)) (player_space (snd (player_take_action p state))).
Proof.
  intros Hsh Hperm. unfold player_take_action.
  pose proof (Hsh _ (player_space p) (player_engine p)) as Hs.
  destruct (shuffle (player_space p) (player_engine p)) as [moves g]. simpl in *.
  assert (Hall : Permutation (all_places (player_who p)) moves).
  { eapply Permutation_trans; eauto. }
  split; [|split; [reflexivity|exact Hall]].
  pose proof (first_legal_spec moves state) as Hf.
  destruct (first_legal moves state) as [|pos c]; simpl.
  - intros i Hi.
    apply (Hf (Z.of_nat i, player_who p)).
    apply (Permutation_in _ Hall). apply all_places_In. split; [reflexivity|lia].
  - destruct Hf as [Hin Hlegal].
    apply (Permutation_in _ (Permutation_sym Hall)) in Hin.
    apply all_places_In in Hin. destruct Hin as [-> Hrange]. auto.
Qed.

Lemma player_plays_legal (states : list board) :
  shuffle_permutes ->
  forall p,
    Permutation (all_places (player_who p)) (player_space p) ->
    Forall2 (legal_or_none (player_who p)) states (player_plays p states).
Proof.
  intros Hsh. induction states as [|state states IH]; intros p Hperm; simpl.
  - constructor.
  - destruct (player_take_action_step p state Hsh Hperm) as (H1 & H2 & H3).
    destruct (player_take_action p state) as [a p']. simpl in *.
    constructor; [exact H1|]. rewrite <- H2. apply IH. rewrite H2. exact H3.
Qed.

Local Open Scope string_scope.
Lemma player_new_space (args : String.string) (p : player) :
  player_new args = returned p ->
  player_space p = all_places (player_who p) /\
  (player_who p = black \/ player_who p = white).
Proof.
  unfold player_new.
  destruct (random_agent_new (String.append "name=random role=unknown " args))
    as [[meta engine]|]; [|discriminate].
  destruct (name meta) as [nm|]; [|discriminate].
  destruct (role meta) as [rl|]; [|discriminate].
  destruct (find_first_of "[]():; " nm); [discriminate|].
  cbv zeta.
  destruct (String.eqb rl "white"); [|destruct (String.eqb rl "black")];
    try discriminate; intros H; injection H as <-; simpl; auto.
Qed.
Local Close Scope string_scope.

(** X16. Every action a constructed random [player] returns, in any
    sequence of calls of [take_action], is a placement of its colour on
    a cell of the board that is legal on the board of that call, or
    [action()] when no cell of that board takes a piece of its colour. *)
Theorem player_moves_are_legal (args : String.string) (p : player)
        (states : list board) :
  shuffle_permutes ->
  player_new args = returned p ->
  Forall2 (legal_or_none (player_who p)) states (player_plays p states).
Proof.
  intros Hsh Hnew. destruct (player_new_space args p Hnew) as (Hsp & _).
  apply (player_plays_legal states Hsh p). rewrite Hsp. apply Permutation_refl.
Qed.

End PlayerFacts.

(** ** The agents of the Threes framework *)

Section ThreesFacts.
Context {RE : RandomEngine} {DO : DoubleOps} {NP : NumericParsing} {SH : Shuffler}
        {FO : FloatOps} {TB : ThreesBoard float}.

(** X17. On tile indices below 16, [index_to_index] packs the four
    indices as the hexadecimal digits of a number below 65536: no
    [int] overflows, each index is recovered from the result, and two
    quadruples with the same result are equal. *)
Theorem index_to_index_packs_tiles (i0 i1 i2 i3 : Z) :
  0 <= i0 < 16 -> 0 <= i1 < 16 -> 0 <= i2 < 16 -> 0 <= i3 < 16 ->
  exists v,
    index_to_index i0 i1 i2 i3 = Some v /\
    v = i0 * 4096 + i1 * 256 + i2 * 16 + i3 /\
    0 <= v < 65536 /\
    v / 4096 = i0 /\ (v / 256) mod 16 = i1 /\ (v / 16) mod 16 = i2 /\ v mod 16 = i3 /\
    (forall j0 j1 j2 j3,
        0 <= j0 < 16 -> 0 <= j1 < 16 -> 0 <= j2 < 16 -> 0 <= j3 < 16 ->
        index_to_index j0 j1 j2 j3 = Some v ->
        j0 = i0 /\ j1 = i1 /\ j2 = i2 /\ j3 = i3).
Proof.
  assert (Hval : forall a b c d,
             0 <= a < 16 -> 0 <= b < 16 -> 0 <= c < 16 -> 0 <= d < 16 ->
             index_to_index a b c d = Some (a * 4096 + b * 256 + c * 16 + d)).
  { intros a b c d Ha Hb Hc Hd. unfold index_to_index, int_mul, int_add, as_int.
    unfold INT_MIN, INT_MAX.
    replace ((- 2 ^ 31 <=? a * 4096) && (a * 4096 <=? 2 ^ 31 - 1)) with true
      by (symmetry; apply andb_true_iff; split; apply Z.leb_le; lia).
    replace ((- 2 ^ 31 <=? b * 256) && (b * 256 <=? 2 ^ 31 - 1)) with true
      by (symmetry; apply andb_true_iff; split; apply Z.leb_le; lia).
    replace ((- 2 ^ 31 <=? a * 4096 + b * 256) && (a * 4096 + b * 256 <=? 2 ^ 31 - 1))
      with true by (symmetry; apply andb_true_iff; split; apply Z.leb_le; lia).
    replace ((- 2 ^ 31 <=? c * 16) && (c * 16 <=? 2 ^ 31 - 1)) with true
      by (symmetry; apply andb_true_iff; split; apply Z.leb_le; lia).
    replace ((- 2 ^ 31 <=? a * 4096 + b * 256 + c * 16)
             && (a * 4096 + b * 256 + c * 16 <=? 2 ^ 31 - 1))
      with true by (symmetry; apply andb_true_iff; split; apply Z.leb_le; lia).
    replace ((- 2 ^ 31 <=? a * 4096 + b * 256 + c * 16 + d)
             && (a * 4096 + b * 256 + c * 16 + d <=? 2 ^ 31 - 1))
      with true by (symmetry; apply andb_true_iff; split; apply Z.leb_le; lia).
    simpl. unfold size_t_wrap, SIZE_T_MOD. rewrite Z.mod_small by lia. reflexivity. }
  assert (Hdec : forall a b c d,
             0 <= a < 16 -> 0 <= b < 16 -> 0 <= c < 16 -> 0 <= d < 16 ->
             let v := a * 4096 + b * 256 + c * 16 + d in
             v / 4096 = a /\ (v / 256) mod 16 = b /\ (v / 16) mod 16 = c /\ v mod 16 = d).
  { intros a b c d Ha Hb Hc Hd v. unfold v.
    assert (E1 : (a * 4096 + b * 256 + c * 16 + d) / 4096 = a).
    { symmetry. apply (Z.div_unique _ _ a (b * 256 + c * 16 + d)); lia. }
    assert (E2 : (a * 4096 + b * 256 + c * 16 + d) / 256 = a * 16 + b).
    { symmetry. apply (Z.div_unique _ _ (a * 16 + b) (c * 16 + d)); lia. }
    assert (E3 : (a * 4096 + b * 256 + c * 16 + d) / 16 = a * 256 + b * 16 + c).
    { symmetry. apply (Z.div_unique _ _ (a * 256 + b * 16 + c) d); lia. }
    rewrite E1, E2, E3. split; [reflexivity|]. split; [|split].
    - symmetry. apply (Z.mod_unique _ _ a b); lia.
    - symmetry. apply (Z.mod_unique _ _ (a * 16 + b) c); lia.
    - symmetry. apply (Z.mod_unique _ _ (a * 256 + b * 16 + c) d); lia. }
  intros H0 H1 H2 H3.
  exists (i0 * 4096 + i1 * 256 + i2 * 16 + i3).
  destruct (Hdec i0 i1 i2 i3 H0 H1 H2 H3) as (D0 & D1 & D2 & D3).
  split; [apply Hval; assumption|]. split; [reflexivity|]. split; [lia|].
  split; [exact D0|]. split; [exact D1|]. split; [exact D2|]. split; [exact D3|].
  intros j0 j1 j2 j3 J0 J1 J2 J3 Hj.
  rewrite (Hval j0 j1 j2 j3 J0 J1 J2 J3) in Hj. injection Hj as Hj.
  destruct (Hdec j0 j1 j2 j3 J0 J1 J2 J3) as (E0 & E1 & E2 & E3).
  cbv zeta in *. rewrite Hj in E0, E1, E2, E3. lia.
Qed.

Lemma first_slide_spec (ops : list Z) (before : threes_board) :
  match first_slide ops before with
  | threes_none => forall op, In op ops -> slide_reward before op = -1
  | threes_slide op => In op ops /\ slide_reward before op <> -1
  | threes_place _ _ _ => False
  end.
Proof.
  induction ops as [|op ops IH]; simpl.
  - intros op [].
  - destruct (slide_reward before op =? -1) eqn:E.
    + apply Z.eqb_eq in E. destruct (first_slide ops before) as [|op'|].
      * intros x [<-|Hx]; [exact E|apply IH; exact Hx].
      * destruct IH as [H1 H2]. split; [right; exact H1|exact H2].
      * exact IH.
    + apply Z.eqb_neq in E. split; [left; reflexivity|exact E].
Qed.

Lemma slider_plays_legal (boards : list threes_board) :
  shuffle_permutes ->
  forall s,
    Permutation [0; 1; 2; 3] (opcode s) ->
    Forall2 slide_or_none boards (slider_plays s boards).
Proof.
  intros Hsh. induction boards as [|before boards IH]; intros s Hperm; simpl.
  - constructor.
  - unfold slider_take_action.
    pose proof (Hsh _ (opcode s) (slider_engine s)) as Hs.
    destruct (shuffle (opcode s) (slider_engine s)) as [ops g]. simpl in Hs.
    assert (Hall : Permutation [0; 1; 2; 3] ops) by (eapply Permutation_trans; eauto).
    constructor; [|apply IH; exact Hall].
    pose proof (first_slide_spec ops before) as Hf.
    assert (Hin : forall op, In op ops <-> 0 <= op <= 3).
    { intros op. split.
      - intros H. apply (Permutation_in _ (Permutation_sym Hall)) in H.
        simpl in H. lia.
      - intros H. apply (Permutation_in _ Hall). simpl. lia. }
    destruct (first_slide ops before) as [|op|]; simpl.
    + intros op Hop. apply Hf. apply Hin. exact Hop.
    + destruct Hf as [H1 H2]. split; [apply Hin; exact H1|exact H2].
    + exact Hf.
Qed.

(** X18. Every action a constructed [random_slider] returns, in any
    sequence of calls of [take_action], is one of the slides 0 to 3
    with a reward other than -1 on the board of that call, or [action()]
    when all four slides give -1. *)
Theorem slider_moves_are_legal (args : String.string) (s : random_slider)
        (boards : list threes_board) :
  shuffle_permutes ->
  random_slider_new args = returned s ->
  Forall2 slide_or_none boards (slider_plays s boards).
Proof.
  intros Hsh Hnew. apply (slider_plays_legal boards Hsh).
  unfold random_slider_new in Hnew.
  destruct (random_agent_new _) as [[meta engine]|]; [|discriminate].
  injection Hnew as <-. simpl. apply Permutation_refl.
Qed.

Lemma put_boards_current (bs : list (option threes_board)) :
  forall a a',
    current a = None ->
    put_boards bs a = Some a' ->
    current a' = None /\ net a' = net a /\ alpha a' = alpha a.
Proof.
  induction bs as [|b bs IH]; intros a a' Hc H; simpl in H.
  - injection H as <-. auto.
  - unfold put_board in H. destruct (prev a) as [p|] eqn:Hp.
    + unfold tuple_update in H. simpl in H. rewrite Hc in H. discriminate.
    + apply IH in H; [exact H|exact Hc].
Qed.

(** X19. From the pointers the constructor of [tuple_agent] sets,
    [put_board] never completes an [update]: the second board put makes
    [update] dereference the null [prev], and in every state earlier
    calls can leave, [current] is null, the weights are those at the
    start, and [update] and [take_action] dereference a null pointer. *)
Theorem tuple_agent_never_learns (a : tuple_agent) :
  fresh a ->
  (forall b1 b2 rest, b1 <> None -> put_boards (b1 :: b2 :: rest) a = None) /\
  (forall bs a', put_boards bs a = Some a' ->
                 current a' = None /\ net a' = net a /\
                 tuple_update a' = None /\
                 forall before, tuple_take_action a' before = None).
Proof.
  intros [Hp Hc]. split.
  - intros b1 b2 rest Hb1. simpl. unfold put_board at 1. rewrite Hp.
    destruct b1 as [p1|]; [|congruence].
    unfold put_board. simpl. unfold tuple_update. simpl. rewrite Hc. reflexivity.
  - intros bs a' H.
    destruct (put_boards_current bs a a' Hc H) as (Hc' & Hn & _).
    split; [exact Hc'|]. split; [exact Hn|]. split.
    + unfold tuple_update. rewrite Hc'. destruct (prev a'); reflexivity.
    + intros before. unfold tuple_take_action. simpl.
      unfold slide_value. rewrite Hc'. reflexivity.
Qed.

End ThreesFacts.

(** ** The sizes [init_weights] reads *)

Lemma digit_char_code (d : nat) :
  (d < 10)%nat -> Ascii.nat_of_ascii (digit_char d) = (48 + d)%nat.
Proof.
  intros H. unfold digit_char. apply Ascii.nat_ascii_embedding. lia.
Qed.

Lemma isdigit_digit_char (d : nat) : (d < 10)%nat -> isdigit (digit_char d) = true.
Proof.
  intros H. unfold isdigit. rewrite (digit_char_code d H).
  apply andb_true_intro. split; apply Nat.leb_le; lia.
Qed.

Lemma digit_value_digit_char (d : nat) :
  (d < 10)%nat -> digit_value (digit_char d) = Z.of_nat d.
Proof.
  intros H. unfold digit_value. rewrite (digit_char_code d H). lia.
Qed.

Lemma blank_non_digits_append (a b : String.string) :
  blank_non_digits (String.append a b)
  = String.append (blank_non_digits a) (blank_non_digits b).
Proof.
  induction a as [|c a IH]; simpl; [reflexivity|]. rewrite IH. reflexivity.
Qed.

Lemma blank_non_digits_numeral (ds : list nat) :
  Forall (fun d => (d < 10)%nat) ds -> blank_non_digits (numeral ds) = numeral ds.
Proof.
  induction 1 as [|d ds Hd _ IH]; cbn [numeral blank_non_digits]; [reflexivity|].
  rewrite (isdigit_digit_char _ Hd), IH. reflexivity.
Qed.

Lemma read_sizes_numeral (ds : list nat) :
  Forall (fun d => (d < 10)%nat) ds ->
  forall (d : nat) (rest : String.string) (run : option Z),
    (d < 10)%nat ->
    read_sizes (String.append (numeral (d :: ds)) rest) run
    = read_sizes rest
        (Some (fold_left (fun acc d => 10 * acc + Z.of_nat d) (d :: ds)
                         match run with Some v => v | None => 0 end)).
Proof.
  induction 1 as [|d' ds Hd' _ IH]; intros d rest run Hd.
  - cbn [numeral String.append read_sizes fold_left].
    rewrite (isdigit_digit_char _ Hd), (digit_value_digit_char _ Hd). reflexivity.
  - change (numeral (d :: d' :: ds))
      with (String.String (digit_char d) (numeral (d' :: ds))).
    cbn [String.append read_sizes].
    rewrite (isdigit_digit_char _ Hd), (digit_value_digit_char _ Hd).
    rewrite (IH d' rest _ Hd'). cbn [fold_left]. reflexivity.
Qed.

Lemma read_sizes_blanks (sep rest : String.string) :
  (forall c, mem_ascii c sep = true -> isdigit c = false) ->
  read_sizes (String.append (blank_non_digits sep) rest) None = read_sizes rest None.
Proof.
  induction sep as [|c sep IH]; intros Hsep; [reflexivity|].
  assert (Hc : isdigit c = false).
  { apply Hsep. cbn [mem_ascii]. rewrite Ascii.eqb_refl. reflexivity. }
  cbn [blank_non_digits String.append read_sizes]. rewrite Hc.
  change (isdigit " "%char) with false. cbv iota.
  apply IH. intros c' Hc'. apply Hsep. cbn [mem_ascii]. rewrite Hc'. apply orb_true_r.
Qed.

Lemma read_sizes_separator (sep rest : String.string) (v : Z) :
  separator sep -> v < SIZE_T_MOD ->
  read_sizes (String.append (blank_non_digits sep) rest) (Some v)
  = v :: read_sizes rest None.
Proof.
  intros [Hne Hsep] Hv. destruct sep as [|c sep]; [contradiction|].
  assert (Hc : isdigit c = false).
  { apply Hsep. cbn [mem_ascii]. rewrite Ascii.eqb_refl. reflexivity. }
  cbn [blank_non_digits String.append read_sizes]. rewrite Hc.
  change (isdigit " "%char) with false. cbv iota.
  unfold extracted. destruct (Z.ltb_spec v SIZE_T_MOD) as [_|Hge]; [|lia].
  f_equal. apply read_sizes_blanks.
  intros c' Hc'. apply Hsep. cbn [mem_ascii]. rewrite Hc'. apply orb_true_r.
Qed.

Lemma append_empty_r (s : String.string) : String.append s String.EmptyString = s.
Proof. induction s as [|c s IH]; simpl; [reflexivity|]. rewrite IH. reflexivity. Qed.

Lemma read_sizes_last (ds : list nat) :
  size_numeral ds -> read_sizes (numeral ds) None = [numeral_value ds].
Proof.
  intros (Hne & Hds & Hv). destruct ds as [|d ds]; [contradiction|].
  inversion Hds as [|? ? Hd Hds']; subst.
  rewrite <- (append_empty_r (numeral (d :: ds))).
  rewrite (read_sizes_numeral _ Hds' _ _ _ Hd). cbn [read_sizes].
  unfold extracted. fold (numeral_value (d :: ds)).
  destruct (Z.ltb_spec (numeral_value (d :: ds)) SIZE_T_MOD) as [_|Hge]; [reflexivity|lia].
Qed.

(** X21. [init_weights] reads sizes written one after the other with a
    separator between them: for numerals of at least one digit whose
    numbers fit [size_t], and a separator that is not empty and holds no
    digit (a comma, as in ["65536,65536"]), it appends one table per
    numeral, in order, with the number of the numeral as its size. *)
Theorem init_weights_reads_separated_sizes (sep : String.string) (runs : list (list nat)) :
  separator sep -> Forall size_numeral runs ->
  init_weights (separated sep runs) = map numeral_value runs.
Proof.
  intros Hsep Hruns. unfold init_weights.
  induction Hruns as [|ds runs Hds Hruns IH]; [reflexivity|].
  destruct runs as [|ds' runs].
  - cbn [separated]. destruct Hds as (Hne & Hdig & Hv).
    rewrite (blank_non_digits_numeral _ Hdig).
    apply read_sizes_last. repeat split; assumption.
  - change (separated sep (ds :: ds' :: runs))
      with (String.append (numeral ds)
              (String.append sep (separated sep (ds' :: runs)))).
    rewrite !blank_non_digits_append.
    destruct Hds as (Hne & Hdig & Hv).
    rewrite (blank_non_digits_numeral _ Hdig).
    destruct ds as [|d ds]; [contradiction|].
    inversion Hdig as [|? ? Hd Hdig']; subst.
    rewrite (read_sizes_numeral _ Hdig' _ _ _ Hd).
    fold (numeral_value (d :: ds)).
    rewrite (read_sizes_separator _ _ _ Hsep Hv).
    rewrite IH. reflexivity.
Qed.

(** ** The placements of [random_placer] *)

Section PlacerFacts.
Context {RE : RandomEngine} {DO : DoubleOps} {NP : NumericParsing} {SH : Shuffler}
        {FO : FloatOps} {TB : ThreesBoard float}.

Lemma take_last_app (bag : list Z) (t : Z) : take_last (bag ++ [t]) = Some (t, bag).
Proof.
  unfold take_last. rewrite rev_app_distr. simpl. rewrite rev_involutive. reflexivity.
Qed.

Lemma two_last (l : list Z) :
  (2 <= length l)%nat -> exists r h t, l = (r ++ [h]) ++ [t].
Proof.
  intros Hlen. destruct (rev l) as [|t [|h r]] eqn:E.
  - apply (f_equal (@length Z)) in E. rewrite length_rev in E. simpl in E. lia.
  - apply (f_equal (@length Z)) in E. rewrite length_rev in E. simpl in E. lia.
  - exists (rev r), h, t. rewrite <- (rev_involutive l), E. reflexivity.
Qed.

Lemma one_last (l : list Z) :
  (1 <= length l)%nat -> exists r t, l = r ++ [t].
Proof.
  intros Hlen. destruct (rev l) as [|t r] eqn:E.
  - apply (f_equal (@length Z)) in E. rewrite length_rev in E. simpl in E. lia.
  - exists (rev r), t. rewrite <- (rev_involutive l), E. reflexivity.
Qed.

Lemma fill_bag_count (after : threes_board) (bag : list Z) (t : Z) :
  fill_bag after = Some bag ->
  count_occ Z.eq_dec bag t
  = if t =? 1 then board_bag after 1
    else if t =? 2 then board_bag after 2
    else if t =? 3 then board_bag after 3 else 0%nat.
Proof.
  unfold fill_bag. intros H.
  destruct (length _ <=? 3)%nat; [|discriminate]. injection H as <-.
  rewrite !count_occ_app.
  destruct (Z.eqb_spec t 1) as [->|H1].
  { rewrite count_occ_repeat_eq by reflexivity.
    rewrite !count_occ_repeat_neq by discriminate. lia. }
  destruct (Z.eqb_spec t 2) as [->|H2].
  { rewrite (count_occ_repeat_eq Z.eq_dec (x := 2) (y := 2)) by reflexivity.
    rewrite !count_occ_repeat_neq by discriminate. lia. }
  destruct (Z.eqb_spec t 3) as [->|H3].
  { rewrite (count_occ_repeat_eq Z.eq_dec (x := 3) (y := 3)) by reflexivity.
    rewrite !count_occ_repeat_neq by discriminate. lia. }
  rewrite !count_occ_repeat_neq by congruence. reflexivity.
Qed.

Lemma fill_bag_length (after : threes_board) :
  (bag_size after <= 3)%nat ->
  exists bag, fill_bag after = Some bag /\ length bag = bag_size after.
Proof.
  intros H. unfold fill_bag.
  assert (Hlen : length (repeat 1 (board_bag after 1) ++ repeat 2 (board_bag after 2)
                         ++ repeat 3 (board_bag after 3)) = bag_size after).
  { rewrite !length_app, !repeat_length. unfold bag_size. lia. }
  rewrite Hlen. destruct (Nat.leb_spec (bag_size after) 3) as [_|Hgt]; [|lia].
  eexists. split; [reflexivity|exact Hlen].
Qed.

Lemma bag_tile (after : threes_board) (bag : list Z) (t : Z) (k : nat) :
  fill_bag after = Some bag ->
  (S k <= count_occ Z.eq_dec bag t)%nat ->
  1 <= t <= 3 /\ (S k <= board_bag after t)%nat.
Proof.
  intros Hfill Hk. rewrite (fill_bag_count after bag t Hfill) in Hk.
  destruct (Z.eqb_spec t 1) as [->|H1]; [split; [lia|exact Hk]|].
  destruct (Z.eqb_spec t 2) as [->|H2]; [split; [lia|exact Hk]|].
  destruct (Z.eqb_spec t 3) as [->|H3]; [split; [lia|exact Hk]|].
  lia.
Qed.

Lemma place_at_spec (pos : Z) (after : threes_board) (g : default_random_engine) :
  shuffle_permutes ->
  (bag_needed after <= bag_size after <= 3)%nat ->
  exists tile hint g',
    place_at pos after g = Some (threes_place pos tile hint, g') /\
    1 <= hint <= 3 /\ (1 <= board_bag after hint)%nat /\
    if board_hint after =? 0
    then 1 <= tile <= 3 /\ (1 <= board_bag after tile)%nat /\
         (tile = hint -> (2 <= board_bag after tile)%nat)
    else tile = board_hint after.
Proof.
  intros Hsh [Hlo Hhi]. unfold place_at. unfold bag_needed in Hlo.
  destruct (fill_bag_length after Hhi) as (bag & Hfill & Hlen). rewrite Hfill.
  pose proof (Hsh _ bag g) as Hperm.
  destruct (shuffle bag g) as [bag' g']. simpl in Hperm.
  assert (Hlen' : length bag' = bag_size after).
  { rewrite <- Hlen. symmetry. apply Permutation_length. exact Hperm. }
  assert (Hcount : forall t, count_occ Z.eq_dec bag' t = count_occ Z.eq_dec bag t).
  { intros t. symmetry. revert t. apply (Permutation_count_occ Z.eq_dec). exact Hperm. }
  destruct (board_hint after =? 0) eqn:Eh.
  - destruct (two_last bag') as (r & h & t & ->); [lia|].
    rewrite take_last_app, take_last_app.
    exists t, h, g'. split; [reflexivity|].
    assert (Hh : (1 <= count_occ Z.eq_dec bag h)%nat).
    { rewrite <- Hcount, !count_occ_app. simpl.
      destruct (Z.eq_dec h h); [lia|contradiction]. }
    assert (Ht : (1 <= count_occ Z.eq_dec bag t)%nat).
    { rewrite <- Hcount, !count_occ_app. simpl.
      destruct (Z.eq_dec t t); [lia|contradiction]. }
    destruct (bag_tile after bag h 0 Hfill Hh) as [Hh1 Hh2].
    destruct (bag_tile after bag t 0 Hfill Ht) as [Ht1 Ht2].
    split; [exact Hh1|]. split; [exact Hh2|]. split; [exact Ht1|]. split; [exact Ht2|].
    intros <-.
    assert (H2 : (2 <= count_occ Z.eq_dec bag t)%nat).
    { rewrite <- Hcount, !count_occ_app. simpl.
      destruct (Z.eq_dec t t); [lia|contradiction]. }
    apply (bag_tile after bag t 1 Hfill H2).
  - destruct (one_last bag') as (r & h & ->); [lia|].
    rewrite take_last_app.
    exists (board_hint after), h, g'. split; [reflexivity|].
    assert (Hh : (1 <= count_occ Z.eq_dec bag h)%nat).
    { rewrite <- Hcount, !count_occ_app. simpl.
      destruct (Z.eq_dec h h); [lia|contradiction]. }
    destruct (bag_tile after bag h 0 Hfill Hh) as [Hh1 Hh2].
    split; [exact Hh1|]. split; [exact Hh2|]. reflexivity.
Qed.

Lemma place_first_spec (after : threes_board) :
  shuffle_permutes ->
  (bag_needed after <= bag_size after <= 3)%nat ->
  forall (cells : list Z) (g : default_random_engine),
  exists a g', place_first cells after g = Some (a, g') /\ placement_or_none cells after a.
Proof.
  intros Hsh Hbag. induction cells as [|pos cells IH]; intros g.
  - exists threes_none, g. split; [reflexivity|]. intros pos [].
  - simpl place_first. destruct (board_cell after pos =? 0) eqn:E.
    + apply Z.eqb_eq in E.
      destruct (place_at_spec pos after g Hsh Hbag) as (tile & hint & g' & -> & H).
      exists (threes_place pos tile hint), g'. split; [reflexivity|].
      simpl. split; [left; reflexivity|]. split; [exact E|]. exact H.
    + apply Z.eqb_neq in E. destruct (IH g) as (a & g' & Hrun & Ha).
      exists a, g'. split; [exact Hrun|].
      destruct a as [|op|pos' tile hint]; simpl in *.
      * intros x [<-|Hx]; [exact E|apply Ha; exact Hx].
      * exact Ha.
      * destruct Ha as [Hin Hrest]. split; [right; exact Hin|exact Hrest].
Qed.

Lemma placement_or_none_perm (cells cells' : list Z) (after : threes_board)
      (a : threes_action) :
  Permutation cells cells' ->
  placement_or_none cells' after a -> placement_or_none cells after a.
Proof.
  intros Hperm. destruct a as [|op|pos tile hint]; simpl.
  - intros H pos Hpos. apply H. apply (Permutation_in _ Hperm). exact Hpos.
  - intros H. exact H.
  - intros [Hin Hrest]. split; [|exact Hrest].
    apply (Permutation_in _ (Permutation_sym Hperm)). exact Hin.
Qed.

Lemma random_placer_new_spaces (args : String.string) (p : random_placer) :
  random_placer_new args = returned p -> length (spaces p) = 5%nat.
Proof.
  unfold random_placer_new. destruct (random_agent_new _) as [[m g]|]; [|discriminate].
  intros H. injection H as <-. reflexivity.
Qed.

(** X22. [random_placer::take_action] on a board whose last slide
    is one of 0 to 4 and whose bag holds at most three tiles, and at
    least the two the code takes off it (one when the board gives a
    hint): it returns [action()] when no cell of the space of the last
    slide is empty, and else places on an empty cell of that space the
    hint tile of the board, or a tile of the bag when there is none,
    with a new hint that is another tile of the bag; the five spaces
    stay as the constructor set them. *)
Theorem placer_places_bag_tiles_on_empty_cells (args : String.string)
        (p0 p : random_placer) (after : threes_board) :
  shuffle_permutes ->
  random_placer_new args = returned p0 -> spaces p = spaces p0 ->
  0 <= board_last after <= 4 ->
  (bag_needed after <= bag_size after <= 3)%nat ->
  exists cells a p',
    space_of p0 after = Some cells /\
    placer_take_action p after = Some (a, p') /\
    spaces p' = spaces p0 /\
    placement_or_none cells after a.
Proof.
  intros Hsh Hnew Hsp Hlast Hbag.
  pose proof (random_placer_new_spaces args p0 Hnew) as Hlen.
  unfold placer_take_action, space_of. rewrite Hsp.
  destruct (Z.leb_spec 0 (board_last after)) as [_|Hneg]; [|lia].
  destruct (nth_error (spaces p0) (Z.to_nat (board_last after))) as [cells|] eqn:E.
  2:{ apply nth_error_None in E. lia. }
  pose proof (Hsh _ cells (placer_engine p)) as Hperm.
  destruct (shuffle cells (placer_engine p)) as [cells' g]. simpl in Hperm.
  destruct (place_first_spec after Hsh Hbag cells' g) as (a & g' & -> & Ha).
  exists cells, a, (mkPlacer (spaces p0) g').
  split; [reflexivity|]. split; [reflexivity|]. split; [reflexivity|].
  apply (placement_or_none_perm cells cells' after a Hperm Ha).
Qed.

End PlacerFacts.

(** ** The further theorems on the concrete instances *)

Lemma toy_bodies_run :
  bodies_run 8 (Toy.toy_player 3 250) (fun _ => true) Toy.one_left 1
             (fst Toy.after_first) (snd Toy.after_first).
Proof. apply (run_head toy_loop_head). Qed.

Lemma toy_shuffle_permutes : shuffle_permutes.
Proof.
  intros A l g. simpl. unfold ToyAgents.rotate.
  destruct l as [|x l]; [apply Permutation_refl|].
  destruct (uniform_int 0 (Z.of_nat (length (x :: l)) - 1) g) as [k g'].
  simpl fst.
  rewrite <- (firstn_skipn (Z.to_nat k) (x :: l)) at 1.
  apply Permutation_app_comm.
Qed.

Lemma root_visits_count_iterations_witness :
  bodies_run 8 (Toy.toy_player 3 250) (fun _ => true) Toy.one_left 1
             (fst Toy.after_first) (snd Toy.after_first) /\
  visits_ (fst Toy.after_first) = Z.of_nat 1.
Proof.
  split; [exact toy_bodies_run|].
  apply (@root_visits_count_iterations Toy.toy_board Toy.toy_engine Toy.toy_double
           8 (Toy.toy_player 3 250) (fun _ => true) Toy.one_left 1
           (fst Toy.after_first) (snd Toy.after_first) toy_bodies_run).
Defined.

Lemma children_visits_le_visits_witness :
  get_down (fst Toy.after_first) [] = Some (fst Toy.after_first) /\
  0 <= children_visits (fst Toy.after_first) <= visits_ (fst Toy.after_first).
Proof.
  split; [reflexivity|].
  apply (@children_visits_le_visits Toy.toy_board Toy.toy_engine Toy.toy_double
           8 (Toy.toy_player 3 250) (fun _ => true) Toy.one_left 1
           (fst Toy.after_first) (snd Toy.after_first) [] (fst Toy.after_first)
           toy_bodies_run eq_refl).
Defined.

Lemma visits_conservation_witness :
  children_ (fst Toy.after_first) <> [] /\
  visits_ (fst Toy.after_first)
  = children_visits (fst Toy.after_first) + first_visit [] /\
  children_visits (fst Toy.after_first) = Z.of_nat 1.
Proof.
  assert (H : children_ (fst Toy.after_first) <> []) by discriminate.
  split; [exact H|].
  destruct (@visits_conservation Toy.toy_board Toy.toy_engine Toy.toy_double
              8 (Toy.toy_player 3 250) (fun _ => true) Toy.one_left 1
              (fst Toy.after_first) (snd Toy.after_first) [] (fst Toy.after_first)
              toy_bodies_run eq_refl (or_introl H)) as [H1 H2].
  split; [exact H1|exact (H2 eq_refl)].
Defined.

Lemma root_moves_partition_legal_moves_witness :
  who (Toy.toy_player 3 250) = 1 /\
  NoDup (moves_ (fst Toy.after_first) ++ map pos_ (children_ (fst Toy.after_first))) /\
  (length (moves_ (fst Toy.after_first)) + length (children_ (fst Toy.after_first))
   = length (legal_moves Toy.one_left (who (Toy.toy_player 3 250))))%nat.
Proof.
  split; [reflexivity|].
  destruct (@root_moves_partition_legal_moves Toy.toy_board Toy.toy_engine Toy.toy_double
              8 (Toy.toy_player 3 250) (fun _ => true) Toy.one_left 1
              (fst Toy.after_first) (snd Toy.after_first)
              toy_bodies_run (or_intror eq_refl)) as (_ & H2 & H3).
  split; [exact H2|exact H3].
Defined.

Lemma take_action_returns_legal_move_witness :
  0 <= cycles (Toy.toy_player 3 250) < INT_MAX /\
  ((legal_moves Toy.empty_board (who (Toy.toy_player 3 250)) = [] /\
    take_action 4 8 (Toy.toy_player 3 250) (fun _ => true) Toy.empty_board
    = Some action_none) \/
   (exists pos,
       take_action 4 8 (Toy.toy_player 3 250) (fun _ => true) Toy.empty_board
       = Some (action_place pos (color (who (Toy.toy_player 3 250)))) /\
       0 <= pos < Z.of_nat space /\
       fst (place_apply pos (color (who (Toy.toy_player 3 250))) Toy.empty_board) = true)).
Proof.
  assert (H : 0 <= cycles (Toy.toy_player 3 250) < INT_MAX)
    by (unfold INT_MAX; simpl; lia).
  split; [exact H|].
  apply (@take_action_returns_legal_move Toy.toy_board Toy.toy_engine Toy.toy_double
           Toy.toy_occupied toy_permanent_occupation
           toy_uniform_int_in_range toy_board_fits_size_t
           (Toy.toy_player 3 250) (fun _ => true) Toy.empty_board 4%nat 8%nat
           (or_intror eq_refl) H).
  - simpl. lia.
  - unfold space. simpl. lia.
Defined.

Lemma take_action_only_move_witness :
  legal_moves Toy.one_left (who (Toy.toy_player 3 250)) = [3] /\
  take_action 4 8 (Toy.toy_player 3 250) (fun _ => true) Toy.one_left
  = Some (action_place 3 black).
Proof.
  assert (H : legal_moves Toy.one_left (who (Toy.toy_player 3 250)) = [3])
    by reflexivity.
  split; [exact H|].
  apply (@take_action_only_move Toy.toy_board Toy.toy_engine Toy.toy_double
           Toy.toy_occupied toy_permanent_occupation
           toy_uniform_int_in_range toy_board_fits_size_t
           (Toy.toy_player 3 250) (fun _ => true) Toy.one_left 4%nat 8%nat 3
           (or_intror eq_refl)); try exact H.
  - unfold INT_MAX. simpl. lia.
  - simpl. lia.
  - unfold space. simpl. lia.
Defined.


Lemma iteration_grows_tree_by_one_leaf_witness :
  iteration 8 Toy.one_left (Toy.toy_root Toy.one_left) 42 = Some Toy.after_first /\
  exists P,
    get_down (fst Toy.after_first) P <> None /\
    (forall x, get_down (fst Toy.after_first) x <> None ->
               get_down (Toy.toy_root Toy.one_left) x <> None \/ x = P).
Proof.
  split; [exact toy_first_iteration|].
  destruct (@iteration_grows_tree_by_one_leaf Toy.toy_board Toy.toy_engine Toy.toy_double
              8 (Toy.toy_player 3 250) (fun _ => true) Toy.one_left 0 0
              (Toy.toy_root Toy.one_left) 42 (fst Toy.after_first) (snd Toy.after_first)
              (@head_first Toy.toy_board Toy.toy_engine Toy.toy_double 8
                           (Toy.toy_player 3 250) (fun _ => true) Toy.one_left)
              toy_first_iteration)
    as (P & H1 & _ & H3 & _).
  exists P. split; [exact H1|exact H3].
Defined.

Lemma playout_starts_from_line_of_play_witness :
  iteration 8 Toy.one_left (Toy.toy_root Toy.one_left) 42 = Some Toy.after_first /\
  exists node1 b1 root2 node2 b2,
    b1 = line_of_play (Toy.toy_root Toy.one_left) node1 Toy.one_left /\
    b2 = line_of_play root2 node2 Toy.one_left.
Proof.
  split; [exact toy_first_iteration|].
  destruct (@playout_starts_from_line_of_play Toy.toy_board Toy.toy_engine Toy.toy_double
              8 Toy.one_left (Toy.toy_root Toy.one_left) 42
              (fst Toy.after_first) (snd Toy.after_first) toy_first_iteration)
    as (root1 & node1 & b1 & root2 & node2 & b2 & n & bw & b3 & plies
        & _ & _ & _ & _ & H1 & H2 & _).
  exists node1, b1, root2, node2, b2. split; [exact H1|exact H2].
Defined.

Lemma pop_untried_move_consumes_witness :
  uniform_int_in_range /\
  Z.of_nat (length (moves_ (Toy.toy_root Toy.empty_board))) < SIZE_T_MOD /\
  exists k pos g,
    pop_untried_move (Toy.toy_root Toy.empty_board)
    = Some (size_t_wrap (1 - bw_ (Toy.toy_root Toy.empty_board)), pos,
            popped k g (Toy.toy_root Toy.empty_board)) /\
    nth_error (moves_ (Toy.toy_root Toy.empty_board)) k = Some pos.
Proof.
  assert (H : Z.of_nat (length (moves_ (Toy.toy_root Toy.empty_board))) < SIZE_T_MOD)
    by (unfold SIZE_T_MOD; simpl; lia).
  split; [exact toy_uniform_int_in_range|]. split; [exact H|].
  pose proof (@pop_untried_move_consumes Toy.toy_engine Toy.toy_double
                (Toy.toy_root Toy.empty_board) toy_uniform_int_in_range H) as Hpop.
  change (moves_ (Toy.toy_root Toy.empty_board)) with [0; 1; 2; 3] in Hpop at 1.
  cbv beta iota in Hpop.
  destruct Hpop as (k & pos & g & H1 & H2 & _).
  exists k, pos, g. split; [exact H1|exact H2].
Defined.

Lemma tree_colours_alternate_witness :
  who (Toy.toy_player 3 250) = 1 /\
  bw_ (fst Toy.after_first) = 0 /\
  forall c, In c (children_ (fst Toy.after_first)) -> bw_ c = 1 - bw_ (fst Toy.after_first).
Proof.
  split; [reflexivity|].
  apply (@tree_colours_alternate Toy.toy_board Toy.toy_engine Toy.toy_double
           8 (Toy.toy_player 3 250) (fun _ => true) Toy.one_left 1
           (fst Toy.after_first) (snd Toy.after_first) [] (fst Toy.after_first)
           toy_bodies_run (or_intror eq_refl) eq_refl).
Defined.

Local Open Scope string_scope.

Lemma tuple_agent_first_argument_joins_role_witness :
  no_space "init=65536" /\ token_break " save=weights.bin" /\
  property (tuple_agent_meta "init=65536 save=weights.bin") "role"
  = returned "sliderinit=65536" /\
  property (tuple_agent_meta "init=65536 save=weights.bin") "init" = failed.
Proof.
  assert (H1 : no_space "init=65536").
  { intros c H. simpl in H.
    repeat (apply orb_true_iff in H; destruct H as [H|H]);
      try discriminate; apply Ascii.eqb_eq in H; subst c; reflexivity. }
  assert (H2 : token_break " save=weights.bin") by reflexivity.
  split; [exact H1|]. split; [exact H2|]. split.
  - apply (tuple_agent_first_argument_joins_role "init=65536" " save=weights.bin"
                                                  "role" H1 H2).
  - apply (tuple_agent_first_argument_joins_role "init=65536" " save=weights.bin"
                                                  "init" H1 H2).
Defined.

Lemma player_moves_are_legal_witness :
  shuffle_permutes /\
  player_new "role=black" = returned ToyAgents.random_black /\
  Forall2 (legal_or_none (player_who ToyAgents.random_black))
          [Toy.empty_board; Toy.full_board]
          (player_plays ToyAgents.random_black [Toy.empty_board; Toy.full_board]).
Proof.
  assert (H : player_new "role=black" = returned ToyAgents.random_black)
    by reflexivity.
  split; [exact toy_shuffle_permutes|]. split; [exact H|].
  apply (@player_moves_are_legal Toy.toy_board Toy.toy_engine Toy.toy_double
           Toy.toy_parsing ToyAgents.toy_shuffler "role=black" ToyAgents.random_black
           [Toy.empty_board; Toy.full_board] toy_shuffle_permutes H).
Defined.

Lemma slider_moves_are_legal_witness :
  shuffle_permutes /\
  random_slider_new "" = returned ToyAgents.slider /\
  Forall2 slide_or_none [ToyAgents.some_board]
          (slider_plays ToyAgents.slider [ToyAgents.some_board]).
Proof.
  assert (H : random_slider_new "" = returned ToyAgents.slider) by reflexivity.
  split; [exact toy_shuffle_permutes|]. split; [exact H|].
  apply (@slider_moves_are_legal Toy.toy_engine Toy.toy_double Toy.toy_parsing
           ToyAgents.toy_shuffler ToyAgents.toy_float ToyAgents.toy_threes
           "" ToyAgents.slider [ToyAgents.some_board] toy_shuffle_permutes H).
Defined.

Local Close Scope string_scope.

Lemma index_to_index_packs_tiles_witness :
  exists v,
    index_to_index 1 2 3 4 = Some v /\
    v = 1 * 4096 + 2 * 256 + 3 * 16 + 4 /\ 0 <= v < 65536.
Proof.
  destruct (index_to_index_packs_tiles 1 2 3 4) as (v & H1 & H2 & H3 & _); try lia.
  exists v. split; [exact H1|]. split; [exact H2|exact H3].
Defined.

Lemma tuple_agent_never_learns_witness :
  fresh ToyAgents.new_tuple_agent /\
  put_boards [Some ToyAgents.some_board; Some ToyAgents.some_board]
             ToyAgents.new_tuple_agent = None /\
  forall a', put_boards [Some ToyAgents.some_board] ToyAgents.new_tuple_agent = Some a' ->
             forall before, tuple_take_action a' before = None.
Proof.
  assert (H : fresh ToyAgents.new_tuple_agent) by (split; reflexivity).
  split; [exact H|].
  destruct (@tuple_agent_never_learns ToyAgents.toy_float ToyAgents.toy_threes
              ToyAgents.new_tuple_agent H) as [H1 H2].
  split.
  - apply H1. discriminate.
  - intros a' Ha'. apply (H2 _ a' Ha').
Defined.

Lemma take_action_ties_to_lowest_position_witness :
  0 <= cycles (Toy.toy_player 3 250) < 2 ^ 24 /\
  exists n root g,
    search 4 8 (Toy.toy_player 3 250) (fun _ => true) Toy.empty_board
    = Some (n, root, g) /\
    (children_ root = [] \/
     exists c,
       In c (children_ root) /\
       take_action 4 8 (Toy.toy_player 3 250) (fun _ => true) Toy.empty_board
       = Some (action_place (pos_ c) (color (who (Toy.toy_player 3 250)))) /\
       forall c', In c' (children_ root) ->
                  visits_ c' < visits_ c \/
                  (visits_ c' = visits_ c /\ pos_ c <= pos_ c')).
Proof.
  assert (H : 0 <= cycles (Toy.toy_player 3 250) < 2 ^ 24) by (simpl; lia).
  split; [exact H|].
  apply (@take_action_ties_to_lowest_position Toy.toy_board Toy.toy_engine Toy.toy_double
           Toy.toy_occupied toy_permanent_occupation
           toy_uniform_int_in_range toy_board_fits_size_t
           (Toy.toy_player 3 250) (fun _ => true) Toy.empty_board 4%nat 8%nat H).
  - simpl. lia.
  - unfold space. simpl. lia.
Defined.

Local Open Scope string_scope.

Lemma init_weights_reads_separated_sizes_witness :
  separator "," /\
  Forall size_numeral [[6; 5; 5; 3; 6]; [1; 6]]%nat /\
  init_weights (separated "," [[6; 5; 5; 3; 6]; [1; 6]]%nat)
  = map numeral_value [[6; 5; 5; 3; 6]; [1; 6]]%nat.
Proof.
  assert (Hsep : separator ",").
  { split; [discriminate|]. intros c Hc. cbn [mem_ascii] in Hc.
    rewrite orb_false_r in Hc. apply Ascii.eqb_eq in Hc. subst c. reflexivity. }
  assert (Hruns : Forall size_numeral [[6; 5; 5; 3; 6]; [1; 6]]%nat).
  { repeat constructor; try discriminate; try lia; reflexivity. }
  split; [exact Hsep|]. split; [exact Hruns|].
  apply (init_weights_reads_separated_sizes "," _ Hsep Hruns).
Defined.

Lemma placer_places_bag_tiles_on_empty_cells_witness :
  shuffle_permutes /\
  random_placer_new "" = returned ToyAgents.placer /\
  exists cells a p',
    space_of ToyAgents.placer ToyAgents.some_board = Some cells /\
    placer_take_action ToyAgents.placer ToyAgents.some_board = Some (a, p') /\
    spaces p' = spaces ToyAgents.placer /\
    placement_or_none cells ToyAgents.some_board a.
Proof.
  assert (H : random_placer_new "" = returned ToyAgents.placer) by reflexivity.
  split; [exact toy_shuffle_permutes|]. split; [exact H|].
  apply (@placer_places_bag_tiles_on_empty_cells Toy.toy_engine Toy.toy_double
           Toy.toy_parsing ToyAgents.toy_shuffler ToyAgents.toy_float ToyAgents.toy_threes
           "" ToyAgents.placer ToyAgents.placer ToyAgents.some_board
           toy_shuffle_permutes H eq_refl).
  - simpl. lia.
  - unfold bag_needed, bag_size. simpl. lia.
Defined.

Local Close Scope string_scope.
